(** * TorchData: graph utilities and key-zipping / round-robin datapipes

    A shallow embedding of

      - [torchdata/datapipes/iter/util/combining.py]
        ([IterKeyZipperIterDataPipe], [MapKeyZipperIterDataPipe],
         [RoundRobinDemultiplexerIterDataPipe], [UnZipperIterDataPipe]) and
      - [torchdata/dataloader2/graph/utils.py]
        ([find_dps], [list_dps], [replace_dp], [_replace_dp], [remove_dp],
         [_remove_dp], [_assign_attr]),

    followed by the properties of these functions.

    Conventions.  Python integers are [Z]; object identities ([id(dp)]) are
    natural numbers.  A finite iterable (the datapipe being iterated) is the
    list of the items it produces.  A generator is run against a consumer
    that asks for a given number of items and then closes it; what the
    generator does is recorded as a list of events. *)

From Stdlib Require Import ZArith Lia List String.
From stdpp Require Import base decidable option list gmap strings.

Local Open Scope Z_scope.
Set Warnings "-register-all,-clear-no-such-hyp".

(* ===================================================================== *)
(** * Part I.  The model                                                  *)
(* ===================================================================== *)

(** How an iteration of a generator ends: the body returns (the consumer
    sees [StopIteration]), the consumer closes the generator while it is
    suspended at a [yield], or the body raises. *)
Inductive ending (E : Type) : Type :=
| Exhausted
| Closed
| Raised (e : E).
Arguments Exhausted {E}.
Arguments Closed {E}.
Arguments Raised {E} e.

(* --------------------------------------------------------------------- *)
(** ** [IterKeyZipperIterDataPipe] ([zip_with_iter])                      *)
(* --------------------------------------------------------------------- *)

Module IterKeyZipper.

Section model.
Context {Data Ref Key Merged : Type} `{!EqDecision Key}.

(** [collections.OrderedDict]: the entries in insertion order, one per key. *)
Local Abbreviation OrderedDict := (list (Key * Ref)).

(** [key in d] *)
Definition od_contains (k : Key) (d : OrderedDict) : bool :=
  bool_decide (k ∈ d.*1).

(** [d.pop(key)]: [None] stands for the [KeyError] of a missing key. *)
Fixpoint od_pop (k : Key) (d : OrderedDict) : option (Ref * OrderedDict) :=
  match d with
  | [] => None
  | (k', v) :: d' =>
      if decide (k = k') then Some (v, d')
      else match od_pop k d' with
           | Some (r, d'') => Some (r, (k', v) :: d'')
           | None => None
           end
  end.

(** [d.popitem(last=False)]: [None] stands for the [KeyError] of an empty
    dictionary. *)
Definition od_popitem_first (d : OrderedDict) : option ((Key * Ref) * OrderedDict) :=
  match d with
  | [] => None
  | e :: d' => Some (e, d')
  end.

(** [d[k] = v]: an existing key keeps its position, a new key goes last. *)
Fixpoint od_setitem (k : Key) (v : Ref) (d : OrderedDict) : OrderedDict :=
  match d with
  | [] => [(k, v)]
  | (k', v') :: d' =>
      if decide (k = k') then (k, v) :: d' else (k', v') :: od_setitem k v d'
  end.

(** What [merge_fn] (or its default, the pair) gives. *)
Inductive res : Type :=
| MergeFn (m : Merged)
| Pair (data : Data) (ref_data : Ref).

(** What is yielded: [res], or [(key, res)] under [keep_key]. *)
Inductive item : Type :=
| Res (r : res)
| KeyRes (key : Key) (r : res).

Inductive exn : Type :=
| BufferError (data : Data)
| ValueError
| KeyError (key : Key).

(** [Janitor v] is a call [janitor(v)] of the cleanup hook, whose code is
    outside this file; the model only records the call. *)
Inductive event : Type :=
| Yield (x : item)
| Warn
| Janitor (v : Ref).

(** The attributes of the object.  [buffer_size = None] is the unbounded
    buffer.  With [ref_key_fn=None] the constructor stores [key_fn] in
    [ref_key_fn]; that is the instance [Ref = Data]. *)
Record t : Type := Build {
  source_datapipe : list Data;
  ref_datapipe : list Ref;
  key_fn : Data -> Key;
  ref_key_fn : Ref -> Key;
  keep_key : bool;
  buffer_size : option Z;
  merge_fn : option (Data -> Ref -> Merged);
  buffer : OrderedDict
}.

(** [__init__]: [None] stands for the [ValueError] on a buffer size that is
    neither [None] nor positive. *)
Definition __init__ (source_datapipe : list Data) (ref_datapipe : list Ref)
    (key_fn : Data -> Key) (ref_key_fn : Ref -> Key) (keep_key : bool)
    (buffer_size : option Z) (merge_fn : option (Data -> Ref -> Merged)) : option t :=
  match buffer_size with
  | Some n =>
      if bool_decide (n <= 0) then None
      else Some (Build source_datapipe ref_datapipe key_fn ref_key_fn keep_key
                   buffer_size merge_fn [])
  | None =>
      Some (Build source_datapipe ref_datapipe key_fn ref_key_fn keep_key
              buffer_size merge_fn [])
  end.

(** The variables of a running [__iter__]: the iterator [ref_it] (what is
    left of the reference datapipe), [warn_once_flag], and [self.buffer]. *)
Record frame : Type := Frame {
  ref_it : list Ref;
  warn_once_flag : bool;
  self_buffer : OrderedDict
}.

(** [self.buffer_size is not None and len(self.buffer) > self.buffer_size] *)
Definition over_limit (self : t) (buf : OrderedDict) : bool :=
  match buffer_size self with
  | Some n => bool_decide (n < Z.of_nat (length buf))
  | None => false
  end.

(** The loop [while key not in self.buffer], lines 92-111. *)
Fixpoint while_not_in_buffer (self : t) (data : Data) (key : Key)
    (refs : list Ref) (flag : bool) (buf : OrderedDict)
  : frame * list event * option exn :=
  if od_contains key buf then (Frame refs flag buf, [], None)
  else
    match refs with
    | [] => (Frame [] flag buf, [], Some (BufferError data))
    | ref_data :: refs' =>
        let ref_key := ref_key_fn self ref_data in
        if od_contains ref_key buf then (Frame refs' flag buf, [], Some ValueError)
        else if over_limit self buf then
          match od_popitem_first buf with
          | None => (Frame refs' false buf, (if flag then [Warn] else []),
                     Some (KeyError ref_key))
          | Some (_, buf') =>
              let '(fr, ev, r) :=
                while_not_in_buffer self data key refs' false
                  (od_setitem ref_key ref_data buf') in
              (fr, (if flag then [Warn] else []) ++ ev, r)
          end
        else
          while_not_in_buffer self data key refs' flag
            (od_setitem ref_key ref_data buf)
    end.

(** Lines 112-116: what is yielded for [data] matched with [v]. *)
Definition output (self : t) (data : Data) (v : Ref) : item :=
  let r := match merge_fn self with
           | Some f => MergeFn (f data v)
           | None => Pair data v
           end in
  if keep_key self then KeyRes (key_fn self data) r else Res r.

(** The loop [for data in self.source_datapipe], lines 90-116.  [more] is
    the number of items the consumer still asks for after the next one: at a
    [yield] with [more = 0] the generator is closed. *)
Fixpoint for_source (self : t) (src : list Data) (more : nat) (fr : frame)
  : frame * list event * ending exn :=
  match src with
  | [] => (fr, [], Exhausted)
  | data :: src' =>
      let key := key_fn self data in
      match while_not_in_buffer self data key
              (ref_it fr) (warn_once_flag fr) (self_buffer fr) with
      | (fr1, ev, Some e) => (fr1, ev, Raised e)
      | (fr1, ev, None) =>
          match od_pop key (self_buffer fr1) with
          | None => (fr1, ev, Raised (KeyError key))
          | Some (v, buf') =>
              let fr2 := Frame (ref_it fr1) (warn_once_flag fr1) buf' in
              match more with
              | O => (fr2, ev ++ [Yield (output self data v)], Closed)
              | S more' =>
                  let '(fr3, ev', e) := for_source self src' more' fr2 in
                  (fr3, ev ++ Yield (output self data v) :: ev', e)
              end
          end
      end
  end.

(** The [finally] clause, lines 117-123. *)
Definition finally_clause (fr : frame) : OrderedDict * list event :=
  match self_buffer fr with
  | [] => ([], [])
  | _ :: _ => ([], map (fun kv => Janitor (snd kv)) (self_buffer fr))
  end.

Definition set_buffer (self : t) (buf : OrderedDict) : t :=
  Build (source_datapipe self) (ref_datapipe self) (key_fn self)
    (ref_key_fn self) (keep_key self) (buffer_size self) (merge_fn self) buf.

(** [try: for ... finally: ...], lines 89-123, from the point where the loop
    has [src] left of the source and the variables are [fr]: however the loop
    ends, the [finally] clause runs before the ending reaches the caller. *)
Definition try_finally (self : t) (src : list Data) (more : nat) (fr : frame)
  : t * list event * ending exn :=
  let '(fr', ev, e) := for_source self src more fr in
  let '(buf, ev') := finally_clause fr' in
  (set_buffer self buf, ev ++ ev', e).

(** [__iter__], run against a consumer that takes [n] items and then closes
    the generator ([n = 0]: the generator is never started, so no line of the
    body runs).  [list(dp)] is any [n] above the length of the source. *)
Definition __iter__ (self : t) (n : nat) : t * list event * ending exn :=
  match n with
  | O => (self, [], Closed)
  | S more =>
      try_finally self (source_datapipe self) more
        (Frame (ref_datapipe self) true (buffer self))
  end.

(** [__len__] *)
Definition __len__ (self : t) : Z := Z.of_nat (length (source_datapipe self)).

(** [reset] *)
Definition reset (self : t) : t := set_buffer self [].

(** The items yielded, in order. *)
Definition yielded (ev : list event) : list item :=
  omap (fun e => match e with Yield x => Some x | _ => None end) ev.

(** The items handed to the cleanup hook, in order. *)
Definition released (ev : list event) : list Ref :=
  omap (fun e => match e with Janitor v => Some v | _ => None end) ev.

(** The number of warnings. *)
Definition warnings (ev : list event) : nat :=
  length (omap (fun e => match e with Warn => Some tt | _ => None end) ev).

End model.

Arguments t : clear implicits.
Arguments res : clear implicits.
Arguments item : clear implicits.
Arguments exn : clear implicits.
Arguments event : clear implicits.
Arguments frame : clear implicits.

(** The example of the docstring, lines 46-55. *)
Definition example_merge_fn (t1 t2 : string * Z) : Z := t1.2 + t2.2.

Definition example (keep_key : bool) : t (string * Z) (string * Z) string Z :=
  Build [("a", 100); ("b", 200); ("c", 300)]
        [("a", 1); ("b", 2); ("c", 3); ("d", 4)]
        fst fst keep_key (Some 10000) (Some example_merge_fn) [].

(** A joiner with [buffer_size=1] whose first primary key is the third of the
    reference stream. *)
Definition small_buffer : t (string * Z) (string * Z) string Z :=
  Build [("c", 300); ("a", 100)]
        [("a", 1); ("b", 2); ("c", 3)]
        fst fst false (Some 1) (Some example_merge_fn) [].

End IterKeyZipper.

(* --------------------------------------------------------------------- *)
(** ** [MapKeyZipperIterDataPipe] ([zip_with_map])                        *)
(* --------------------------------------------------------------------- *)

Module MapKeyZipper.

Section model.
Context {Data Key MapItem Merged : Type}.

(** What [self.map_datapipe[key]] does: it returns an item or raises one of
    the two exceptions the source catches. *)
Inductive getitem : Type :=
| Found (map_item : MapItem)
| RaisesKeyError
| RaisesIndexError.

Inductive res : Type :=
| MergeFn (m : Merged)
| Pair (data : Data) (map_item : MapItem).

Inductive item : Type :=
| Res (r : res)
| KeyRes (key : Key) (r : res).

(** The [KeyError] raised at line 231, with the item and the key of its
    message. *)
Inductive exn : Type :=
| KeyError (data : Data) (key : Key).

(** [GetItem key] is one evaluation of [self.map_datapipe[key]]. *)
Inductive event : Type :=
| GetItem (key : Key)
| Yield (x : item).

Record t : Type := Build {
  source_iterdatapipe : list Data;
  map_datapipe : Key -> getitem;
  key_fn : Data -> Key;
  merge_fn : option (Data -> MapItem -> Merged);
  keep_key : bool
}.

(** Lines 232-236: what is yielded for [data] with [map_item]. *)
Definition output (self : t) (data : Data) (map_item : MapItem) : item :=
  let r := match merge_fn self with
           | Some f => MergeFn (f data map_item)
           | None => Pair data map_item
           end in
  if keep_key self then KeyRes (key_fn self data) r else Res r.

(** The loop of [__iter__], lines 226-236; [more] as in
    [IterKeyZipper.for_source]. *)
Fixpoint for_source (self : t) (src : list Data) (more : nat)
  : list event * ending exn :=
  match src with
  | [] => ([], Exhausted)
  | data :: src' =>
      let key := key_fn self data in
      match map_datapipe self key with
      | RaisesKeyError | RaisesIndexError =>
          ([GetItem key], Raised (KeyError data key))
      | Found map_item =>
          match more with
          | O => ([GetItem key; Yield (output self data map_item)], Closed)
          | S more' =>
              let '(ev, e) := for_source self src' more' in
              (GetItem key :: Yield (output self data map_item) :: ev, e)
          end
      end
  end.

(** [__iter__] against a consumer that takes [n] items and then closes the
    generator. *)
Definition __iter__ (self : t) (n : nat) : list event * ending exn :=
  match n with
  | O => ([], Closed)
  | S more => for_source self (source_iterdatapipe self) more
  end.

(** [__len__] *)
Definition __len__ (self : t) : Z := Z.of_nat (length (source_iterdatapipe self)).

Definition yielded (ev : list event) : list item :=
  omap (fun e => match e with Yield x => Some x | _ => None end) ev.

Definition lookups (ev : list event) : list Key :=
  omap (fun e => match e with GetItem k => Some k | _ => None end) ev.

End model.

Arguments t : clear implicits.
Arguments getitem : clear implicits.
Arguments res : clear implicits.
Arguments item : clear implicits.
Arguments exn : clear implicits.
Arguments event : clear implicits.

(** [SequenceWrapper(d)] over a dictionary [d]: [__getitem__] is [d[key]]. *)
Definition SequenceWrapper {Key MapItem : Type} `{Countable Key}
    (d : gmap Key MapItem) : Key -> getitem MapItem :=
  fun key => match d !! key with
             | Some v => Found v
             | None => RaisesKeyError
             end.

(** The example of the docstring, lines 193-202. *)
Definition example_merge_fn (tuple_from_iter : string * Z) (value_from_map : Z)
  : string * Z :=
  (tuple_from_iter.1, tuple_from_iter.2 + value_from_map).

Definition example_mapdp : gmap string Z :=
  <["a" := 100]> (<["b" := 200]> (<["c" := 300]> (<["d" := 400]> ∅))).

Definition example (dp1 : list (string * Z)) : t (string * Z) string Z (string * Z) :=
  Build dp1 (SequenceWrapper example_mapdp) fst (Some example_merge_fn) false.

End MapKeyZipper.

(* --------------------------------------------------------------------- *)
(** ** [RoundRobinDemultiplexerIterDataPipe] ([round_robin_demux])        *)
(* --------------------------------------------------------------------- *)

Module RoundRobin.

Section model.
Context {A : Type}.

(** [datapipe.enumerate()] *)
Definition enumerate (datapipe : list A) : list (Z * A) :=
  imap (fun i x => (Z.of_nat i, x)) datapipe.

(** [_drop_index] *)
Definition _drop_index (idx_data : Z * A) : A :=
  let '(_, data) := idx_data in data.

(** [_RoundRobinDemultiplexerIterDataPipe._round_robin_fn]; [%] on a
    positive modulus is [Z.modulo]. *)
Definition _round_robin_fn (num_instances : Z) (idx_data : Z * A) : Z :=
  let '(idx, _) := idx_data in idx mod num_instances.

(** [_RoundRobinDemultiplexerIterDataPipe.get_length_by_instance], with
    [n = len(self.main_datapipe)]; [//] is [Z.div]. *)
Definition get_length_by_instance (n num_instances instance_id : Z) : Z :=
  let avg_length := n / num_instances in
  if bool_decide (n - avg_length * num_instances > instance_id)
  then avg_length + 1 else avg_length.

(** Modelled from the spec: the demultiplexer of [torch.utils.data]
    ([_DemultiplexerIterDataPipe] with [_ChildDataPipe]) is not part of the
    sources; by the spec the item at position [i] is routed to the branch the
    classifier names, and a branch yields its items in the order of the
    source. *)
Definition child_items (classifier_fn : Z * A -> Z) (main_datapipe : list (Z * A))
    (instance_id : Z) : list (Z * A) :=
  filter (fun x => classifier_fn x = instance_id) main_datapipe.

(** One child of the demultiplexer: what it yields and its [len]. *)
Record child : Type := Child {
  child_yields : list A;
  child_len : Z
}.

(** [RoundRobinDemultiplexerIterDataPipe.__new__]: [None] stands for the
    [ValueError] on [num_instances < 1]. *)
Definition __new__ (datapipe : list A) (num_instances : Z) : option (list child) :=
  if bool_decide (num_instances < 1) then None
  else if bool_decide (num_instances = 1) then
    Some [Child datapipe (Z.of_nat (length datapipe))]
  else
    let main_datapipe := enumerate datapipe in
    Some (map (fun i : nat =>
                 Child (map _drop_index
                          (child_items (_round_robin_fn num_instances)
                             main_datapipe (Z.of_nat i)))
                       (get_length_by_instance (Z.of_nat (length main_datapipe))
                          num_instances (Z.of_nat i)))
            (seq 0 (Z.to_nat num_instances))).

End model.

(** The closed form of the length, as the spec words it. *)
Definition analytic_length (n num_instances instance_id : Z) : Z :=
  n / num_instances + (if bool_decide (instance_id < n mod num_instances) then 1 else 0).

End RoundRobin.

(* --------------------------------------------------------------------- *)
(** ** [torchdata/dataloader2/graph/utils.py]                             *)
(* --------------------------------------------------------------------- *)

Module GraphUtils.

(** A Python class with the chain of classes it derives from. *)
Inductive pyclass : Type :=
| Class (name : string) (base : option pyclass).

#[global] Instance pyclass_eq_dec : EqDecision pyclass.
Proof.
  refine (fix go (c d : pyclass) : Decision (c = d) :=
            match c, d with
            | Class n1 b1, Class n2 b2 =>
                match decide (n1 = n2) with
                | left Hn =>
                    match b1, b2 with
                    | None, None => left _
                    | Some c1, Some c2 =>
                        match go c1 c2 with
                        | left Hb => left _
                        | right Hb => right _
                        end
                    | _, _ => right _
                    end
                | right Hn => right _
                end
            end); congruence.
Defined.

(** [issubclass(c, T)] *)
Fixpoint issubclass (c T : pyclass) : bool :=
  bool_decide (c = T) ||
  match c with
  | Class _ (Some b) => issubclass b T
  | Class _ None => false
  end.

(** A reference to a datapipe object (an [IterDataPipe] or a [MapDataPipe]):
    its identity [id(dp)] and its class [type(dp)], neither of which changes
    while the object lives.  The attributes of the object are in the heap
    below. *)
Record DataPipe : Type := Pipe {
  py_id : nat;
  py_type : pyclass
}.

#[global] Instance DataPipe_eq_dec : EqDecision DataPipe.
Proof. solve_decision. Defined.

(** [DataPipeGraph = Dict[int, Tuple[DataPipe, DataPipeGraph]]], the items
    in the order of the dictionary. *)
Inductive DataPipeGraph : Type :=
| Graph (items : list (nat * (DataPipe * DataPipeGraph))).

Definition items (g : DataPipeGraph) : list (nat * (DataPipe * DataPipeGraph)) :=
  match g with Graph l => l end.

(** *** [find_dps] *)

(** [helper], lines 24-31, with the two variables [cache] and [dps] it
    updates. *)
Fixpoint helper (dp_type : pyclass) (g : DataPipeGraph)
    (st : gset nat * list DataPipe) : gset nat * list DataPipe :=
  match g with
  | Graph l =>
      (fix loop (l : list (nat * (DataPipe * DataPipeGraph)))
           (st : gset nat * list DataPipe) : gset nat * list DataPipe :=
         match l with
         | [] => st
         | (dp_id, (dp, src_graph)) :: rest =>
             if bool_decide (dp_id ∈ st.1) then loop rest st
             else
               let cache := {[dp_id]} ∪ st.1 in
               let dps := if bool_decide (py_type dp = dp_type)
                          then st.2 ++ [dp] else st.2 in
               loop rest (helper dp_type src_graph (cache, dps))
         end) l st
  end.

Definition find_dps (graph : DataPipeGraph) (dp_type : pyclass) : list DataPipe :=
  (helper dp_type graph (∅, [])).2.

(** The loop of [helper] on its own: [helper dp_type (Graph l) st] is
    [helper_items dp_type l st] (see [helper_Graph]). *)
Fixpoint helper_items (dp_type : pyclass) (l : list (nat * (DataPipe * DataPipeGraph)))
    (st : gset nat * list DataPipe) : gset nat * list DataPipe :=
  match l with
  | [] => st
  | (dp_id, (dp, src_graph)) :: rest =>
      if bool_decide (dp_id ∈ st.1) then helper_items dp_type rest st
      else
        let cache := {[dp_id]} ∪ st.1 in
        let dps := if bool_decide (py_type dp = dp_type)
                   then st.2 ++ [dp] else st.2 in
        helper_items dp_type rest (helper dp_type src_graph (cache, dps))
  end.

(** *** Graphs as [traverse_dps] builds them *)

(** An item of a graph, at any depth, with the keys of its subgraph. *)
Local Abbreviation entry := (nat * DataPipe * list nat)%type.

Fixpoint graph_entries (g : DataPipeGraph) : list entry :=
  match g with
  | Graph l =>
      flat_map (fun kv => (kv.1, kv.2.1, (items kv.2.2).*1) :: graph_entries kv.2.2) l
  end.

(** The loop of [graph_entries] on its own. *)
Fixpoint items_entries (l : list (nat * (DataPipe * DataPipeGraph))) : list entry :=
  match l with
  | [] => []
  | (dp_id, (dp, src_graph)) :: rest =>
      (dp_id, dp, (items src_graph).*1) :: graph_entries src_graph ++ items_entries rest
  end.

(** The pipes of a graph: those reachable from its terminal pipes. *)
Definition graph_pipes (g : DataPipeGraph) : list DataPipe :=
  map (fun e : entry => e.1.2) (graph_entries g).

(** What the spec asks of the graph-construction function: every item is
    keyed by the identity of its pipe, and identity is assigned consistently:
    wherever an identity occurs in the graph it comes with the same pipe and
    the same predecessors. *)
Definition keyed_by_id (g : DataPipeGraph) : bool :=
  forallb (fun e : entry => bool_decide (e.1.1 = py_id e.1.2)) (graph_entries g).

Definition consistent (es : list entry) : bool :=
  forallb (fun e1 : entry =>
             forallb (fun e2 : entry =>
                        implb (bool_decide (e1.1.1 = e2.1.1)) (bool_decide (e1 = e2)))
               es)
    es.

Definition wf_graph (g : DataPipeGraph) : bool :=
  keyed_by_id g && consistent (graph_entries g).

(** An item of a queue as an item of the graph [g]: it and the items below
    it are items of [g]. *)
Definition entry_of (it : nat * DataPipe * DataPipeGraph) : entry :=
  (it.1.1, it.1.2, (items it.2).*1).

Definition in_graph (g : DataPipeGraph) (it : nat * DataPipe * DataPipeGraph) : Prop :=
  entry_of it ∈ graph_entries g
  ∧ ∀ e : entry, e ∈ graph_entries it.2 -> e ∈ graph_entries g.

(** The items [helper] visits, in the order it visits them: [helper] with
    the test on the type left out. *)
Fixpoint visit (g : DataPipeGraph) (st : gset nat * list entry)
  : gset nat * list entry :=
  match g with
  | Graph l =>
      (fix loop (l : list (nat * (DataPipe * DataPipeGraph)))
           (st : gset nat * list entry) : gset nat * list entry :=
         match l with
         | [] => st
         | (dp_id, (dp, src_graph)) :: rest =>
             if bool_decide (dp_id ∈ st.1) then loop rest st
             else
               loop rest
                 (visit src_graph
                    ({[dp_id]} ∪ st.1, st.2 ++ [(dp_id, dp, (items src_graph).*1)]))
         end) l st
  end.

Fixpoint visit_items (l : list (nat * (DataPipe * DataPipeGraph)))
    (st : gset nat * list entry) : gset nat * list entry :=
  match l with
  | [] => st
  | (dp_id, (dp, src_graph)) :: rest =>
      if bool_decide (dp_id ∈ st.1) then visit_items rest st
      else
        visit_items rest
          (visit src_graph
             ({[dp_id]} ∪ st.1, st.2 ++ [(dp_id, dp, (items src_graph).*1)]))
  end.

(** *** The objects a datapipe holds *)

(** The values found in the attributes of a datapipe: references to
    datapipes, the four containers [_assign_attr] looks into, and anything
    else.  A container is modelled by its contents: no container is shared
    between two places, and no container contains itself. *)
Inductive value : Type :=
| VPipe (dp : DataPipe)
| VDict (d : list (string * value))
| VTuple (l : list value)
| VList (l : list value)
| VSet (l : list value)
| VOther (repr : string).

(** The heap: [obj.__dict__] of every datapipe, by identity, the attributes
    in insertion order.  Datapipes are shared: every reference [VPipe dp]
    to the same identity sees the same attributes. *)
Local Abbreviation heap := (gmap nat (list (string * value))).

Definition __dict__ (h : heap) (dp : DataPipe) : list (string * value) :=
  default [] (h !! py_id dp).

(** [obj is dp] *)
Definition is_ (obj : value) (dp : DataPipe) : bool :=
  match obj with
  | VPipe d => bool_decide (py_id d = py_id dp)
  | _ => false
  end.

(** The datapipes a value refers to, without looking inside them. *)
Fixpoint pipes_in (v : value) : list DataPipe :=
  match v with
  | VPipe dp => [dp]
  | VDict d => flat_map (fun kv => pipes_in kv.2) d
  | VTuple l | VList l | VSet l => flat_map pipes_in l
  | VOther _ => []
  end.

(** The first of every identity. *)
Fixpoint dedup (seen : list nat) (l : list DataPipe) : list DataPipe :=
  match l with
  | [] => []
  | dp :: l' =>
      if bool_decide (py_id dp ∈ seen) then dedup seen l'
      else dp :: dedup (py_id dp :: seen) l'
  end.

(** Modelled from the spec: [traverse_dps] comes from [torch.utils.data.graph]
    and is not part of the sources.  By the spec the graph of a pipe maps its
    identity to the pipe and the graph of its direct predecessors, down to the
    source pipes, whose subgraph is empty; the direct predecessors are the
    datapipes its attributes refer to.  A pipe met again on the path from the
    terminal pipe ends the path, which makes the recursion finite on every
    heap; [fuel] bounds the length of a path. *)
Definition connected (h : heap) (dp : DataPipe) : list DataPipe :=
  dedup [] (flat_map (fun kv => pipes_in kv.2) (__dict__ h dp)).

Fixpoint traverse_helper (fuel : nat) (h : heap) (cache : gset nat)
    (datapipe : DataPipe) : DataPipeGraph :=
  match fuel with
  | O => Graph []
  | S fuel' =>
      if bool_decide (py_id datapipe ∈ cache) then Graph []
      else
        let cache' := {[py_id datapipe]} ∪ cache in
        Graph [(py_id datapipe,
                (datapipe,
                 Graph (flat_map
                          (fun item => items (traverse_helper fuel' h cache' item))
                          (connected h datapipe))))]
  end.

Definition traverse_dps (h : heap) (datapipe : DataPipe) : DataPipeGraph :=
  traverse_helper (S (size h)) h ∅ datapipe.

(** *** [list_dps] *)

(** The elements of the queue: [(dp_id, dp, subgraph)]. *)
Local Abbreviation qitem := (nat * DataPipe * DataPipeGraph)%type.

(** The loops at lines 65-68 and 73-76: the items not yet in [cache] are
    appended to the queue and their identities added to [cache]. *)
Fixpoint enqueue (l : list (nat * (DataPipe * DataPipeGraph)))
    (q : list qitem) (cache : gset nat) : list qitem * gset nat :=
  match l with
  | [] => (q, cache)
  | (dp_id, (dp, subgraph)) :: rest =>
      if bool_decide (dp_id ∈ cache) then enqueue rest q cache
      else enqueue rest (q ++ [(dp_id, dp, subgraph)]) ({[dp_id]} ∪ cache)
  end.

(** [while len(q) > 0], lines 70-76; [None] when [fuel] iterations were not
    enough to empty the queue. *)
Fixpoint bfs_while (fuel : nat) (q : list qitem) (cache : gset nat)
    (dps : list DataPipe) : option (list DataPipe) :=
  match q with
  | [] => Some dps
  | (dp_id, dp, subgraph) :: q' =>
      match fuel with
      | O => None
      | S fuel' =>
          let '(q'', cache') := enqueue (items subgraph) q' cache in
          bfs_while fuel' q'' cache' (dps ++ [dp])
      end
  end.

(** The number of items of a graph, at all depths. *)
Fixpoint graph_size (g : DataPipeGraph) : nat :=
  match g with
  | Graph l => list_sum (map (fun kv => S (graph_size kv.2.2)) l)
  end.

(** Lines 63-78, from the [cache] the exclusion left.  Every iteration of
    the loop takes one item of the graph off the queue and no item is put on
    it twice, so the size of the graph is enough fuel
    (see [bfs_while_enough_fuel]). *)
Definition list_dps_from (cache : gset nat) (graph : DataPipeGraph) : list DataPipe :=
  let '(q, cache') := enqueue (items graph) [] cache in
  default [] (bfs_while (graph_size graph) q cache' []).

(** Breadth first, as the spec words it: level by level, the terminal
    pipes first, then their predecessors not seen before, and so on.
    [next_level] collects, in order, the predecessors of a level that are not
    in [cache]; [bfs_levels] lists a level and goes on with the next. *)
Fixpoint next_level (frontier : list qitem) (next : list qitem) (cache : gset nat)
  : list qitem * gset nat :=
  match frontier with
  | [] => (next, cache)
  | (_, _, subgraph) :: rest =>
      let '(next', cache') := enqueue (items subgraph) next cache in
      next_level rest next' cache'
  end.

Fixpoint bfs_levels (depth : nat) (frontier : list qitem) (cache : gset nat)
  : list qitem :=
  match depth with
  | O => []
  | S depth' =>
      match frontier with
      | [] => []
      | _ :: _ =>
          let '(next, cache') := next_level frontier [] cache in
          frontier ++ bfs_levels depth' next cache'
      end
  end.

(** The items of the graphs on a queue, at all depths. *)
Definition queue_size (q : list qitem) : nat :=
  list_sum (map (fun it : qitem => S (graph_size it.2)) q).

(** [exclude_dps]: absent, one datapipe, or a list of datapipes. *)
Inductive exclude_arg : Type :=
| ExcludeNone
| ExcludeOne (dp : DataPipe)
| ExcludeList (dps : list DataPipe).

(** Lines 51-54: a single datapipe becomes the list of that datapipe. *)
Definition exclude_list (exclude_dps : exclude_arg) : list DataPipe :=
  match exclude_dps with
  | ExcludeNone => []
  | ExcludeOne dp => [dp]
  | ExcludeList dps => dps
  end.

(** Lines 55-61, one round of the loop.  The inner call
    [list_dps(traverse_dps(exclude_dp))] has no exclusion of its own: it is
    [list_dps_from ∅]. *)
Definition exclude_one (h : heap) (cache : gset nat) (exclude_dp : DataPipe) : gset nat :=
  if bool_decide (py_id exclude_dp ∈ cache) then cache
  else foldl (fun cache dp => {[py_id dp]} ∪ cache) cache
         (list_dps_from ∅ (traverse_dps h exclude_dp)).

(** Lines 50-61. *)
Definition exclude_cache (h : heap) (exclude_dps : exclude_arg) : gset nat :=
  foldl (exclude_one h) ∅ (exclude_list exclude_dps).

(** The items of the graphs of the excluded datapipes. *)
Definition excluded_entries (h : heap) (dps : list DataPipe) : list entry :=
  flat_map (fun dp => graph_entries (traverse_dps h dp)) dps.

Definition list_dps (h : heap) (graph : DataPipeGraph) (exclude_dps : exclude_arg)
  : list DataPipe :=
  list_dps_from (exclude_cache h exclude_dps) graph.

(** *** [_assign_attr], [_replace_dp], [replace_dp] *)

Inductive error : Type :=
| AssertionError
| KeyError
| IndexError.

(** A call returns or raises.  The state a raised exception leaves behind
    is not followed. *)
Inductive result (A : Type) : Type :=
| Ok (a : A)
| Err (e : error).
Arguments Ok {A} a.
Arguments Err {A} e.

Section rewrite.
Context (old_dp new_dp : DataPipe).

(** [obj.remove(old_dp); obj.add(new_dp)] on a set given by its elements:
    [remove] raises [KeyError] when [old_dp] is not an element, [add] leaves a
    set that has [new_dp] as it is. *)
Definition set_remove_add (l : list value) : result (list value) :=
  if existsb (fun o => is_ o old_dp) l then
    let l1 := List.filter (fun o => negb (is_ o old_dp)) l in
    Ok (if existsb (fun o => is_ o new_dp) l1 then l1 else l1 ++ [VPipe new_dp])
  else Err KeyError.

(** [_assign_attr(obj, old_dp, new_dp)] with the default [inner_dp=False]:
    no datapipe is entered, so the heap is neither read nor written.  The
    result is [obj] after the assignments made into it and into the
    containers below it, and the value returned ([None] is Python's [None]). *)
Fixpoint assign0 (obj : value) : result (value * option value) :=
  if is_ obj old_dp then Ok (obj, Some (VPipe new_dp))
  else
    match obj with
    | VPipe _ => Ok (obj, None)
    | VDict d =>
        match
          (fix loop (d : list (string * value)) : result (list (string * value)) :=
             match d with
             | [] => Ok []
             | (k, v) :: rest =>
                 match assign0 v with
                 | Err e => Err e
                 | Ok (_, Some new_obj) => Ok ((k, new_obj) :: rest)
                 | Ok (v', None) =>
                     match loop rest with
                     | Err e => Err e
                     | Ok rest' => Ok ((k, v') :: rest')
                     end
                 end
             end) d
        with
        | Err e => Err e
        | Ok d' => Ok (VDict d', None)
        end
    | VTuple l =>
        match
          (fix loop (l : list value) : result (list value * list value * bool) :=
             match l with
             | [] => Ok ([], [], false)
             | o :: rest =>
                 match assign0 o with
                 | Err e => Err e
                 | Ok (o', new_obj) =>
                     match loop rest with
                     | Err e => Err e
                     | Ok (rest', temp_list, flag) =>
                         match new_obj with
                         | Some _ => Ok (o' :: rest', VPipe new_dp :: temp_list, true)
                         | None => Ok (o' :: rest', o' :: temp_list, flag)
                         end
                     end
                 end
             end) l
        with
        | Err e => Err e
        | Ok (l', temp_list, flag) =>
            Ok (VTuple l', if flag then Some (VTuple temp_list) else None)
        end
    | VList l =>
        match
          (fix loop (l : list value) : result (list value) :=
             match l with
             | [] => Ok []
             | o :: rest =>
                 match assign0 o with
                 | Err e => Err e
                 | Ok (_, Some new_obj) => Ok (new_obj :: rest)
                 | Ok (o', None) =>
                     match loop rest with
                     | Err e => Err e
                     | Ok rest' => Ok (o' :: rest')
                     end
                 end
             end) l
        with
        | Err e => Err e
        | Ok l' => Ok (VList l', None)
        end
    | VSet l =>
        match
          (fix loop (l : list value) : result (list value * bool) :=
             match l with
             | [] => Ok ([], false)
             | o :: rest =>
                 match assign0 o with
                 | Err e => Err e
                 | Ok (o', Some _) => Ok (o' :: rest, true)
                 | Ok (o', None) =>
                     match loop rest with
                     | Err e => Err e
                     | Ok (rest', found) => Ok (o' :: rest', found)
                     end
                 end
             end) l
        with
        | Err e => Err e
        | Ok (l', true) =>
            match set_remove_add l' with
            | Err e => Err e
            | Ok l'' => Ok (VSet l'', None)
            end
        | Ok (l', false) => Ok (VSet l', None)
        end
    | VOther _ => Ok (obj, None)
    end.

(** The loop over [obj.__dict__] (lines 169-173) and over a [dict]
    (lines 176-180): the calls inside have the default [inner_dp=False]. *)
Fixpoint assign_items (d : list (string * value)) : result (list (string * value)) :=
  match d with
  | [] => Ok []
  | (k, v) :: rest =>
      match assign0 v with
      | Err e => Err e
      | Ok (_, Some new_obj) => Ok ((k, new_obj) :: rest)
      | Ok (v', None) =>
          match assign_items rest with
          | Err e => Err e
          | Ok rest' => Ok ((k, v') :: rest')
          end
      end
  end.

(** [_assign_attr(obj, old_dp, new_dp, inner_dp)], lines 162-215.  With
    [inner_dp] a datapipe is entered and its [__dict__] assigned in the heap;
    the calls on the attributes and on the values of a [dict] do not pass
    [inner_dp] on, those on the elements of a tuple, a list and a set do. *)
Fixpoint _assign_attr (h : heap) (obj : value) (inner_dp : bool)
  : result (heap * value * option value) :=
  if is_ obj old_dp then Ok (h, obj, Some (VPipe new_dp))
  else
    match obj with
    | VPipe dp =>
        if negb inner_dp then Ok (h, obj, None)
        else
          match h !! py_id dp with
          | None => Ok (h, obj, None)
          | Some d =>
              match assign_items d with
              | Err e => Err e
              | Ok d' => Ok (<[py_id dp := d']> h, obj, None)
              end
          end
    | VDict d =>
        match assign_items d with
        | Err e => Err e
        | Ok d' => Ok (h, VDict d', None)
        end
    | VTuple l =>
        match
          (fix loop (h : heap) (l : list value)
             : result (heap * list value * list value * bool) :=
             match l with
             | [] => Ok (h, [], [], false)
             | o :: rest =>
                 match _assign_attr h o inner_dp with
                 | Err e => Err e
                 | Ok (h1, o', new_obj) =>
                     match loop h1 rest with
                     | Err e => Err e
                     | Ok (h2, rest', temp_list, flag) =>
                         match new_obj with
                         | Some _ =>
                             Ok (h2, o' :: rest', VPipe new_dp :: temp_list, true)
                         | None => Ok (h2, o' :: rest', o' :: temp_list, flag)
                         end
                     end
                 end
             end) h l
        with
        | Err e => Err e
        | Ok (h', l', temp_list, flag) =>
            Ok (h', VTuple l', if flag then Some (VTuple temp_list) else None)
        end
    | VList l =>
        match
          (fix loop (h : heap) (l : list value) : result (heap * list value) :=
             match l with
             | [] => Ok (h, [])
             | o :: rest =>
                 match _assign_attr h o inner_dp with
                 | Err e => Err e
                 | Ok (h1, _, Some new_obj) => Ok (h1, new_obj :: rest)
                 | Ok (h1, o', None) =>
                     match loop h1 rest with
                     | Err e => Err e
                     | Ok (h2, rest') => Ok (h2, o' :: rest')
                     end
                 end
             end) h l
        with
        | Err e => Err e
        | Ok (h', l') => Ok (h', VList l', None)
        end
    | VSet l =>
        match
          (fix loop (h : heap) (l : list value) : result (heap * list value * bool) :=
             match l with
             | [] => Ok (h, [], false)
             | o :: rest =>
                 match _assign_attr h o inner_dp with
                 | Err e => Err e
                 | Ok (h1, o', Some _) => Ok (h1, o' :: rest, true)
                 | Ok (h1, o', None) =>
                     match loop h1 rest with
                     | Err e => Err e
                     | Ok (h2, rest', found) => Ok (h2, o' :: rest', found)
                     end
                 end
             end) h l
        with
        | Err e => Err e
        | Ok (h', l', true) =>
            match set_remove_add l' with
            | Err e => Err e
            | Ok l'' => Ok (h', VSet l'', None)
            end
        | Ok (h', l', false) => Ok (h', VSet l', None)
        end
    | VOther _ => Ok (h, obj, None)
    end.

(** What the spec says of the containers, for a container whose elements
    are datapipes or values that are not containers: the first occurrence of
    [old_dp] is overwritten ([replace_first]), or every occurrence is
    ([replace_all]). *)
Definition is_leaf (v : value) : bool :=
  match v with
  | VPipe _ | VOther _ => true
  | _ => false
  end.

Fixpoint replace_first (l : list value) : list value :=
  match l with
  | [] => []
  | o :: rest => if is_ o old_dp then VPipe new_dp :: rest else o :: replace_first rest
  end.

Fixpoint replace_first_item (d : list (string * value)) : list (string * value) :=
  match d with
  | [] => []
  | (k, v) :: rest =>
      if is_ v old_dp then (k, VPipe new_dp) :: rest else (k, v) :: replace_first_item rest
  end.

Definition replace_all (l : list value) : list value :=
  map (fun o => if is_ o old_dp then VPipe new_dp else o) l.

(** The number of references to a datapipe in a value, not counting those
    inside other datapipes. *)
Fixpoint occurrences (dp : DataPipe) (v : value) : nat :=
  match v with
  | VPipe _ => if is_ v dp then 1 else 0
  | VDict d => list_sum (map (fun kv => occurrences dp kv.2) d)
  | VTuple l | VList l | VSet l => list_sum (map (occurrences dp) l)
  | VOther _ => 0
  end.

(** [_replace_dp], lines 132-139.  The value [_assign_attr] returns is
    dropped. *)
Fixpoint _replace_dp (h : heap) (recv_dp : DataPipe) (send_graph : DataPipeGraph)
  : result heap :=
  match send_graph with
  | Graph l =>
      (fix loop (l : list (nat * (DataPipe * DataPipeGraph))) (h : heap)
         : result heap :=
         match l with
         | [] => Ok h
         | (send_id, (send_dp, sub_send_graph)) :: rest =>
             if bool_decide (send_id = py_id old_dp) then
               match _assign_attr h (VPipe recv_dp) true with
               | Err e => Err e
               | Ok (h', _, _) => loop rest h'
               end
             else
               match _replace_dp h send_dp sub_send_graph with
               | Err e => Err e
               | Ok h' => loop rest h'
               end
         end) l h
  end.

(** The loop of [replace_dp] at lines 94-95. *)
Fixpoint replace_values (h : heap) (l : list (nat * (DataPipe * DataPipeGraph)))
  : result heap :=
  match l with
  | [] => Ok h
  | (_, (recv_dp, send_graph)) :: rest =>
      match _replace_dp h recv_dp send_graph with
      | Err e => Err e
      | Ok h' => replace_values h' rest
      end
  end.

(** [replace_dp], lines 82-97. *)
Definition replace_dp (h : heap) (graph : DataPipeGraph)
  : result (heap * DataPipeGraph) :=
  if negb (bool_decide (length (items graph) = 1%nat)) then Err AssertionError
  else
    let graph :=
      if bool_decide (py_id old_dp ∈ (items graph).*1)
      then traverse_dps h new_dp else graph in
    match items graph with
    | [] => Err IndexError
    | (_, (final_datapipe, _)) :: _ =>
        match replace_values h (items graph) with
        | Err e => Err e
        | Ok h' => Ok (h', traverse_dps h' final_datapipe)
        end
    end.

End rewrite.

(** The two statements of the spec on [_assign_attr], for a [new_dp] that
    does not occur in [obj] beforehand, so that its occurrences afterwards
    are the substitutions made: at most one substitution per call, and a
    tuple rebuilt only when exactly one element changed. *)
Definition at_most_one_substitution : Prop :=
  ∀ (old_dp new_dp : DataPipe) (h : heap) (obj : value) (inner_dp : bool)
    (h' : heap) (obj' : value) (r : option value),
    occurrences new_dp obj = 0%nat ->
    _assign_attr old_dp new_dp h obj inner_dp = Ok (h', obj', r) ->
    (occurrences new_dp (default obj' r) <= 1)%nat.

Definition tuple_rebuilt_on_one_change : Prop :=
  ∀ (old_dp new_dp : DataPipe) (h : heap) (l : list value) (inner_dp : bool)
    (h' : heap) (obj' : value) (l' : list value),
    occurrences new_dp (VTuple l) = 0%nat ->
    _assign_attr old_dp new_dp h (VTuple l) inner_dp = Ok (h', obj', Some (VTuple l')) ->
    occurrences new_dp (VTuple l') = 1%nat.

(** *** The round trip of [replace_dp] *)

(** The same graph up to the identities: the graph [g] with every identity
    [x] renamed to [f x]. *)
Fixpoint rename (f : nat -> nat) (g : DataPipeGraph) : DataPipeGraph :=
  match g with
  | Graph l =>
      Graph (map (fun kv => (f kv.1, (Pipe (f (py_id kv.2.1)) (py_type kv.2.1),
                                      rename f kv.2.2))) l)
  end.

Definition isomorphic (g1 g2 : DataPipeGraph) : Prop :=
  ∃ f : nat -> nat, Inj (=) (=) f ∧ rename f g1 = g2.

(** The round trip as the spec states it, for every pipe [old_dp] of the
    graph and every [new_dp]. *)
Definition replace_round_trip : Prop :=
  ∀ (h : heap) (P old_dp new_dp : DataPipe) (h1 h2 : heap) (G1 G2 : DataPipeGraph),
    old_dp ∈ graph_pipes (traverse_dps h P) ->
    replace_dp old_dp new_dp h (traverse_dps h P) = Ok (h1, G1) ->
    replace_dp new_dp old_dp h1 G1 = Ok (h2, G2) ->
    isomorphic G2 (traverse_dps h P).

(** The receivers on which [_replace_dp] calls [_assign_attr], in order, for
    the target identity [target]. *)
Fixpoint walk_calls (target : nat) (recv_dp : DataPipe) (send_graph : DataPipeGraph)
  : list DataPipe :=
  match send_graph with
  | Graph l =>
      flat_map (fun kv => if bool_decide (kv.1 = target) then [recv_dp]
                          else walk_calls target kv.2.1 kv.2.2) l
  end.

(** [_assign_attr(recv_dp, old_dp, new_dp, inner_dp=True)] on each of a list
    of receivers in turn. *)
Fixpoint assign_all (old_dp new_dp : DataPipe) (l : list DataPipe) (h : heap)
  : result heap :=
  match l with
  | [] => Ok h
  | recv_dp :: rest =>
      match _assign_attr old_dp new_dp h (VPipe recv_dp) true with
      | Err e => Err e
      | Ok (h', _, _) => assign_all old_dp new_dp rest h'
      end
  end.

(** A reference to [old_dp] becomes a reference to [new_dp]. *)
Definition ren (old_dp new_dp : DataPipe) (dp : DataPipe) : DataPipe :=
  if bool_decide (py_id dp = py_id old_dp) then new_dp else dp.

(** No attribute of the datapipe refers to [dp]. *)
Definition no_ref (dp : DataPipe) (d : list (string * value)) : bool :=
  forallb (fun kv => bool_decide (occurrences dp kv.2 = 0%nat)) d.

(** Every reference to [old_dp] in a value replaced by one to [new_dp],
    without looking inside datapipes. *)
Fixpoint subst (old_dp new_dp : DataPipe) (v : value) : value :=
  match v with
  | VPipe _ => if is_ v old_dp then VPipe new_dp else v
  | VDict d => VDict (map (fun kv => (kv.1, subst old_dp new_dp kv.2)) d)
  | VTuple l => VTuple (map (subst old_dp new_dp) l)
  | VList l => VList (map (subst old_dp new_dp) l)
  | VSet l => VSet (map (subst old_dp new_dp) l)
  | VOther _ => v
  end.

Definition subst_items (old_dp new_dp : DataPipe) (d : list (string * value))
  : list (string * value) :=
  map (fun kv => (kv.1, subst old_dp new_dp kv.2)) d.

(** The ways an attribute holds a datapipe that one call of [_assign_attr]
    rewrites in full: as its value, in a tuple of datapipes and values that
    are not containers, or once in a list or a [dict] of them. *)
Definition one_step (dp : DataPipe) (v : value) : bool :=
  match v with
  | VPipe _ => true
  | VTuple l => forallb is_leaf l
  | VList l => forallb is_leaf l && bool_decide (occurrences dp v = 1%nat)
  | VDict d => forallb is_leaf d.*2 && bool_decide (occurrences dp v = 1%nat)
  | VSet _ | VOther _ => false
  end.

(** The references with the identity of [dp] are references to [dp]. *)
Definition same_pipes (dp : DataPipe) (v : value) : bool :=
  forallb (fun c => bool_decide (py_id c = py_id dp -> c = dp)) (pipes_in v).

(** The datapipe refers to [dp] in one attribute at most, and there in one of
    the ways of [one_step]: the way a mapper holds its source datapipe and a
    zipper its tuple of source datapipes. *)
Fixpoint simple_ref (dp : DataPipe) (d : list (string * value)) : bool :=
  match d with
  | [] => true
  | (_, v) :: rest =>
      if bool_decide (occurrences dp v = 0%nat) then simple_ref dp rest
      else one_step dp v && same_pipes dp v && no_ref dp rest
  end.

(** *** A pipeline to try the functions on

    [zipped = source.map(f).zip(source.map(g))]: the source is reached along
    two paths.  [Batcher] stands for a pipe outside the pipeline, and
    [ShardedMapper] for a class derived from the mapper's. *)
Definition IterDataPipe_ : pyclass := Class "IterDataPipe" None.
Definition IterableWrapper : pyclass := Class "IterableWrapperIterDataPipe" (Some IterDataPipe_).
Definition Mapper : pyclass := Class "MapperIterDataPipe" (Some IterDataPipe_).
Definition ShardedMapper : pyclass := Class "ShardedMapperIterDataPipe" (Some Mapper).
Definition Zipper : pyclass := Class "ZipperIterDataPipe" (Some IterDataPipe_).
Definition Batcher : pyclass := Class "BatcherIterDataPipe" (Some IterDataPipe_).

Definition source : DataPipe := Pipe 1 IterableWrapper.
Definition mapped_f : DataPipe := Pipe 2 Mapper.
Definition mapped_g : DataPipe := Pipe 3 ShardedMapper.
Definition zipped : DataPipe := Pipe 4 Zipper.
Definition other : DataPipe := Pipe 5 IterableWrapper.
Definition batched : DataPipe := Pipe 6 Batcher.

Definition pipeline : heap :=
  <[1%nat := [("iterable", VOther "range(5)")]]>
  (<[2%nat := [("datapipe", VPipe source); ("fn", VOther "f")]]>
  (<[3%nat := [("datapipe", VPipe source); ("fn", VOther "g")]]>
  (<[4%nat := [("datapipes", VTuple [VPipe mapped_f; VPipe mapped_g])]]>
  (<[5%nat := [("iterable", VOther "range(7)")]]>
  (<[6%nat := [("datapipe", VPipe zipped); ("batch_size", VOther "2")]]> ∅))))).

End GraphUtils.

(* --------------------------------------------------------------------- *)
(** ** [UnZipperIterDataPipe] ([unzip])                                   *)
(* --------------------------------------------------------------------- *)

Module UnZipper.

(** [seq[i]] on a tuple or a list: a negative index counts from the end;
    [None] stands for the [IndexError] of an index out of range. *)
Definition py_getitem {B : Type} (l : list B) (i : Z) : option B :=
  if bool_decide (0 <= i) then l !! Z.to_nat i
  else if bool_decide (- Z.of_nat (length l) <= i)
       then l !! Z.to_nat (Z.of_nat (length l) + i)
       else None.

(** [list(range(n))] *)
Definition range (n : Z) : list Z := map Z.of_nat (seq 0 (Z.to_nat n)).

(** [instance_ids] as [__new__] computes it, lines 340-344;
    [columns_to_skip] is read through [set(columns_to_skip)]. *)
Definition instance_ids (sequence_length : Z) (columns_to_skip : option (list Z))
  : list Z :=
  match columns_to_skip with
  | None => range sequence_length
  | Some skips => filter (fun i => i ∉ skips) (range sequence_length)
  end.

(** [_ChildDataPipe(container, i)], where [container] is the
    [_UnZipperIterDataPipe] that holds [instance_ids]. *)
Record child : Type := Child {
  container_instance_ids : list Z;
  instance_id : Z
}.

(** [UnZipperIterDataPipe.__new__], lines 333-354: [None] stands for the
    [RuntimeError] raised when no column is left. *)
Definition __new__ (sequence_length : Z) (columns_to_skip : option (list Z))
  : option (list child) :=
  let instance_ids := instance_ids sequence_length columns_to_skip in
  if bool_decide (length instance_ids = 0%nat) then None
  else Some (map (Child instance_ids) (range (Z.of_nat (length instance_ids)))).

Inductive exn : Type :=
| IndexError.

Section model.
Context {A : Type}.

(** [_UnZipperIterDataPipe.get_next_element_by_instance], lines 362-369, run
    against a consumer that takes [S more] items.  [super_items] are the
    items the generator of the forker ([super()], not part of the sources)
    yields for this instance until it returns. *)
Fixpoint get_next_element_by_instance (self_instance_ids : list Z) (instance_id : Z)
    (super_items : list (list A)) (more : nat) : list A * ending exn :=
  match super_items with
  | [] => ([], Exhausted)
  | return_val :: rest =>
      match py_getitem self_instance_ids instance_id with
      | None => ([], Raised IndexError)
      | Some column =>
          match py_getitem return_val column with
          | None => ([], Raised IndexError)
          | Some x =>
              match more with
              | O => ([x], Closed)
              | S more' =>
                  let '(ys, e) :=
                    get_next_element_by_instance self_instance_ids instance_id
                      rest more' in
                  (x :: ys, e)
              end
          end
      end
  end.

(** What a child yields when it is read to the end. *)
Definition child_list (c : child) (super_items : list (list A)) : list A * ending exn :=
  get_next_element_by_instance (container_instance_ids c) (instance_id c)
    super_items (length super_items).

End model.

End UnZipper.

(* --------------------------------------------------------------------- *)
(** ** [IterKeyZipperIterDataPipe]: pickling and finalisation             *)
(* --------------------------------------------------------------------- *)

Module IterKeyZipperState.
Import IterKeyZipper.

Section model.
Context {Data Ref Key Merged : Type} `{!EqDecision Key}.

(** The tuple [state] of [__getstate__] (lines 132-140) and [__setstate__]
    (lines 146-154), in the order of its components. *)
Record state : Type := State {
  state_source_datapipe : list Data;
  state_ref_datapipe : list Ref;
  state_key_fn : Data -> Key;
  state_ref_key_fn : Ref -> Key;
  state_keep_key : bool;
  state_merge_fn : option (Data -> Ref -> Merged);
  state_buffer_size : option Z
}.

(** [__getstate__], lines 131-143.  [getstate_hook] is the class attribute
    [IterDataPipe.getstate_hook]; what a hook returns is the hook's own. *)
Definition __getstate__ {R : Type} (getstate_hook : option (state -> R))
    (self : t Data Ref Key Merged) : state + R :=
  let state :=
    State (source_datapipe self) (ref_datapipe self) (key_fn self) (ref_key_fn self)
      (keep_key self) (merge_fn self) (buffer_size self) in
  match getstate_hook with
  | Some hook => inr (hook state)
  | None => inl state
  end.

(** [__setstate__], lines 145-155: every attribute of [self] is assigned. *)
Definition __setstate__ (self : t Data Ref Key Merged) (state : state)
  : t Data Ref Key Merged :=
  Build (state_source_datapipe state) (state_ref_datapipe state) (state_key_fn state)
    (state_ref_key_fn state) (state_keep_key state) (state_buffer_size state)
    (state_merge_fn state) [].

(** [__del__], lines 157-161. *)
Definition __del__ (self : t Data Ref Key Merged)
  : t Data Ref Key Merged * list (event Data Ref Key Merged) :=
  match buffer self with
  | [] => (self, [])
  | _ :: _ => (set_buffer self [], map (fun kv => Janitor (snd kv)) (buffer self))
  end.

(** The first item of the reference datapipe with a given key. *)
Definition find_ref (self : t Data Ref Key Merged) (key : Key) : option Ref :=
  List.find (fun r => bool_decide (ref_key_fn self r = key)) (ref_datapipe self).

End model.

Arguments state : clear implicits.

End IterKeyZipperState.

(* --------------------------------------------------------------------- *)
(** ** [remove_dp] and [_remove_dp]                                       *)
(* --------------------------------------------------------------------- *)

Module GraphRemove.
Import GraphUtils.

Local Abbreviation heap := (gmap nat (list (string * value))).

(** What [remove_dp] raises: the two [RuntimeError]s of lines 112-115, or
    an exception of the functions it calls. *)
Inductive remove_error : Type :=
| RuntimeError_source
| RuntimeError_multiple
| Raised (e : error).

Inductive outcome (A : Type) : Type :=
| Done (a : A)
| Fails (e : remove_error).
Arguments Done {A} a.
Arguments Fails {A} e.

(** [graph[dp_id]]; [None] stands for the [KeyError] of a missing key. *)
Definition graph_getitem (graph : DataPipeGraph) (dp_id : nat)
  : option (DataPipe * DataPipeGraph) :=
  snd <$> List.find (fun kv => bool_decide (kv.1 = dp_id)) (items graph).

(** [_remove_dp], lines 144-157.  The value [_assign_attr] returns is
    dropped; [list(sub_send_graph.values())[0]] raises [IndexError] on an
    empty subgraph. *)
Fixpoint _remove_dp (datapipe : DataPipe) (h : heap) (recv_dp : DataPipe)
    (send_graph : DataPipeGraph) : result heap :=
  match send_graph with
  | Graph l =>
      (fix loop (l : list (nat * (DataPipe * DataPipeGraph))) (h : heap)
         : result heap :=
         match l with
         | [] => Ok h
         | (send_dp_id, (send_dp, sub_send_graph)) :: rest =>
             if bool_decide (send_dp_id = py_id datapipe) then
               match items sub_send_graph with
               | [] => Err IndexError
               | (_, (src_dp, _)) :: _ =>
                   match _assign_attr send_dp src_dp h (VPipe recv_dp) true with
                   | Err e => Err e
                   | Ok (h', _, _) => loop rest h'
                   end
               end
             else
               match _remove_dp datapipe h send_dp sub_send_graph with
               | Err e => Err e
               | Ok h' => loop rest h'
               end
         end) l h
  end.

(** The loop of [remove_dp] at lines 120-121. *)
Fixpoint remove_values (datapipe : DataPipe) (h : heap)
    (l : list (nat * (DataPipe * DataPipeGraph))) : result heap :=
  match l with
  | [] => Ok h
  | (_, (recv_dp, send_graph)) :: rest =>
      match _remove_dp datapipe h recv_dp send_graph with
      | Err e => Err e
      | Ok h' => remove_values datapipe h' rest
      end
  end.

(** [remove_dp], lines 100-127. *)
Definition remove_dp (h : heap) (graph : DataPipeGraph) (datapipe : DataPipe)
  : outcome (heap * DataPipeGraph) :=
  if negb (bool_decide (length (items graph) = 1%nat)) then Fails (Raised AssertionError)
  else
    let dp_graph := traverse_dps h datapipe in
    let dp_id := py_id datapipe in
    match graph_getitem dp_graph dp_id with
    | None => Fails (Raised KeyError)
    | Some (_, dp_sub) =>
        if bool_decide (length (items dp_sub) = 0%nat) then Fails RuntimeError_source
        else if bool_decide (1 < length (items dp_sub))%nat then Fails RuntimeError_multiple
        else
          let graph :=
            match graph_getitem graph dp_id with
            | Some (_, sub) => sub
            | None => graph
            end in
          match remove_values datapipe h (items graph) with
          | Err e => Fails (Raised e)
          | Ok h' =>
              if negb (bool_decide (length (items graph) = 1%nat))
              then Fails (Raised AssertionError)
              else
                match items graph with
                | [] => Fails (Raised IndexError)
                | (_, (datapipe, _)) :: _ => Done (h', traverse_dps h' datapipe)
                end
          end
    end.

(** Wherever [datapipe] is a key of the graph, the item holds [datapipe]
    and the subgraph of the item starts with [src_dp]. *)
Fixpoint sends_from (datapipe src_dp : DataPipe) (g : DataPipeGraph) : bool :=
  match g with
  | Graph l =>
      forallb (fun kv =>
                 if bool_decide (kv.1 = py_id datapipe) then
                   bool_decide (kv.2.1 = datapipe)
                   && match items kv.2.2 with
                      | (_, (s, _)) :: _ => bool_decide (s = src_dp)
                      | [] => false
                      end
                 else sends_from datapipe src_dp kv.2.2) l
  end.

(** The outcome of [replace_dp], for comparison. *)
Definition of_result {A : Type} (r : result A) : outcome A :=
  match r with
  | Ok a => Done a
  | Err e => Fails (Raised e)
  end.

End GraphRemove.

(* --------------------------------------------------------------------- *)
(** ** Tuples in tuples                                                   *)
(* --------------------------------------------------------------------- *)

Module NestedTuples.
Import GraphUtils.

(** A datapipe, a value that is not a container, or a tuple of such values
    at any depth: what a tuple that can be an element of a set is made of. *)
Fixpoint tuple_tree (v : value) : bool :=
  match v with
  | VPipe _ | VOther _ => true
  | VTuple l => forallb tuple_tree l
  | VDict _ | VList _ | VSet _ => false
  end.

(** The value refers to the datapipe, at any depth. *)
Definition holds (dp : DataPipe) (v : value) : bool :=
  negb (bool_decide (occurrences dp v = 0%nat)).

(** The elements of a tuple with every element that refers to [old_dp]
    replaced by [new_dp]. *)
Definition collapse (old_dp new_dp : DataPipe) (l : list value) : list value :=
  map (fun o => if holds old_dp o then VPipe new_dp else o) l.

End NestedTuples.

(* ===================================================================== *)
(** * Part II.  Properties                                                *)
(* ===================================================================== *)

(* --------------------------------------------------------------------- *)
(** ** The round-robin splitter                                           *)
(* --------------------------------------------------------------------- *)

Module RoundRobinFacts.
Import RoundRobin.

Lemma enumerate_snoc {A} (l : list A) (x : A) :
  enumerate (l ++ [x]) = enumerate l ++ [(Z.of_nat (length l), x)].
Proof.
  unfold enumerate. rewrite imap_app. simpl.
  by rewrite Nat.add_0_r.
Qed.

Lemma enumerate_length {A} (l : list A) : length (enumerate l) = length l.
Proof. unfold enumerate. by rewrite length_imap. Qed.

Lemma get_length_analytic (n N i : Z) :
  N ≠ 0 -> get_length_by_instance n N i = analytic_length n N i.
Proof.
  intros HN. unfold get_length_by_instance, analytic_length.
  assert (n - n / N * N = n mod N) as -> by (rewrite Z.mod_eq by done; lia).
  repeat case_bool_decide; lia.
Qed.

Lemma analytic_length_succ (n N i : Z) :
  0 <= n -> 0 <= i < N ->
  analytic_length (n + 1) N i =
  analytic_length n N i + (if bool_decide (n mod N = i) then 1 else 0).
Proof.
  intros Hn Hi. unfold analytic_length.
  assert (0 < N) as HN by lia.
  pose proof (Z.mod_pos_bound n N HN) as Hr.
  pose proof (Z.div_mod n N ltac:(lia)) as Hdm.
  destruct (decide (n mod N + 1 < N)) as [Hlt|Hge].
  - assert ((n + 1) / N = n / N) as Hq.
    { symmetry. apply (Z.div_unique (n + 1) N (n / N) (n mod N + 1)); lia. }
    assert ((n + 1) mod N = n mod N + 1) as Hm.
    { symmetry. apply (Z.mod_unique (n + 1) N (n / N) (n mod N + 1)); lia. }
    rewrite Hq, Hm. repeat case_bool_decide; lia.
  - assert ((n + 1) / N = n / N + 1) as Hq.
    { symmetry. apply (Z.div_unique (n + 1) N (n / N + 1) 0); lia. }
    assert ((n + 1) mod N = 0) as Hm.
    { symmetry. apply (Z.mod_unique (n + 1) N (n / N + 1) 0); lia. }
    rewrite Hq, Hm. repeat case_bool_decide; lia.
Qed.

Lemma child_items_length {A} (datapipe : list A) (N i : Z) :
  0 <= i < N ->
  Z.of_nat (length (child_items (_round_robin_fn N) (enumerate datapipe) i)) =
  analytic_length (Z.of_nat (length datapipe)) N i.
Proof.
  intros Hi. induction datapipe as [|x l IH] using rev_ind.
  - simpl. unfold analytic_length. rewrite Z.div_0_l, Z.mod_0_l by lia.
    case_bool_decide; lia.
  - rewrite enumerate_snoc. unfold child_items in *.
    rewrite filter_app, !length_app, Nat2Z.inj_add, IH. simpl length.
    rewrite Nat2Z.inj_add. change (Z.of_nat 1) with 1.
    rewrite analytic_length_succ by lia.
    f_equal. rewrite filter_cons, filter_nil. simpl.
    case_decide; case_bool_decide; simpl; try lia; done.
Qed.

(** C8.  With [n = len(main_datapipe)] and [N = num_instances >= 1], the
    length reported for branch [i] is [n // N], plus one when [i < n mod N];
    it is computed from [n] alone and it is the number of items the branch
    yields.  On [range(5)] with two branches, branch 0 yields [0, 2, 4] with
    length 3 and branch 1 yields [1, 3] with length 2. *)
Theorem round_robin_lengths {A} (datapipe : list A) (N i : Z) :
  1 <= N -> 0 <= i < N ->
  let n := Z.of_nat (length (enumerate datapipe)) in
  get_length_by_instance n N i
    = n / N + (if bool_decide (i < n mod N) then 1 else 0)
  ∧ get_length_by_instance n N i
    = Z.of_nat (length (map _drop_index
                          (child_items (_round_robin_fn N) (enumerate datapipe) i)))
  ∧ __new__ [0; 1; 2; 3; 4] 2 = Some [Child [0; 2; 4] 3; Child [1; 3] 2].
Proof.
  intros HN Hi n. subst n. rewrite enumerate_length.
  rewrite get_length_analytic by lia. split; [done|]. split; [|done].
  by rewrite length_map, child_items_length.
Qed.

Lemma round_robin_lengths_witness :
  get_length_by_instance (Z.of_nat (length (enumerate [10; 20; 30; 40; 50; 60; 70]))) 3 0
  = 7 / 3 + (if bool_decide (0 < 7 mod 3) then 1 else 0).
Proof.
  exact (proj1 (round_robin_lengths [10; 20; 30; 40; 50; 60; 70] 3 0
                  ltac:(lia) ltac:(lia))).
Defined.

End RoundRobinFacts.

(* --------------------------------------------------------------------- *)
(** ** The lookup stream joiner                                           *)
(* --------------------------------------------------------------------- *)

Module MapKeyZipperFacts.
Import MapKeyZipper.

Section facts.
Context {Data Key MapItem Merged : Type}.
Implicit Types self : t Data Key MapItem Merged.

(** What a run of the loop looks like, whatever is left of the source. *)
Lemma for_source_spec self (src : list Data) (more : nat) :
  let ev := (for_source self src more).1 in
  let e := (for_source self src more).2 in
  let k := length (yielded ev) in
  (k <= S more)%nat
  ∧ Forall2 (fun d x => ∃ v, map_datapipe self (key_fn self d) = Found v
                             ∧ x = output self d v)
      (take k src) (yielded ev)
  ∧ lookups ev = map (key_fn self) (take (length (lookups ev)) src)
  ∧ match e with
    | Exhausted => k = length src ∧ length (lookups ev) = k
    | Closed => k = S more ∧ length (lookups ev) = k
    | Raised (KeyError d key) =>
        src !! k = Some d ∧ key = key_fn self d
        ∧ (∀ v, map_datapipe self key ≠ Found v)
        ∧ length (lookups ev) = S k
        ∧ last ev = Some (GetItem key)
    end.
Proof.
  revert more. induction src as [|d src IH]; intros more; simpl.
  - split; [lia|]. repeat split; try done; try constructor.
  - destruct (map_datapipe self (key_fn self d)) as [v| |] eqn:Hget; simpl.
    + destruct more as [|more]; simpl.
      * split; [lia|]. repeat split; try done.
        constructor; [by eexists|constructor].
      * specialize (IH more).
        destruct (for_source self src more) as [ev e] eqn:Hrun. simpl in *.
        destruct IH as (Hk & Hall & Hlook & He).
        split; [lia|]. split; [constructor; [by eexists|done]|].
        split; [by f_equal|].
        destruct e as [| |[d' key]]; simpl in *.
        -- destruct He; split; by f_equal.
        -- destruct He; split; by f_equal.
        -- destruct He as (? & ? & ? & ? & Hlast). repeat split; try done.
           ++ by f_equal.
           ++ destruct ev; [done|]. done.
    + split; [lia|]. repeat split; try done; try constructor; try congruence.
    + split; [lia|]. repeat split; try done; try constructor; try congruence.
Qed.

End facts.

(** C9.  Run against a consumer that takes [n] items: every item yielded is
    the merge of a primary item with what one lookup of its key returned, in
    the order of the primary stream; the lookups are those of the keys of
    the primary items, one each; the run raises [KeyError] at the first item
    whose key the map does not have, right after that one lookup.  On the
    docstring's example the output is [('a', 101), ('b', 202), ('c', 303)],
    and a key absent from the map raises. *)
Theorem lookup_join {Data Key MapItem Merged : Type}
    (self : t Data Key MapItem Merged) (n : nat) :
  let src := source_iterdatapipe self in
  let ev := (__iter__ self n).1 in
  let e := (__iter__ self n).2 in
  let k := length (yielded ev) in
  (k <= n)%nat
  ∧ Forall2 (fun d x => ∃ v, map_datapipe self (key_fn self d) = Found v
                             ∧ x = output self d v)
      (take k src) (yielded ev)
  ∧ lookups ev = map (key_fn self) (take (length (lookups ev)) src)
  ∧ match e with
    | Exhausted => k = length src ∧ length (lookups ev) = k
    | Closed => k = n ∧ length (lookups ev) = k
    | Raised (KeyError d key) =>
        src !! k = Some d ∧ key = key_fn self d
        ∧ (∀ v, map_datapipe self key ≠ Found v)
        ∧ length (lookups ev) = S k
        ∧ last ev = Some (GetItem key)
    end
  ∧ yielded (__iter__ (example [("a", 1); ("b", 2); ("c", 3)]) 4).1
    = [Res (MergeFn ("a", 101)); Res (MergeFn ("b", 202)); Res (MergeFn ("c", 303))]
  ∧ (__iter__ (example [("a", 1); ("b", 2); ("c", 3)]) 4).2 = Exhausted
  ∧ __iter__ (example [("a", 1); ("z", 2); ("c", 3)]) 4
    = ([GetItem "a"; Yield (Res (MergeFn ("a", 101))); GetItem "z"],
       Raised (KeyError ("z", 2) "z")).
Proof.
  intros src ev e k.
  assert (yielded (__iter__ (example [("a", 1); ("b", 2); ("c", 3)]) 4).1
          = [Res (MergeFn ("a", 101)); Res (MergeFn ("b", 202));
             Res (MergeFn ("c", 303))]) as Hex1 by (vm_compute; reflexivity).
  assert ((__iter__ (example [("a", 1); ("b", 2); ("c", 3)]) 4).2 = Exhausted)
    as Hex2 by (vm_compute; reflexivity).
  assert (__iter__ (example [("a", 1); ("z", 2); ("c", 3)]) 4
          = ([GetItem "a"; Yield (Res (MergeFn ("a", 101))); GetItem "z"],
             Raised (KeyError ("z", 2) "z"))) as Hex3 by (vm_compute; reflexivity).
  subst src ev e k. destruct n as [|more].
  - simpl. repeat split; try done; try constructor.
  - pose proof (for_source_spec self (source_iterdatapipe self) more) as H.
    simpl in H. simpl. destruct H as (H1 & H2 & H3 & H4).
    repeat split; try done.
Qed.

End MapKeyZipperFacts.

(* --------------------------------------------------------------------- *)
(** ** The keyed stream joiner                                            *)
(* --------------------------------------------------------------------- *)

Module IterKeyZipperFacts.
Import IterKeyZipper.

Section facts.
Context {Data Ref Key Merged : Type} `{!EqDecision Key}.
Implicit Types self : t Data Ref Key Merged.
Implicit Types buf : list (Key * Ref).
Implicit Types fr : frame Ref Key.

Lemma od_contains_true k buf : od_contains k buf = true ↔ k ∈ buf.*1.
Proof. unfold od_contains. by rewrite bool_decide_eq_true. Qed.

Lemma od_contains_false k buf : od_contains k buf = false ↔ k ∉ buf.*1.
Proof. unfold od_contains. by rewrite bool_decide_eq_false. Qed.

Lemma od_setitem_fresh k v buf : k ∉ buf.*1 -> od_setitem k v buf = buf ++ [(k, v)].
Proof.
  induction buf as [|[k' v'] buf IH]; simpl; [done|].
  intros Hk. rewrite not_elem_of_cons in Hk. destruct Hk as [Hne Hk].
  case_decide; [done|]. by rewrite IH.
Qed.

Lemma od_pop_Some k buf v buf' :
  od_pop k buf = Some (v, buf') ->
  (k, v) ∈ buf ∧ buf' ⊆ buf ∧ length buf = S (length buf').
Proof.
  revert buf'. induction buf as [|[k' v'] buf IH]; simpl; [done|]. intros buf'.
  case_decide as Hk.
  - intros [= -> ->]. subst. split; [left|]. split; [set_solver|done].
  - destruct (od_pop k buf) as [[r d'']|] eqn:Hpop; [|done].
    intros [= -> <-]. destruct (IH _ eq_refl) as (Hin & Hsub & Hlen).
    split; [by right|]. split; [set_solver|]. simpl. by rewrite Hlen.
Qed.

Lemma od_pop_is_Some k buf : k ∈ buf.*1 -> is_Some (od_pop k buf).
Proof.
  induction buf as [|[k' v'] buf IH]; simpl.
  - by intros ?%elem_of_nil.
  - intros Hk. case_decide; [by eexists|].
    apply elem_of_cons in Hk as [?|Hk]; [done|].
    destruct (IH Hk) as [[r d''] ->]. by eexists.
Qed.

(** *** The loop [while key not in self.buffer] *)

(** The loop only warns, at most once, and not at all once the flag is
    down. *)
Lemma while_events self data key refs flag buf :
  let w := while_not_in_buffer self data key refs flag buf in
  yielded w.1.2 = [] ∧ released w.1.2 = []
  ∧ (warnings w.1.2 + (if warn_once_flag w.1.1 then 1 else 0)
     <= (if flag then 1 else 0))%nat.
Proof.
  revert flag buf. induction refs as [|r refs IH]; intros flag buf; simpl.
  - destruct (od_contains key buf); simpl; destruct flag;
      repeat split; try done; simpl; lia.
  - destruct (od_contains key buf); simpl;
      [destruct flag; repeat split; try done; simpl; lia|].
    destruct (od_contains (ref_key_fn self r) buf); simpl;
      [destruct flag; repeat split; try done; simpl; lia|].
    destruct (over_limit self buf).
    + destruct buf as [|e buf']; simpl.
      * destruct flag; simpl; repeat split; try done; simpl; lia.
      * specialize (IH false (od_setitem (ref_key_fn self r) r buf')).
        destruct (while_not_in_buffer self data key refs false _) as [[fr ev] res].
        simpl in *. destruct IH as (Hy & Hr & Hw).
        unfold yielded, released, warnings, omap in *.
        destruct flag; simpl in *; rewrite ?Hy, ?Hr; repeat split; try done; lia.
    + apply IH.
Qed.

(** When the loop ends without an exception, the key is in the buffer. *)
Lemma while_found self data key refs flag buf :
  let w := while_not_in_buffer self data key refs flag buf in
  w.2 = None -> key ∈ (self_buffer w.1.1).*1.
Proof.
  revert flag buf. induction refs as [|r refs IH]; intros flag buf; simpl.
  - destruct (od_contains key buf) eqn:Hc; simpl; [|done].
    intros _. by apply od_contains_true.
  - destruct (od_contains key buf) eqn:Hc; simpl.
    { intros _. by apply od_contains_true. }
    destruct (od_contains (ref_key_fn self r) buf); simpl; [done|].
    destruct (over_limit self buf).
    + destruct buf as [|e buf']; simpl; [done|].
      specialize (IH false (od_setitem (ref_key_fn self r) r buf')).
      destruct (while_not_in_buffer self data key refs false _) as [[fr ev] res].
      done.
    + apply IH.
Qed.

(** The entries of the buffer come from the buffer before or from the
    reference stream, under their own key; the iterator only advances. *)
Lemma while_entries self data key refs flag buf :
  let w := while_not_in_buffer self data key refs flag buf in
  (∀ k v, (k, v) ∈ self_buffer w.1.1 ->
          (k, v) ∈ buf ∨ (k = ref_key_fn self v ∧ v ∈ refs))
  ∧ ref_it w.1.1 ⊆ refs.
Proof.
  revert flag buf. induction refs as [|r refs IH]; intros flag buf; simpl.
  - destruct (od_contains key buf); simpl; split; auto; set_solver.
  - destruct (od_contains key buf); simpl; [split; auto; set_solver|].
    destruct (od_contains (ref_key_fn self r) buf) eqn:Hdup; simpl;
      [split; auto; set_solver|].
    apply od_contains_false in Hdup.
    destruct (over_limit self buf).
    + destruct buf as [|e buf']; simpl; [split; auto; set_solver|].
      specialize (IH false (od_setitem (ref_key_fn self r) r buf')).
      destruct (while_not_in_buffer self data key refs false _) as [[fr ev] res].
      simpl in *. destruct IH as [IH1 IH2]. split; [|set_solver].
      intros k v Hkv. destruct (IH1 k v Hkv) as [Hin|[-> Hin]].
      * rewrite od_setitem_fresh in Hin by set_solver.
        apply elem_of_app in Hin as [Hin|Hin]; [left; by right|].
        apply list_elem_of_singleton in Hin as [= -> ->]. right. split; [done|left].
      * right. split; [done|by right].
    + specialize (IH flag (od_setitem (ref_key_fn self r) r buf)).
      destruct (while_not_in_buffer self data key refs flag _) as [[fr ev] res].
      simpl in *. destruct IH as [IH1 IH2]. split; [|set_solver].
      intros k v Hkv. destruct (IH1 k v Hkv) as [Hin|[-> Hin]].
      * rewrite od_setitem_fresh in Hin by done.
        apply elem_of_app in Hin as [Hin|Hin]; [by left|].
        apply list_elem_of_singleton in Hin as [= -> ->]. right. split; [done|left].
      * right. split; [done|by right].
Qed.

(** A key that is neither buffered nor ahead in the reference stream is
    never found: the loop ends with an exception. *)
Lemma while_no_match self data key refs flag buf :
  key ∉ buf.*1 -> key ∉ map (ref_key_fn self) refs ->
  is_Some (while_not_in_buffer self data key refs flag buf).2.
Proof.
  intros Hbuf Hrefs.
  destruct ((while_not_in_buffer self data key refs flag buf).2) as [e|] eqn:Hw;
    [by eexists|].
  pose proof (while_found self data key refs flag buf Hw) as Hin.
  apply list_elem_of_fmap in Hin as [[k v] [Hk Hin]]. simpl in Hk. subst k.
  destruct (proj1 (while_entries self data key refs flag buf) _ _ Hin) as [H|[H1 H2]].
  - destruct Hbuf. apply list_elem_of_fmap. by exists (key, v).
  - destruct Hrefs. apply list_elem_of_fmap. by exists v.
Qed.

(** *** The loop [for data in self.source_datapipe] *)

Lemma yielded_app (ev1 ev2 : list (event Data Ref Key Merged)) :
  yielded (ev1 ++ ev2) = yielded ev1 ++ yielded ev2.
Proof. unfold yielded. apply omap_app. Qed.

Lemma released_app (ev1 ev2 : list (event Data Ref Key Merged)) :
  released (ev1 ++ ev2) = released ev1 ++ released ev2.
Proof. unfold released. apply omap_app. Qed.

Lemma released_janitors (l : list (Key * Ref)) :
  released (map (fun kv => Janitor kv.2) l : list (event Data Ref Key Merged)) = l.*2.
Proof. induction l as [|[k v] l IH]; simpl; [done|]. by f_equal. Qed.

Lemma yielded_janitors (l : list (Key * Ref)) :
  yielded (map (fun kv => Janitor kv.2) l : list (event Data Ref Key Merged)) = [].
Proof. induction l as [|[k v] l IH]; simpl; done. Qed.

(** The loop releases nothing: the cleanup hook is only called by the
    [finally] clause. *)
Lemma for_source_released self src more fr :
  released (for_source self src more fr).1.2 = [].
Proof.
  revert more fr. induction src as [|d src IH]; intros more fr; simpl; [done|].
  pose proof (while_events self d (key_fn self d) (ref_it fr) (warn_once_flag fr)
                (self_buffer fr)) as (_ & Hrel & _).
  destruct (while_not_in_buffer self d _ _ _ _) as [[fr1 ev] [e|]]; simpl in *;
    [done|].
  destruct (od_pop _ _) as [[v buf']|]; simpl; [|done].
  destruct more as [|more]; simpl.
  - by rewrite released_app, Hrel.
  - specialize (IH more (Frame (ref_it fr1) (warn_once_flag fr1) buf')).
    destruct (for_source self src more _) as [[fr3 ev'] e]. simpl in *.
    by rewrite released_app, Hrel.
Qed.

(** The items yielded are the items of the source, in its order, each merged
    with an item of the reference stream that has its key. *)
Lemma for_source_order self (R : list Ref) src more fr :
  (∀ k v, (k, v) ∈ self_buffer fr -> k = ref_key_fn self v ∧ v ∈ R) ->
  ref_it fr ⊆ R ->
  let run := for_source self src more fr in
  ∃ vs : list Ref,
    (length vs <= S more)%nat
    ∧ (length vs <= length src)%nat
    ∧ yielded run.1.2 = zip_with (output self) src vs
    ∧ Forall2 (fun d v => ref_key_fn self v = key_fn self d ∧ v ∈ R)
        (take (length vs) src) vs
    ∧ (run.2 = Exhausted -> length vs = length src)
    ∧ (run.2 = Closed -> length vs = S more).
Proof.
  revert more fr. induction src as [|d src IH]; intros more fr Hbuf Hit; simpl.
  { exists []. simpl. repeat split; try done; try lia; try constructor. }
  pose proof (while_events self d (key_fn self d) (ref_it fr) (warn_once_flag fr)
                (self_buffer fr)) as (Hy & _ & _).
  pose proof (while_entries self d (key_fn self d) (ref_it fr) (warn_once_flag fr)
                (self_buffer fr)) as (Hent & Hsub).
  destruct (while_not_in_buffer self d _ _ _ _) as [[fr1 ev] [e|]]; simpl in *.
  { exists []. simpl. repeat split; try done; try lia; try constructor. }
  destruct (od_pop _ _) as [[v buf']|] eqn:Hpop; simpl.
  2:{ exists []. simpl. repeat split; try done; try lia; try constructor. }
  apply od_pop_Some in Hpop as (Hin & Hsub' & _).
  assert (ref_key_fn self v = key_fn self d ∧ v ∈ R) as Hv.
  { destruct (Hent _ _ Hin) as [H|[H1 H2]].
    - destruct (Hbuf _ _ H) as [H1 H2]. done.
    - split; [done|]. set_solver. }
  destruct more as [|more]; simpl.
  - exists [v]. simpl. rewrite yielded_app, Hy. simpl.
    repeat split; try done; try lia.
    + destruct src; done.
    + constructor; [done|]. rewrite take_0. constructor.
  - specialize (IH more (Frame (ref_it fr1) (warn_once_flag fr1) buf')).
    destruct IH as (vs & H1 & H2 & H3 & H4 & H5 & H6).
    { simpl. intros k v' Hkv. apply Hsub' in Hkv.
      destruct (Hent _ _ Hkv) as [H|[H1 H2]]; [by apply Hbuf|].
      split; [done|]. set_solver. }
    { simpl. set_solver. }
    destruct (for_source self src more _) as [[fr3 ev'] e]. simpl in *.
    exists (v :: vs). simpl. rewrite yielded_app, Hy. simpl.
    repeat split; try done; try lia.
    + by f_equal.
    + by constructor.
    + intros He. by rewrite H5.
    + intros He. by rewrite H6.
Qed.

Lemma for_source_yields_le self src more fr :
  (length (yielded (for_source self src more fr).1.2) <= length src)%nat.
Proof.
  revert more fr. induction src as [|d src IH]; intros more fr; simpl; [done|].
  pose proof (while_events self d (key_fn self d) (ref_it fr) (warn_once_flag fr)
                (self_buffer fr)) as (Hy & _ & _).
  destruct (while_not_in_buffer self d _ _ _ _) as [[fr1 ev] [e|]]; simpl in *.
  { rewrite Hy. simpl. lia. }
  destruct (od_pop _ _) as [[v buf']|]; simpl; [|rewrite Hy; simpl; lia].
  destruct more as [|more]; simpl.
  - rewrite yielded_app, Hy. simpl. lia.
  - specialize (IH more (Frame (ref_it fr1) (warn_once_flag fr1) buf')).
    destruct (for_source self src more _) as [[fr3 ev'] e]. simpl in *.
    rewrite yielded_app, Hy. simpl. lia.
Qed.

(** What the [finally] clause adds to a run of the loop. *)
Lemma try_finally_spec self src more fr :
  let run := try_finally self src more fr in
  let loop := for_source self src more fr in
  buffer run.1.1 = []
  ∧ run.1.2 = loop.1.2 ++ map (fun kv => Janitor kv.2) (self_buffer loop.1.1)
  ∧ run.2 = loop.2.
Proof.
  unfold try_finally. destruct (for_source self src more fr) as [[fr' ev] e].
  unfold finally_clause. simpl. destruct (self_buffer fr'); simpl; [|done].
  by rewrite app_nil_r.
Qed.

(** With a bound [n >= 0], the buffer the loop leaves has at most [n + 1]
    entries, unless it started with more. *)
Lemma while_buffer_bound self data key refs flag buf (n : Z) :
  buffer_size self = Some n -> 0 <= n ->
  Z.of_nat (length (self_buffer
                      (while_not_in_buffer self data key refs flag buf).1.1))
  <= Z.max (Z.of_nat (length buf)) (n + 1).
Proof.
  intros Hn Hpos. revert flag buf.
  induction refs as [|r refs IH]; intros flag buf; simpl.
  - destruct (od_contains key buf); simpl; lia.
  - destruct (od_contains key buf); simpl; [lia|].
    destruct (od_contains (ref_key_fn self r) buf) eqn:Hdup; simpl; [lia|].
    apply od_contains_false in Hdup.
    destruct (over_limit self buf) eqn:Hover.
    + destruct buf as [|e buf']; simpl; [lia|].
      specialize (IH false (od_setitem (ref_key_fn self r) r buf')).
      destruct (while_not_in_buffer self data key refs false _) as [[fr ev] res].
      simpl in *. rewrite od_setitem_fresh in IH by set_solver.
      rewrite length_app in IH. simpl in IH. lia.
    + specialize (IH flag (od_setitem (ref_key_fn self r) r buf)).
      etrans; [apply IH|]. rewrite od_setitem_fresh by done.
      rewrite length_app. simpl.
      unfold over_limit in Hover. rewrite Hn in Hover.
      apply bool_decide_eq_false in Hover. lia.
Qed.

End facts.

(** C7.  After [reset], against a consumer that takes [n] items: the items
    yielded are the items of the primary stream, in its order and without a
    gap, each merged with an item of the reference stream that has the same
    key; when the run ends normally every primary item was yielded.  On the
    docstring's example the output is [101, 202, 303]. *)
Theorem keyed_join_primary_order {Data Ref Key Merged : Type} `{!EqDecision Key}
    (self : t Data Ref Key Merged) (n : nat) :
  let run := __iter__ (reset self) n in
  (∃ vs : list Ref,
     (length vs <= n)%nat
     ∧ yielded run.1.2 = zip_with (output self) (source_datapipe self) vs
     ∧ Forall2 (fun d v => ref_key_fn self v = key_fn self d ∧ v ∈ ref_datapipe self)
         (take (length vs) (source_datapipe self)) vs
     ∧ (run.2 = Exhausted -> length vs = length (source_datapipe self)))
  ∧ yielded (__iter__ (example false) 4).1.2
    = [Res (MergeFn 101); Res (MergeFn 202); Res (MergeFn 303)]
  ∧ (__iter__ (example false) 4).2 = Exhausted
  ∧ yielded (__iter__ (example true) 4).1.2
    = [KeyRes "a" (MergeFn 101); KeyRes "b" (MergeFn 202); KeyRes "c" (MergeFn 303)].
Proof.
  intros run. split; [|by vm_compute].
  subst run. destruct n as [|more]; simpl.
  { exists []. simpl. repeat split; try done; try constructor.
    by destruct (source_datapipe self). }
  pose proof (try_finally_spec (reset self) (source_datapipe self) more
                (Frame (ref_datapipe self) true [])) as (_ & Hev & He).
  pose proof (for_source_order (reset self) (ref_datapipe self)
                (source_datapipe self) more (Frame (ref_datapipe self) true []))
    as (vs & H1 & H2 & H3 & H4 & H5 & H6).
  { simpl. intros k v Hkv. by apply elem_of_nil in Hkv. }
  { done. }
  simpl in *. exists vs. rewrite He, Hev, yielded_app, yielded_janitors, app_nil_r.
  repeat split; try done.
Qed.


(** C2.  The joiner of [small_buffer] has [buffer_size=1]; while it looks
    for its first primary key the buffer comes to hold two entries: the test
    at line 103 is made before the insertion and is strict.  The run goes on
    to evict ["a"], warn once, yield [303] and fail on the primary key ["a"]
    with [BufferError]. *)
Theorem small_buffer_holds_two_entries :
  buffer_size small_buffer = Some 1
  ∧ while_not_in_buffer small_buffer ("c", 300) "c"
      [("a", 1); ("b", 2)] true []
    = (Frame [] true [("a", ("a", 1)); ("b", ("b", 2))], [],
       Some (BufferError ("c", 300)))
  ∧ while_not_in_buffer small_buffer ("c", 300) "c"
      [("a", 1); ("b", 2); ("c", 3)] true []
    = (Frame [] false [("b", ("b", 2)); ("c", ("c", 3))], [Warn], None)
  ∧ __iter__ small_buffer 3
    = (small_buffer,
       [Warn; Yield (Res (MergeFn 303)); Janitor ("b", 2)],
       Raised (BufferError ("a", 100))).
Proof. by vm_compute. Qed.

End IterKeyZipperFacts.

(* --------------------------------------------------------------------- *)
(** ** The reported lengths of the two joiners                            *)
(* --------------------------------------------------------------------- *)

Module LengthFacts.

(** C10.  [__len__] of either joiner is the length of the primary stream,
    whatever the reference stream, the map and the other attributes are; an
    iteration never yields more items than that and may yield fewer: the
    keyed joiner over two primary items and an empty reference stream
    reports length 2 and fails before the first item, the lookup joiner over
    three primary items reports length 3 and fails on a missing key after
    the first. *)
Theorem len_is_primary_length {Data Ref Key Merged MapItem : Type} `{!EqDecision Key}
    (source : list Data)
    (ref_datapipe : list Ref) (key_fn : Data -> Key) (ref_key_fn : Ref -> Key)
    (keep_key : bool) (buffer_size : option Z)
    (merge_fn : option (Data -> Ref -> Merged)) (buffer : list (Key * Ref))
    (map_datapipe : Key -> MapKeyZipper.getitem MapItem)
    (map_merge_fn : option (Data -> MapItem -> Merged)) (n : nat) :
  let z := IterKeyZipper.Build source ref_datapipe key_fn ref_key_fn keep_key
             buffer_size merge_fn buffer in
  let m := MapKeyZipper.Build source map_datapipe key_fn map_merge_fn keep_key in
  IterKeyZipper.__len__ z = Z.of_nat (length source)
  ∧ MapKeyZipper.__len__ m = Z.of_nat (length source)
  ∧ Z.of_nat (length (IterKeyZipper.yielded (IterKeyZipper.__iter__ z n).1.2))
    <= IterKeyZipper.__len__ z
  ∧ Z.of_nat (length (MapKeyZipper.yielded (MapKeyZipper.__iter__ m n).1))
    <= MapKeyZipper.__len__ m
  ∧ (let z0 := IterKeyZipper.Build [("a", 100); ("b", 200)] []
                 fst fst false (Some 10000) (Some IterKeyZipper.example_merge_fn) [] in
     IterKeyZipper.__len__ z0 = 2
     ∧ IterKeyZipper.__iter__ z0 3 = (z0, [], Raised (IterKeyZipper.BufferError ("a", 100))))
  ∧ (let m0 := MapKeyZipper.example [("a", 1); ("z", 2); ("c", 3)] in
     MapKeyZipper.__len__ m0 = 3
     ∧ MapKeyZipper.yielded (MapKeyZipper.__iter__ m0 4).1
       = [MapKeyZipper.Res (MapKeyZipper.MergeFn ("a", 101))]
     ∧ (MapKeyZipper.__iter__ m0 4).2
       = Raised (MapKeyZipper.KeyError ("z", 2) "z")).
Proof.
  intros z m. split; [done|]. split; [done|]. split; [|split; [|by vm_compute]].
  - unfold IterKeyZipper.__len__. apply inj_le. destruct n as [|more]; simpl.
    + lia.
    + pose proof (IterKeyZipperFacts.try_finally_spec z source more
                    (IterKeyZipper.Frame ref_datapipe true buffer)) as (_ & Hev & _).
      simpl in Hev. rewrite Hev, IterKeyZipperFacts.yielded_app,
        IterKeyZipperFacts.yielded_janitors, app_nil_r.
      apply IterKeyZipperFacts.for_source_yields_le.
  - unfold MapKeyZipper.__len__. apply inj_le.
    pose proof (MapKeyZipperFacts.for_source_spec m source) as H.
    destruct n as [|more]; simpl; [lia|].
    destruct (H more) as (_ & Hall & _). apply Forall2_length in Hall.
    rewrite <- Hall, length_take. simpl. lia.
Qed.

End LengthFacts.

(* --------------------------------------------------------------------- *)
(** ** Graphs                                                             *)
(* --------------------------------------------------------------------- *)

Module GraphFacts.
Import GraphUtils.

Local Abbreviation gitems := (list (nat * (DataPipe * DataPipeGraph))).
Local Abbreviation entry := (nat * DataPipe * list nat)%type.

(** Induction over a graph and the items of its dictionaries at once. *)
Lemma graph_items_ind (P : DataPipeGraph -> Prop) (Q : gitems -> Prop) :
  (∀ l, Q l -> P (Graph l)) ->
  Q [] ->
  (∀ dp_id dp sub rest, P sub -> Q rest -> Q ((dp_id, (dp, sub)) :: rest)) ->
  (∀ g, P g) ∧ (∀ l, Q l).
Proof.
  intros HG Hnil Hcons.
  assert (∀ g, P g) as HP.
  { fix IH 1. intros [l]. apply HG.
    induction l as [|[dp_id [dp sub]] rest IHl]; [exact Hnil|].
    apply Hcons; [apply IH|exact IHl]. }
  split; [exact HP|].
  induction l as [|[dp_id [dp sub]] rest IHl]; [exact Hnil|].
  apply Hcons; [apply HP|exact IHl].
Qed.

Lemma helper_Graph T l st : helper T (Graph l) st = helper_items T l st.
Proof.
  revert st. induction l as [|[dp_id [dp sub]] rest IH]; intros st; [done|].
  simpl. case_bool_decide; by rewrite <- IH.
Qed.

Lemma visit_Graph l st : visit (Graph l) st = visit_items l st.
Proof.
  revert st. induction l as [|[dp_id [dp sub]] rest IH]; intros st; [done|].
  simpl. case_bool_decide; by rewrite <- IH.
Qed.

Lemma graph_entries_Graph l : graph_entries (Graph l) = items_entries l.
Proof.
  induction l as [|[dp_id [dp sub]] rest IH]; [done|].
  simpl in *. by rewrite IH.
Qed.

(** *** [find_dps] *)

(** [helper] and [visit] walk the graph alike; [helper] keeps the pipes of
    the asked type among those [visit] lists. *)
Lemma helper_visit T :
  (∀ g c dps vs,
     (helper T g (c, dps)).1 = (visit g (c, vs)).1
     ∧ ∃ new, (visit g (c, vs)).2 = vs ++ new
              ∧ (helper T g (c, dps)).2
                = dps ++ filter (fun dp => py_type dp = T)
                           (map (fun e : entry => e.1.2) new))
  ∧ (∀ l c dps vs,
       (helper_items T l (c, dps)).1 = (visit_items l (c, vs)).1
       ∧ ∃ new, (visit_items l (c, vs)).2 = vs ++ new
                ∧ (helper_items T l (c, dps)).2
                  = dps ++ filter (fun dp => py_type dp = T)
                             (map (fun e : entry => e.1.2) new)).
Proof.
  apply graph_items_ind.
  - intros l IH c dps vs. rewrite helper_Graph, visit_Graph. apply IH.
  - intros c dps vs. simpl. split; [done|]. exists []. by rewrite !app_nil_r.
  - intros dp_id dp sub rest IHsub IHrest c dps vs. simpl.
    case_bool_decide as Hin; [apply IHrest|].
    set (dps1 := if bool_decide (py_type dp = T) then dps ++ [dp] else dps).
    set (e0 := (dp_id, dp, (items sub).*1)).
    destruct (IHsub ({[dp_id]} ∪ c) dps1 (vs ++ [e0])) as (Hc1 & new1 & Hv1 & Hd1).
    destruct (helper T sub ({[dp_id]} ∪ c, dps1)) as [c1 d1] eqn:Hh.
    destruct (visit sub ({[dp_id]} ∪ c, vs ++ [e0])) as [c1' v1] eqn:Hv.
    simpl in *. subst c1' v1 d1.
    destruct (IHrest c1 (dps1 ++ filter (fun dp => py_type dp = T)
                                   (map (fun e : entry => e.1.2) new1))
                ((vs ++ [e0]) ++ new1)) as (Hc2 & new2 & Hv2 & Hd2).
    split; [done|]. exists (e0 :: new1 ++ new2). split.
    + rewrite Hv2. by rewrite <- !app_assoc.
    + rewrite Hd2. subst dps1.
      change (e0 :: new1 ++ new2) with ([e0] ++ new1 ++ new2).
      rewrite !map_app, !filter_app. simpl map. rewrite filter_cons, filter_nil.
      subst e0. simpl.
      case_bool_decide; case_decide; try done; by rewrite <- ?app_assoc.
Qed.

(** What [visit] lists: every identity once, none that was in [cache], the
    keys of the graph among them or in [cache]; the items listed are items of
    the graph whose predecessors are visited as well. *)
Lemma visit_spec :
  (∀ g c vs,
     ∃ new, (visit g (c, vs)).2 = vs ++ new
       ∧ (∀ x, x ∈ (visit g (c, vs)).1 ↔ x ∈ c ∨ x ∈ map (fun e : entry => e.1.1) new)
       ∧ NoDup (map (fun e : entry => e.1.1) new)
       ∧ (∀ x, x ∈ map (fun e : entry => e.1.1) new -> x ∉ c)
       ∧ (∀ x, x ∈ (items g).*1 -> x ∈ (visit g (c, vs)).1)
       ∧ (∀ e : entry, e ∈ new ->
            e ∈ graph_entries g ∧ ∀ x, x ∈ e.2 -> x ∈ (visit g (c, vs)).1))
  ∧ (∀ l c vs,
       ∃ new, (visit_items l (c, vs)).2 = vs ++ new
         ∧ (∀ x, x ∈ (visit_items l (c, vs)).1
                 ↔ x ∈ c ∨ x ∈ map (fun e : entry => e.1.1) new)
         ∧ NoDup (map (fun e : entry => e.1.1) new)
         ∧ (∀ x, x ∈ map (fun e : entry => e.1.1) new -> x ∉ c)
         ∧ (∀ x, x ∈ l.*1 -> x ∈ (visit_items l (c, vs)).1)
         ∧ (∀ e : entry, e ∈ new ->
              e ∈ items_entries l ∧ ∀ x, x ∈ e.2 -> x ∈ (visit_items l (c, vs)).1)).
Proof.
  apply graph_items_ind.
  - intros l IH c vs. rewrite visit_Graph, graph_entries_Graph. apply IH.
  - intros c vs. exists []. simpl. rewrite app_nil_r.
    repeat split; try done; try set_solver. constructor.
  - intros dp_id dp sub rest IHsub IHrest c vs. simpl.
    case_bool_decide as Hin.
    { destruct (IHrest c vs) as (new & H1 & H2 & H3 & H4 & H5 & H6).
      exists new. repeat split; try done.
      - apply H2. - apply H2.
      - intros x [->|Hx]%elem_of_cons; [apply H2; by left|by apply H5].
      - apply elem_of_cons. right. apply elem_of_app. right. by apply H6.
      - by apply H6. }
    set (e0 := (dp_id, dp, (items sub).*1)).
    destruct (IHsub ({[dp_id]} ∪ c) (vs ++ [e0]))
      as (new1 & A1 & A2 & A3 & A4 & A5 & A6).
    destruct (visit sub ({[dp_id]} ∪ c, vs ++ [e0])) as [c1 v1] eqn:Hv.
    simpl in *. subst v1.
    destruct (IHrest c1 ((vs ++ [e0]) ++ new1))
      as (new2 & B1 & B2 & B3 & B4 & B5 & B6).
    destruct (visit_items rest (c1, (vs ++ [e0]) ++ new1)) as [c2 v2] eqn:Hv2.
    simpl in *. subst v2.
    exists (e0 :: new1 ++ new2).
    assert (∀ x, x ∈ c2 ↔ x ∈ c ∨ x ∈ map (fun e : entry => e.1.1) (e0 :: new1 ++ new2))
      as Hc2.
    { intros x. rewrite B2, A2. simpl. rewrite map_app.
      rewrite elem_of_cons, elem_of_app. set_solver. }
    split; [by rewrite <- !app_assoc|]. split; [exact Hc2|]. split; [|split; [|split]].
    + simpl. rewrite map_app. apply NoDup_cons. split.
      * rewrite elem_of_app. intros [Hx|Hx].
        -- apply A4 in Hx. set_solver.
        -- apply B4 in Hx. apply Hx. apply A2. left. set_solver.
      * apply NoDup_app. split; [done|]. split; [|done].
        intros x Hx1 Hx2. apply B4 in Hx2. apply Hx2. apply A2. by right.
    + simpl. rewrite map_app. intros x [->|Hx]%elem_of_cons; [done|].
      apply elem_of_app in Hx as [Hx|Hx].
      * apply A4 in Hx. set_solver.
      * intros Hc. apply B4 in Hx. apply Hx. apply A2. left. set_solver.
    + intros x [->|Hx]%elem_of_cons.
      * apply Hc2. right. simpl. left.
      * by apply B5.
    + intros e [->|He]%elem_of_cons.
      * split; [left|]. intros x Hx. simpl in Hx. apply B2. left. by apply A5.
      * apply elem_of_app in He as [He|He].
        -- destruct (A6 e He) as [E1 E2]. split.
           ++ right. apply elem_of_app. by left.
           ++ intros x Hx. apply B2. left. by apply E2.
        -- destruct (B6 e He) as [E1 E2]. split; [|done].
           right. apply elem_of_app. by right.
Qed.

Lemma consistent_spec (es : list entry) :
  consistent es = true ->
  ∀ e1 e2 : entry, e1 ∈ es -> e2 ∈ es -> e1.1.1 = e2.1.1 -> e1 = e2.
Proof.
  unfold consistent. rewrite forallb_forall. intros H e1 e2 H1 H2 Hid.
  apply list_elem_of_In in H1, H2. specialize (H e1 H1).
  rewrite forallb_forall in H. specialize (H e2 H2).
  rewrite bool_decide_eq_true_2 in H by done. simpl in H.
  by apply bool_decide_eq_true in H.
Qed.

Lemma keyed_by_id_spec g :
  keyed_by_id g = true -> ∀ e : entry, e ∈ graph_entries g -> e.1.1 = py_id e.1.2.
Proof.
  unfold keyed_by_id. rewrite forallb_forall. intros H e He.
  apply list_elem_of_In in He. apply H in He. by apply bool_decide_eq_true in He.
Qed.

(** A set of identities that has the keys of a graph and, with an item, the
    keys of its subgraph, has every identity of the graph. *)
Lemma closed_all (c : gset nat) :
  (∀ g, (∀ e : entry, e ∈ graph_entries g -> e.1.1 ∈ c -> ∀ x, x ∈ e.2 -> x ∈ c) ->
        (∀ x, x ∈ (items g).*1 -> x ∈ c) ->
        ∀ e : entry, e ∈ graph_entries g -> e.1.1 ∈ c)
  ∧ (∀ l, (∀ e : entry, e ∈ items_entries l -> e.1.1 ∈ c -> ∀ x, x ∈ e.2 -> x ∈ c) ->
          (∀ x, x ∈ l.*1 -> x ∈ c) ->
          ∀ e : entry, e ∈ items_entries l -> e.1.1 ∈ c).
Proof.
  apply graph_items_ind.
  - intros l IH. rewrite graph_entries_Graph. apply IH.
  - intros _ _ e He. by apply elem_of_nil in He.
  - intros dp_id dp sub rest IHsub IHrest Hcl Hkeys e He. simpl in *.
    assert (dp_id ∈ c) as Hid by (apply Hkeys; left).
    apply elem_of_cons in He as [->|He]; [done|].
    apply elem_of_app in He as [He|He].
    + apply IHsub; [| |done].
      * intros e' He'. apply Hcl. right. apply elem_of_app. by left.
      * intros x Hx. apply (Hcl (dp_id, dp, (items sub).*1)); [left|done|done].
    + apply IHrest; [| |done].
      * intros e' He'. apply Hcl. right. apply elem_of_app. by right.
      * intros x Hx. apply Hkeys. by right.
Qed.

Lemma filter_none {A} (P : A -> Prop) `{!∀ x, Decision (P x)} (l : list A) :
  (∀ y, y ∈ l -> ¬ P y) -> filter P l = [].
Proof.
  induction l as [|a l IH]; intros Hno; [done|].
  rewrite filter_cons_False by (apply Hno; left). apply IH.
  intros y Hy. apply Hno. by right.
Qed.

Lemma filter_one {A B} `{!EqDecision B} (f : A -> B) (l : list A) (x : A) :
  NoDup (map f l) -> x ∈ l ->
  length (filter (fun y => f y = f x) l) = 1%nat.
Proof.
  induction l as [|a l IH]; simpl; [by intros _ ?%elem_of_nil|].
  intros [Hna Hnd]%NoDup_cons Hx. rewrite filter_cons.
  apply elem_of_cons in Hx as [->|Hx].
  - rewrite decide_True by done. simpl. f_equal.
    apply length_zero_iff_nil, filter_none.
    intros y Hy Heq. apply Hna.
    rewrite <- Heq. apply list_elem_of_fmap. by exists y.
  - rewrite decide_False; [by apply IH|].
    intros Heq. apply Hna. rewrite Heq. apply list_elem_of_fmap. by exists x.
Qed.

(** The items [visit] lists from an empty cache are all the items of a
    well-formed graph, each identity once. *)
Lemma visit_all g :
  wf_graph g = true ->
  ∃ new : list entry,
    visit g (∅, []) = ((visit g (∅, [])).1, new)
    ∧ NoDup (map (fun e : entry => e.1.1) new)
    ∧ (∀ e : entry, e ∈ new -> e ∈ graph_entries g)
    ∧ (∀ e : entry, e ∈ graph_entries g -> e ∈ new).
Proof.
  intros [Hkey Hcons]%andb_prop.
  destruct (proj1 visit_spec g ∅ []) as (new & H1 & H2 & H3 & H4 & H5 & H6).
  exists new. simpl in H1. split; [by rewrite <- H1; destruct (visit g (∅, []))|].
  split; [done|]. split; [intros e He; by apply H6|].
  assert (∀ e : entry, e ∈ graph_entries g -> e.1.1 ∈ (visit g (∅, [])).1) as Hall.
  { apply (proj1 (closed_all _)); [|done].
    intros e He Hin x Hx. apply H2 in Hin as [Hin|Hin]; [set_solver|].
    apply list_elem_of_fmap in Hin as (e0 & Hid & He0).
    destruct (H6 e0 He0) as [He0g Hch].
    assert (e0 = e) as -> by (apply (consistent_spec _ Hcons); done).
    by apply Hch. }
  intros e He. specialize (Hall e He). apply H2 in Hall as [Hin|Hin]; [set_solver|].
  apply list_elem_of_fmap in Hin as (e0 & Hid & He0).
  destruct (H6 e0 He0) as [He0g _].
  assert (e0 = e) as -> by (apply (consistent_spec _ Hcons); done). done.
Qed.

(** [find_dps] keeps, of the items visited, the pipes of the asked type. *)
Lemma find_dps_visit g T :
  find_dps g T
  = filter (fun dp => py_type dp = T)
      (map (fun e : entry => e.1.2) (visit g (∅, [])).2).
Proof.
  unfold find_dps.
  destruct (proj1 (helper_visit T) g ∅ [] []) as (_ & new & Hv & Hh).
  rewrite Hh, Hv. done.
Qed.

(** C4.  In a graph as the graph construction builds it (every item under
    the identity of its pipe, an identity with the same pipe and predecessors
    wherever it occurs), [find_dps] on the type of a pipe [Q] of the graph
    lists [Q], and lists exactly one pipe of that identity, however many
    paths reach it; what [find_dps] lists are pipes of the graph whose type
    is the requested type itself, never a strict subclass of it. *)
Theorem find_dps_exactly_once (G : DataPipeGraph) (Q : DataPipe) :
  wf_graph G = true -> Q ∈ graph_pipes G ->
  Q ∈ find_dps G (py_type Q)
  ∧ length (filter (fun dp => py_id dp = py_id Q) (find_dps G (py_type Q))) = 1%nat
  ∧ (∀ T dp, dp ∈ find_dps G T -> py_type dp = T ∧ dp ∈ graph_pipes G)
  ∧ (∀ T dp, issubclass (py_type dp) T = true -> py_type dp ≠ T ->
             dp ∉ find_dps G T).
Proof.
  intros Hwf HQ. destruct (visit_all G Hwf) as (new & Hv & Hnd & Hsub & Hall).
  assert (∀ T, find_dps G T
               = filter (fun dp => py_type dp = T) (map (fun e : entry => e.1.2) new))
    as Hfind.
  { intros T. rewrite find_dps_visit, Hv. done. }
  apply andb_prop in Hwf as [Hkey Hcons].
  assert (map py_id (map (fun e : entry => e.1.2) new)
          = map (fun e : entry => e.1.1) new) as Hids.
  { rewrite map_map. apply map_ext_in. intros e He. symmetry.
    apply (keyed_by_id_spec _ Hkey). apply Hsub. by apply list_elem_of_In. }
  assert (Q ∈ find_dps G (py_type Q)) as Hin.
  { rewrite Hfind. apply list_elem_of_filter. split; [done|].
    unfold graph_pipes in HQ. apply list_elem_of_fmap in HQ as (e & -> & He).
    apply list_elem_of_fmap. exists e. split; [done|]. by apply Hall. }
  split; [done|]. split; [|split].
  - apply filter_one; [|done]. rewrite Hfind.
    assert (sublist (filter (fun dp => py_type dp = py_type Q)
                       (map (fun e : entry => e.1.2) new))
              (map (fun e : entry => e.1.2) new)) as Hs by apply sublist_filter.
    pose proof (fmap_sublist py_id _ _ Hs) as Hs'.
    refine (sublist_NoDup _ _ _ Hs').
    change (NoDup (map py_id (map (fun e : entry => e.1.2) new))). by rewrite Hids.
  - intros T dp Hdp. rewrite Hfind in Hdp.
    apply list_elem_of_filter in Hdp as [HT Hdp]. split; [done|].
    apply list_elem_of_fmap in Hdp as (e & -> & He).
    apply list_elem_of_fmap. exists e. split; [done|]. by apply Hsub.
  - intros T dp _ Hne Hdp. rewrite Hfind in Hdp.
    by apply list_elem_of_filter in Hdp as [HT _].
Qed.

(** *** [list_dps] *)

Local Abbreviation qitem := (nat * DataPipe * DataPipeGraph)%type.

Lemma enqueue_app l (a b : list qitem) c :
  enqueue l (a ++ b) c = (a ++ (enqueue l b c).1, (enqueue l b c).2).
Proof.
  revert b c. induction l as [|[dp_id [dp sub]] rest IH]; intros b c; simpl; [done|].
  case_bool_decide; [apply IH|]. rewrite <- app_assoc. apply IH.
Qed.

Lemma queue_size_app (a b : list qitem) :
  queue_size (a ++ b) = (queue_size a + queue_size b)%nat.
Proof. unfold queue_size. by rewrite map_app, list_sum_app. Qed.

Lemma queue_size_length (q : list qitem) : (length q <= queue_size q)%nat.
Proof.
  unfold queue_size. induction q as [|it q IH]; simpl; lia.
Qed.

Lemma graph_size_Graph l :
  graph_size (Graph l)
  = list_sum (map (fun kv : nat * (DataPipe * DataPipeGraph) => S (graph_size kv.2.2)) l).
Proof. done. Qed.

(** What [enqueue] appends: the items whose key is not in [cache], each key
    once. *)
Lemma enqueue_spec l (q : list qitem) c :
  ∃ new : list qitem,
    (enqueue l q c).1 = q ++ new
    ∧ (∀ x, x ∈ (enqueue l q c).2 ↔ x ∈ c ∨ x ∈ map (fun it : qitem => it.1.1) new)
    ∧ NoDup (map (fun it : qitem => it.1.1) new)
    ∧ (∀ x, x ∈ map (fun it : qitem => it.1.1) new -> x ∉ c)
    ∧ (∀ it : qitem, it ∈ new -> (it.1.1, (it.1.2, it.2)) ∈ l)
    ∧ (∀ x, x ∈ l.*1 -> x ∈ (enqueue l q c).2)
    ∧ (queue_size new <= graph_size (Graph l))%nat.
Proof.
  revert q c. induction l as [|[dp_id [dp sub]] rest IH]; intros q c.
  - exists []. simpl. rewrite app_nil_r. repeat split; try done; try set_solver.
    constructor.
  - simpl enqueue. rewrite graph_size_Graph. simpl map. simpl list_sum.
    case_bool_decide as Hin.
    + destruct (IH q c) as (new & H1 & H2 & H3 & H4 & H5 & H6 & H7).
      exists new. rewrite graph_size_Graph in H7.
      repeat split; try done; try apply H2.
      * intros it Hit. right. by apply H5.
      * intros x [->|Hx]%elem_of_cons; [apply H2; by left|by apply H6].
      * lia.
    + destruct (IH (q ++ [(dp_id, dp, sub)]) ({[dp_id]} ∪ c))
        as (new & H1 & H2 & H3 & H4 & H5 & H6 & H7).
      exists ((dp_id, dp, sub) :: new). rewrite graph_size_Graph in H7.
      split; [by rewrite H1, <- app_assoc|].
      split; [intros x; rewrite H2; simpl; rewrite elem_of_cons; set_solver|].
      split; [simpl; apply NoDup_cons; split; [|done];
              intros Hx; apply H4 in Hx; set_solver|].
      split; [simpl; intros x [->|Hx]%elem_of_cons; [done|];
              apply H4 in Hx; set_solver|].
      split; [intros it [->|Hit]%elem_of_cons; [left|right; by apply H5]|].
      split; [intros x [->|Hx]%elem_of_cons; [apply H2; left; set_solver|by apply H6]|].
      unfold queue_size in *. simpl. lia.
Qed.

(** One level of the loop: with the current level [cur] at the front of the
    queue, [length cur] iterations list it and leave the next level, built
    as [next_level] builds it. *)
Lemma bfs_while_level cur : ∀ (nxt : list qitem) cache dps fuel,
  (length cur <= fuel)%nat ->
  bfs_while fuel (cur ++ nxt) cache dps
  = bfs_while (fuel - length cur) (next_level cur nxt cache).1
      (next_level cur nxt cache).2 (dps ++ map (fun it : qitem => it.1.2) cur).
Proof.
  induction cur as [|[[dp_id dp] sub] cur IH]; intros nxt cache dps fuel Hfuel.
  - simpl. by rewrite Nat.sub_0_r, app_nil_r.
  - simpl in Hfuel. destruct fuel as [|fuel]; [lia|]. simpl.
    rewrite enqueue_app. destruct (enqueue (items sub) nxt cache) as [nxt' cache'].
    simpl. rewrite IH by lia. by rewrite <- app_assoc.
Qed.

Lemma next_level_size cur : ∀ (nxt : list qitem) cache,
  ∃ new : list qitem,
    (next_level cur nxt cache).1 = nxt ++ new
    ∧ (queue_size new + length cur <= queue_size cur)%nat.
Proof.
  induction cur as [|[[dp_id dp] sub] cur IH]; intros nxt cache; simpl.
  - exists []. by rewrite app_nil_r.
  - destruct (enqueue_spec (items sub) nxt cache) as (new1 & H1 & _ & _ & _ & _ & _ & H7).
    destruct (enqueue (items sub) nxt cache) as [nxt' cache']. simpl in *. subst nxt'.
    destruct (IH (nxt ++ new1) cache') as (new2 & H2 & H3).
    exists (new1 ++ new2). split; [by rewrite H2, <- app_assoc|].
    rewrite queue_size_app. unfold queue_size at 3. simpl.
    destruct sub as [l]. simpl in *. unfold queue_size in *. lia.
Qed.

Lemma bfs_levels_cons depth (it : qitem) cur cache :
  bfs_levels (S depth) (it :: cur) cache
  = (it :: cur) ++ bfs_levels depth (next_level (it :: cur) [] cache).1
                     (next_level (it :: cur) [] cache).2.
Proof.
  cbn [bfs_levels]. by destruct (next_level (it :: cur) [] cache).
Qed.

(** The loop lists the queue level by level, and [fuel] at least the size of
    the queue is enough. *)
Lemma bfs_while_levels depth : ∀ (cur : list qitem) cache dps fuel,
  (queue_size cur <= depth)%nat -> (queue_size cur <= fuel)%nat ->
  bfs_while fuel cur cache dps
  = Some (dps ++ map (fun it : qitem => it.1.2) (bfs_levels depth cur cache)).
Proof.
  induction depth as [|depth IH]; intros cur cache dps fuel Hd Hf.
  - destruct cur as [|it cur]; [destruct fuel; simpl; by rewrite app_nil_r|].
    unfold queue_size in Hd. simpl in Hd. lia.
  - destruct cur as [|it cur]; [destruct fuel; simpl; by rewrite app_nil_r|].
    pose proof (queue_size_length (it :: cur)) as Hlen.
    rewrite <- (app_nil_r (it :: cur)) at 1.
    rewrite bfs_while_level by lia. rewrite bfs_levels_cons.
    destruct (next_level_size (it :: cur) [] cache) as (new & Hn & Hsz).
    destruct (next_level (it :: cur) [] cache) as [next cache'] eqn:Hnl.
    simpl fst in *. simpl snd in *. simpl app in Hn. subst next.
    rewrite IH by (simpl length in *; lia).
    by rewrite map_app, app_assoc.
Qed.

Lemma in_items_entries l dp_id dp sub :
  (dp_id, (dp, sub)) ∈ l ->
  (dp_id, dp, (items sub).*1) ∈ items_entries l
  ∧ ∀ e : entry, e ∈ graph_entries sub -> e ∈ items_entries l.
Proof.
  induction l as [|[k [d g]] rest IH]; [by intros ?%elem_of_nil|].
  intros [[= -> -> ->]|Hin]%elem_of_cons; simpl.
  - split; [left|]. intros e He. right. apply elem_of_app. by left.
  - destruct (IH Hin) as [H1 H2]. split.
    + right. apply elem_of_app. by right.
    + intros e He. right. apply elem_of_app. right. by apply H2.
Qed.

Lemma in_graph_top G (it : qitem) :
  (it.1.1, (it.1.2, it.2)) ∈ items G -> in_graph G it.
Proof.
  destruct G as [l]. destruct it as [[k d] g]. simpl. intros Hin.
  unfold in_graph, entry_of. rewrite graph_entries_Graph. simpl.
  by apply in_items_entries.
Qed.

Lemma in_graph_child G (p it : qitem) :
  in_graph G p -> (it.1.1, (it.1.2, it.2)) ∈ items p.2 -> in_graph G it.
Proof.
  intros [_ Hsub] Hin. destruct (in_graph_top p.2 it Hin) as [H1 H2].
  split; [by apply Hsub|]. intros e He. by apply Hsub, H2.
Qed.

(** The keys of the subgraph of an item of a graph are keys of items of the
    graph. *)
Lemma entry_children :
  (∀ g (e : entry), e ∈ graph_entries g ->
     ∀ x, x ∈ e.2 -> x ∈ map (fun e : entry => e.1.1) (graph_entries g))
  ∧ (∀ l (e : entry), e ∈ items_entries l ->
       ∀ x, x ∈ e.2 -> x ∈ map (fun e : entry => e.1.1) (items_entries l)).
Proof.
  apply graph_items_ind.
  - intros l IH. rewrite graph_entries_Graph. apply IH.
  - intros e He. by apply elem_of_nil in He.
  - intros dp_id dp sub rest IHsub IHrest e He x Hx. simpl in *.
    rewrite map_app. apply elem_of_cons in He as [->|He].
    + simpl in Hx. right. apply elem_of_app. left.
      destruct sub as [l]. rewrite graph_entries_Graph. simpl in *.
      clear -Hx. induction l as [|[k [d g]] l IH]; [done|]. simpl in *.
      apply elem_of_cons in Hx as [->|Hx]; [left|].
      right. rewrite map_app. apply elem_of_app. right. by apply IH.
    + right. apply elem_of_app. apply elem_of_app in He as [He|He].
      * left. by apply (IHsub e).
      * right. by apply (IHrest e).
Qed.

Lemma next_level_spec cur : ∀ (nxt : list qitem) c,
  ∃ new : list qitem,
    (next_level cur nxt c).1 = nxt ++ new
    ∧ (∀ x, x ∈ (next_level cur nxt c).2
            ↔ x ∈ c ∨ x ∈ map (fun it : qitem => it.1.1) new)
    ∧ NoDup (map (fun it : qitem => it.1.1) new)
    ∧ (∀ x, x ∈ map (fun it : qitem => it.1.1) new -> x ∉ c)
    ∧ (∀ it : qitem, it ∈ new ->
         ∃ p : qitem, p ∈ cur ∧ (it.1.1, (it.1.2, it.2)) ∈ items p.2)
    ∧ (∀ p : qitem, p ∈ cur ->
         ∀ x, x ∈ (items p.2).*1 -> x ∈ (next_level cur nxt c).2).
Proof.
  induction cur as [|[[dp_id dp] sub] cur IH]; intros nxt c; simpl.
  - exists []. rewrite app_nil_r. repeat split; try done; try set_solver.
    constructor.
  - destruct (enqueue_spec (items sub) nxt c) as (new1 & A1 & A2 & A3 & A4 & A5 & A6 & _).
    destruct (enqueue (items sub) nxt c) as [nxt' c'] eqn:He. simpl in *. subst nxt'.
    destruct (IH (nxt ++ new1) c') as (new2 & B1 & B2 & B3 & B4 & B5 & B6).
    exists (new1 ++ new2). rewrite map_app.
    split; [by rewrite B1, <- app_assoc|].
    split; [intros x; rewrite B2, A2, elem_of_app; tauto|].
    split; [apply NoDup_app; split; [done|]; split; [|done];
            intros x Hx1 Hx2; apply B4 in Hx2; apply Hx2, A2; by right|].
    split; [intros x [Hx|Hx]%elem_of_app;
              [by apply A4|intros Hc; apply B4 in Hx; apply Hx, A2; by left]|].
    split.
    + intros it [Hit|Hit]%elem_of_app.
      * exists (dp_id, dp, sub). split; [left|]. by apply A5.
      * destruct (B5 it Hit) as (p & Hp & Hin). exists p. split; [by right|done].
    + intros p [->|Hp]%elem_of_cons x Hx.
      * apply B2. left. by apply A6.
      * by apply (B6 p).
Qed.

(** What the levels list, for a frontier of items of [G] with distinct keys,
    all in [cache]: every key once; beyond the frontier only keys that were
    not in [cache]; items of [G]; and, given depth enough, the frontier and
    with every item its predecessors, unless they were in [cache]. *)
Lemma bfs_levels_spec G depth : ∀ (frontier : list qitem) cache,
  (∀ it : qitem, it ∈ frontier -> in_graph G it) ->
  NoDup (map (fun it : qitem => it.1.1) frontier) ->
  (∀ x, x ∈ map (fun it : qitem => it.1.1) frontier -> x ∈ cache) ->
  let L := bfs_levels depth frontier cache in
  NoDup (map (fun it : qitem => it.1.1) L)
  ∧ (∀ it : qitem, it ∈ L -> it ∈ frontier ∨ it.1.1 ∉ cache)
  ∧ (∀ it : qitem, it ∈ L -> in_graph G it)
  ∧ ((queue_size frontier <= depth)%nat ->
     (∀ it : qitem, it ∈ frontier -> it ∈ L)
     ∧ (∀ it : qitem, it ∈ L -> ∀ x, x ∈ (items it.2).*1 ->
          x ∈ cache ∨ x ∈ map (fun it : qitem => it.1.1) L)).
Proof.
  induction depth as [|depth IH]; intros frontier cache Hin Hnd Hc.
  { simpl. split; [constructor|]. split; [by intros it ?%elem_of_nil|].
    split; [by intros it ?%elem_of_nil|]. intros Hsz.
    destruct frontier as [|it fr]; [|unfold queue_size in Hsz; simpl in Hsz; lia].
    split; by intros it ?%elem_of_nil. }
  destruct frontier as [|it0 fr].
  { simpl. split; [constructor|]. split; [by intros it ?%elem_of_nil|].
    split; [by intros it ?%elem_of_nil|]. intros _.
    split; by intros it ?%elem_of_nil. }
  rewrite bfs_levels_cons. set (frontier := it0 :: fr) in *.
  destruct (next_level_spec frontier [] cache) as (new & N1 & N2 & N3 & N4 & N5 & N6).
  destruct (next_level_size frontier [] cache) as (new' & N1' & Nsz).
  destruct (next_level frontier [] cache) as [next cache'] eqn:Hnl.
  simpl fst in *. simpl snd in *. simpl app in N1, N1'. subst next. subst new'.
  destruct (IH new cache') as (I1 & I2 & I3 & I4).
  { intros it Hit. destruct (N5 it Hit) as (p & Hp & Hitp).
    eapply in_graph_child; [by apply Hin|done]. }
  { done. }
  { intros x Hx. apply N2. by right. }
  set (L' := bfs_levels depth new cache') in *.
  assert (∀ it : qitem, it ∈ L' -> it.1.1 ∉ cache) as Hfresh.
  { intros it Hit. destruct (I2 it Hit) as [Hn|Hn].
    - apply N4. apply list_elem_of_fmap. by exists it.
    - intros Hx. apply Hn, N2. by left. }
  split; [|split; [|split]].
  - rewrite map_app. apply NoDup_app. split; [done|]. split; [|done].
    intros x Hx1 Hx2. apply list_elem_of_fmap in Hx2 as (it & -> & Hit).
    apply (Hfresh it Hit). by apply Hc.
  - intros it [Hit|Hit]%elem_of_app; [by left|right; by apply Hfresh].
  - intros it [Hit|Hit]%elem_of_app; [by apply Hin|by apply I3].
  - intros Hsz. destruct I4 as [J1 J2]; [subst frontier; simpl length in *; lia|].
    split; [intros it Hit; apply elem_of_app; by left|].
    intros it [Hit|Hit]%elem_of_app x Hx; rewrite map_app.
    + apply (N6 it Hit), N2 in Hx as [Hx|Hx]; [by left|].
      right. apply elem_of_app. right.
      apply list_elem_of_fmap in Hx as (it' & -> & Hit').
      apply list_elem_of_fmap. exists it'. split; [done|]. by apply J1.
    + destruct (J2 it Hit x Hx) as [Hx'|Hx'].
      * apply N2 in Hx' as [Hx'|Hx']; [by left|].
        right. apply elem_of_app. right.
        apply list_elem_of_fmap in Hx' as (it' & -> & Hit').
        apply list_elem_of_fmap. exists it'. split; [done|]. by apply J1.
      * right. apply elem_of_app. by right.
Qed.

(** [list_dps_from]: the levels, listed by the loop without running out of
    fuel; every key once and none from [cache]; the keys of the graph and of
    the subgraphs of the items listed are listed or in [cache]. *)
Lemma list_dps_from_spec cache G :
  let q := enqueue (items G) [] cache in
  let L := bfs_levels (graph_size G) q.1 q.2 in
  list_dps_from cache G = map (fun it : qitem => it.1.2) L
  ∧ (∀ fuel, (graph_size G <= fuel)%nat ->
       (bfs_while fuel q.1 q.2 [] = Some (list_dps_from cache G)))
  ∧ NoDup (map (fun it : qitem => it.1.1) L)
  ∧ (∀ it : qitem, it ∈ L -> (it.1.1 ∉ cache) ∧ in_graph G it)
  ∧ (∀ x, x ∈ (items G).*1 -> x ∈ cache ∨ x ∈ map (fun it : qitem => it.1.1) L)
  ∧ (∀ it : qitem, it ∈ L -> ∀ x, x ∈ (items it.2).*1 ->
       x ∈ cache ∨ x ∈ map (fun it : qitem => it.1.1) L).
Proof.
  intros q L. unfold list_dps_from. fold q.
  destruct (enqueue_spec (items G) [] cache) as (new & E1 & E2 & E3 & E4 & E5 & E6 & E7).
  fold q in E1, E2, E6. simpl in E1.
  assert (graph_size (Graph (items G)) = graph_size G) as HG by (by destruct G).
  rewrite HG in E7.
  assert (∀ fuel, (graph_size G <= fuel)%nat ->
            bfs_while fuel q.1 q.2 [] = Some (map (fun it : qitem => it.1.2) L))
    as Hfuel.
  { intros fuel Hf. rewrite (bfs_while_levels (graph_size G)); [done| |];
      rewrite E1; lia. }
  destruct q as [q0 c0] eqn:Hq. simpl in *. subst q0.
  rewrite (Hfuel (graph_size G)) by lia. simpl.
  destruct (bfs_levels_spec G (graph_size G) new c0) as (I1 & I2 & I3 & I4).
  { intros it Hit. apply in_graph_top. by apply E5. }
  { done. }
  { intros x Hx. apply E2. by right. }
  destruct I4 as [J1 J2]; [done|]. fold L in I1, I2, I3, J1, J2.
  split; [done|]. split; [done|]. split; [done|]. split; [|split].
  - intros it Hit. split; [|by apply I3].
    destruct (I2 it Hit) as [Hn|Hn].
    + apply E4. apply list_elem_of_fmap. by exists it.
    + intros Hx. apply Hn, E2. by left.
  - intros x Hx. apply E6, E2 in Hx as [Hx|Hx]; [by left|]. right.
    apply list_elem_of_fmap in Hx as (it & -> & Hit).
    apply list_elem_of_fmap. exists it. split; [done|]. by apply J1.
  - intros it Hit x Hx. destruct (J2 it Hit x Hx) as [Hx'|Hx']; [|by right].
    apply E2 in Hx' as [Hx'|Hx']; [by left|]. right.
    apply list_elem_of_fmap in Hx' as (it' & -> & Hit').
    apply list_elem_of_fmap. exists it'. split; [done|]. by apply J1.
Qed.

(** The pipes listed are listed under their identity. *)
Lemma list_dps_from_ids cache G :
  keyed_by_id G = true ->
  let q := enqueue (items G) [] cache in
  map py_id (list_dps_from cache G)
  = map (fun it : qitem => it.1.1) (bfs_levels (graph_size G) q.1 q.2).
Proof.
  intros Hkey q. destruct (list_dps_from_spec cache G) as (H1 & _ & _ & H4 & _).
  rewrite H1, map_map. apply map_ext_in. intros it Hit.
  apply list_elem_of_In, H4 in Hit as [_ [He _]].
  symmetry. apply (keyed_by_id_spec _ Hkey _ He).
Qed.

(** Without exclusion every item of a graph is listed, when the graph is
    keyed by identity and an identity has the same item everywhere. *)
Lemma list_dps_from_all G :
  (∀ e1 e2 : entry, e1 ∈ graph_entries G -> e2 ∈ graph_entries G ->
     e1.1.1 = e2.1.1 -> e1 = e2) ->
  ∀ e : entry, e ∈ graph_entries G -> e.1.2 ∈ list_dps_from ∅ G.
Proof.
  intros Hcons.
  destruct (list_dps_from_spec ∅ G) as (H1 & _ & H3 & H4 & H5 & H6).
  set (L := bfs_levels (graph_size G) (enqueue (items G) [] ∅).1
              (enqueue (items G) [] ∅).2) in *.
  set (c := list_to_set (map (fun it : qitem => it.1.1) L) : gset nat).
  assert (∀ e : entry, e ∈ graph_entries G -> e.1.1 ∈ c -> e ∈ map entry_of L) as Hsame.
  { intros e He Hin. apply elem_of_list_to_set in Hin.
    apply list_elem_of_fmap in Hin as (it & Hid & Hit).
    destruct (H4 it Hit) as [_ [Hent _]].
    assert (entry_of it = e) as <- by (apply Hcons; done).
    apply list_elem_of_fmap. by exists it. }
  assert (∀ e : entry, e ∈ graph_entries G -> e.1.1 ∈ c) as Hall.
  { apply (proj1 (closed_all c)).
    - intros e He Hin x Hx. apply Hsame in Hin; [|done].
      apply list_elem_of_fmap in Hin as (it & -> & Hit).
      apply elem_of_list_to_set. destruct (H6 it Hit x Hx) as [?|?]; [set_solver|done].
    - intros x Hx. apply elem_of_list_to_set.
      destruct (H5 x Hx) as [?|?]; [set_solver|done]. }
  intros e He. specialize (Hsame e He (Hall e He)).
  apply list_elem_of_fmap in Hsame as (it & -> & Hit).
  rewrite H1. apply list_elem_of_fmap. by exists it.
Qed.

(** The identities [list_dps_from ∅] lists are those of the items of the
    graph. *)
Lemma list_dps_from_empty_ids G :
  keyed_by_id G = true ->
  (∀ e1 e2 : entry, e1 ∈ graph_entries G -> e2 ∈ graph_entries G ->
     e1.1.1 = e2.1.1 -> e1 = e2) ->
  ∀ x, x ∈ map py_id (list_dps_from ∅ G)
       ↔ x ∈ map (fun e : entry => e.1.1) (graph_entries G).
Proof.
  intros Hkey Hcons x. split.
  - rewrite list_dps_from_ids by done.
    destruct (list_dps_from_spec ∅ G) as (_ & _ & _ & H4 & _).
    intros (it & -> & Hit)%list_elem_of_fmap.
    destruct (H4 it Hit) as [_ [He _]].
    apply list_elem_of_fmap. by exists (entry_of it).
  - intros (e & -> & He)%list_elem_of_fmap.
    rewrite (keyed_by_id_spec _ Hkey _ He).
    apply list_elem_of_fmap. exists e.1.2. split; [done|].
    by apply list_dps_from_all.
Qed.

Lemma traverse_dps_top h dp :
  ∃ sub, traverse_dps h dp = Graph [(py_id dp, (dp, sub))].
Proof.
  unfold traverse_dps. simpl. rewrite bool_decide_eq_false_2 by set_solver.
  by eexists.
Qed.

Lemma foldl_add_ids (l : list DataPipe) (c : gset nat) x :
  x ∈ foldl (fun cache dp => {[py_id dp]} ∪ cache) c l ↔ x ∈ c ∨ x ∈ map py_id l.
Proof.
  revert c. induction l as [|dp l IH]; intros c; simpl; [set_solver|].
  rewrite IH, elem_of_cons. set_solver.
Qed.

Lemma elem_of_excluded_entries h dps (e : entry) :
  e ∈ excluded_entries h dps
  ↔ ∃ dp, dp ∈ dps ∧ e ∈ graph_entries (traverse_dps h dp).
Proof.
  unfold excluded_entries. rewrite list_elem_of_In, in_flat_map.
  by setoid_rewrite list_elem_of_In.
Qed.

(** One round of the exclusion: after it [cache] has the identities of the
    graphs of the datapipes excluded so far. *)
Lemma exclude_one_spec h (pre : list DataPipe) (c : gset nat) (dp : DataPipe) :
  (∀ e1 e2 : entry, e1 ∈ excluded_entries h (pre ++ [dp]) ->
     e2 ∈ excluded_entries h (pre ++ [dp]) -> e1.1.1 = e2.1.1 -> e1 = e2) ->
  keyed_by_id (traverse_dps h dp) = true ->
  (∀ x, x ∈ c ↔ x ∈ map (fun e : entry => e.1.1) (excluded_entries h pre)) ->
  ∀ x, x ∈ exclude_one h c dp
       ↔ x ∈ map (fun e : entry => e.1.1) (excluded_entries h (pre ++ [dp])).
Proof.
  intros Hcons Hkey Hc x.
  assert (excluded_entries h (pre ++ [dp])
          = excluded_entries h pre ++ graph_entries (traverse_dps h dp)) as Happ.
  { unfold excluded_entries. rewrite flat_map_app. simpl. by rewrite app_nil_r. }
  rewrite Happ, map_app, elem_of_app, <- Hc.
  assert (∀ e1 e2 : entry, e1 ∈ graph_entries (traverse_dps h dp) ->
            e2 ∈ graph_entries (traverse_dps h dp) -> e1.1.1 = e2.1.1 -> e1 = e2)
    as Hcons1.
  { intros e1 e2 H1 H2. apply Hcons; rewrite Happ, elem_of_app; by right. }
  unfold exclude_one. case_bool_decide as Hin.
  - split; [by left|]. intros [Hx|Hx]; [done|].
    apply list_elem_of_fmap in Hx as (e & -> & He).
    revert e He. apply (proj1 (closed_all c)).
    + intros e He Hid y Hy. apply Hc in Hid.
      apply list_elem_of_fmap in Hid as (e' & Hid & He').
      assert (e = e') as <-.
      { apply Hcons; [| |done]; rewrite Happ, elem_of_app; [by right|by left]. }
      apply Hc. apply elem_of_excluded_entries in He' as (dp' & Hdp' & He').
      pose proof (proj1 entry_children _ _ He' y Hy) as Hy'.
      apply list_elem_of_fmap in Hy' as (e2 & -> & He2).
      apply list_elem_of_fmap. exists e2. split; [done|].
      apply elem_of_excluded_entries. by exists dp'.
    + destruct (traverse_dps_top h dp) as [sub ->]. simpl.
      intros y Hy. apply list_elem_of_singleton in Hy. by subst y.
  - rewrite foldl_add_ids. by rewrite list_dps_from_empty_ids.
Qed.

Lemma exclude_fold_spec h (dps : list DataPipe) : ∀ (pre : list DataPipe) (c : gset nat),
  (∀ e1 e2 : entry, e1 ∈ excluded_entries h (pre ++ dps) ->
     e2 ∈ excluded_entries h (pre ++ dps) -> e1.1.1 = e2.1.1 -> e1 = e2) ->
  (∀ dp, dp ∈ dps -> keyed_by_id (traverse_dps h dp) = true) ->
  (∀ x, x ∈ c ↔ x ∈ map (fun e : entry => e.1.1) (excluded_entries h pre)) ->
  ∀ x, x ∈ foldl (exclude_one h) c dps
       ↔ x ∈ map (fun e : entry => e.1.1) (excluded_entries h (pre ++ dps)).
Proof.
  induction dps as [|dp dps IH]; intros pre c Hcons Hkey Hc x; simpl.
  - by rewrite app_nil_r.
  - replace (pre ++ dp :: dps) with ((pre ++ [dp]) ++ dps) in *
      by (by rewrite <- app_assoc).
    apply IH; [done|intros d Hd; apply Hkey; by right|].
    apply exclude_one_spec; [|apply Hkey; left|done].
    intros e1 e2 H1 H2. apply Hcons.
    + apply elem_of_excluded_entries in H1 as (d & Hd & H1).
      apply elem_of_excluded_entries. exists d. split; [|done].
      apply elem_of_app. by left.
    + apply elem_of_excluded_entries in H2 as (d & Hd & H2).
      apply elem_of_excluded_entries. exists d. split; [|done].
      apply elem_of_app. by left.
Qed.

(** C5.  For a graph keyed by identity and an exclusion whose graphs are
    keyed by identity and consistent with one another: [list_dps] lists the
    pipes level by level (breadth first, in the order they are found), the
    loop ends on the fuel it is given, no identity is listed twice, the pipes
    listed are pipes of the graph, and no pipe of the graph of an excluded
    datapipe (the excluded datapipe and everything upstream of it) is
    listed.  Without exclusion every pipe of a consistent graph is listed. *)
Theorem list_dps_breadth_first (h : gmap nat (list (string * value)))
    (G : DataPipeGraph) (ex : exclude_arg) :
  keyed_by_id G = true ->
  forallb (fun dp => keyed_by_id (traverse_dps h dp)) (exclude_list ex) = true ->
  consistent (excluded_entries h (exclude_list ex)) = true ->
  let r := list_dps h G ex in
  let q := enqueue (items G) [] (exclude_cache h ex) in
  r = map (fun it : qitem => it.1.2) (bfs_levels (graph_size G) q.1 q.2)
  ∧ (∀ fuel, (graph_size G <= fuel)%nat -> bfs_while fuel q.1 q.2 [] = Some r)
  ∧ NoDup (map py_id r)
  ∧ (∀ dp, dp ∈ r -> dp ∈ graph_pipes G)
  ∧ (∀ e p, e ∈ exclude_list ex -> p ∈ graph_pipes (traverse_dps h e) ->
            py_id p ∉ map py_id r)
  ∧ (∀ e, e ∈ exclude_list ex -> py_id e ∉ map py_id r)
  ∧ (exclude_list ex = [] -> consistent (graph_entries G) = true ->
     ∀ p, p ∈ graph_pipes G -> p ∈ r).
Proof.
  intros HkeyG Hkeys Hcons r q. subst r. unfold list_dps. fold q.
  destruct (list_dps_from_spec (exclude_cache h ex) G)
    as (H1 & H2 & H3 & H4 & H5 & H6). fold q in H1, H2, H3, H4, H5, H6.
  pose proof (list_dps_from_ids (exclude_cache h ex) G HkeyG) as Hids.
  fold q in Hids. simpl in Hids.
  assert (∀ x, x ∈ exclude_cache h ex
               ↔ x ∈ map (fun e : entry => e.1.1)
                       (excluded_entries h (exclude_list ex))) as Hcache.
  { unfold exclude_cache. apply (exclude_fold_spec h (exclude_list ex) [] ∅).
    - simpl. by apply consistent_spec.
    - intros dp Hdp. rewrite forallb_forall in Hkeys.
      apply Hkeys. by apply list_elem_of_In.
    - simpl. set_solver. }
  assert (∀ e p, e ∈ exclude_list ex -> p ∈ graph_pipes (traverse_dps h e) ->
            py_id p ∉ map py_id (list_dps_from (exclude_cache h ex) G)) as Hex.
  { intros e p He Hp. rewrite Hids.
    intros (it & Hid & Hit)%list_elem_of_fmap.
    destruct (H4 it Hit) as [Hnot _]. apply Hnot. rewrite <- Hid. apply Hcache.
    unfold graph_pipes in Hp. apply list_elem_of_fmap in Hp as (ent & -> & Hent).
    apply list_elem_of_fmap. exists ent. split.
    - symmetry. apply (keyed_by_id_spec (traverse_dps h e)); [|done].
      rewrite forallb_forall in Hkeys. apply Hkeys. by apply list_elem_of_In.
    - apply elem_of_excluded_entries. by exists e. }
  split; [done|]. split; [done|]. split; [by rewrite Hids|].
  split; [|split; [done|split]].
  - intros dp Hdp. rewrite H1 in Hdp.
    apply list_elem_of_fmap in Hdp as (it & -> & Hit).
    destruct (H4 it Hit) as [_ [He _]].
    apply list_elem_of_fmap. by exists (entry_of it).
  - intros e He. apply (Hex e e He).
    destruct (traverse_dps_top h e) as [sub ->].
    unfold graph_pipes. simpl. left.
  - intros Hnil HconsG p Hp. unfold exclude_cache. rewrite Hnil. simpl.
    unfold graph_pipes in Hp. apply list_elem_of_fmap in Hp as (ent & -> & Hent).
    apply list_dps_from_all; [|done]. by apply consistent_spec.
Qed.

Lemma list_dps_breadth_first_witness :
  list_dps pipeline (traverse_dps pipeline batched) ExcludeNone
  = [batched; zipped; mapped_f; mapped_g; source]
  ∧ list_dps pipeline (traverse_dps pipeline batched) (ExcludeOne mapped_f)
    = [batched; zipped; mapped_g]
  ∧ list_dps pipeline (traverse_dps pipeline batched) (ExcludeList [source; zipped])
    = [batched]
  ∧ NoDup (map py_id (list_dps pipeline (traverse_dps pipeline batched)
                        (ExcludeList [source; zipped])))
  ∧ py_id mapped_g ∉ map py_id (list_dps pipeline (traverse_dps pipeline batched)
                                   (ExcludeList [source; zipped])).
Proof.
  split; [by vm_compute|]. split; [by vm_compute|]. split; [by vm_compute|].
  pose proof (list_dps_breadth_first pipeline (traverse_dps pipeline batched)
                (ExcludeList [source; zipped])
                ltac:(by vm_compute) ltac:(by vm_compute) ltac:(by vm_compute))
    as (_ & _ & Hnd & _ & Hex & _).
  split; [exact Hnd|].
  apply (Hex zipped mapped_g).
  - right. left.
  - apply list_elem_of_In. vm_compute. tauto.
Defined.

Lemma find_dps_exactly_once_witness :
  find_dps (traverse_dps pipeline zipped) IterableWrapper = [source]
  ∧ find_dps (traverse_dps pipeline zipped) Mapper = [mapped_f]
  ∧ length (filter (fun dp => py_id dp = py_id source)
              (find_dps (traverse_dps pipeline zipped) (py_type source))) = 1%nat.
Proof.
  split; [by vm_compute|]. split; [by vm_compute|].
  refine (proj1 (proj2 (find_dps_exactly_once (traverse_dps pipeline zipped) source _ _))).
  - by vm_compute.
  - apply list_elem_of_In. vm_compute. tauto.
Defined.

End GraphFacts.

(* --------------------------------------------------------------------- *)
(** ** The deep attribute rewriter                                        *)
(* --------------------------------------------------------------------- *)

Module RewriteFacts.
Import GraphUtils.

Local Abbreviation heap := (gmap nat (list (string * value))).

(** Induction over a value and the values it contains. *)
Lemma value_ind' (P : value -> Prop) :
  (∀ dp, P (VPipe dp)) ->
  (∀ d, Forall (fun kv : string * value => P kv.2) d -> P (VDict d)) ->
  (∀ l, Forall P l -> P (VTuple l)) ->
  (∀ l, Forall P l -> P (VList l)) ->
  (∀ l, Forall P l -> P (VSet l)) ->
  (∀ repr, P (VOther repr)) ->
  ∀ v, P v.
Proof.
  intros Hp Hd Ht Hl Hs Ho. fix IH 1. intros [dp|d|l|l|l|repr].
  - apply Hp.
  - apply Hd. induction d as [|[k v] d IHd]; constructor; [apply IH|exact IHd].
  - apply Ht. induction l as [|v l IHl]; constructor; [apply IH|exact IHl].
  - apply Hl. induction l as [|v l IHl]; constructor; [apply IH|exact IHl].
  - apply Hs. induction l as [|v l IHl]; constructor; [apply IH|exact IHl].
  - apply Ho.
Qed.

Section facts.
Context (old_dp new_dp : DataPipe).

(** The loop of [assign0] over a [dict] is [assign_items]. *)
Lemma assign0_dict d :
  assign0 old_dp new_dp (VDict d)
  = match assign_items old_dp new_dp d with
    | Err e => Err e
    | Ok d' => Ok (VDict d', None)
    end.
Proof.
  unfold assign0 at 1. simpl is_. cbv iota. fold (assign0 old_dp new_dp).
  match goal with
  | |- match ?f d with _ => _ end = _ =>
      assert (∀ d, f d = assign_items old_dp new_dp d) as ->; [|done]
  end.
  clear d. induction d as [|[k v] d IH]; [done|]. simpl.
  destruct (assign0 old_dp new_dp v) as [[v' [n|]]|e]; try done;
    try (by rewrite IH).
Qed.

(** A call with [inner_dp=False] is [assign0] and leaves the heap alone. *)
Lemma assign_attr_no_inner (h : heap) (obj : value) :
  _assign_attr old_dp new_dp h obj false
  = match assign0 old_dp new_dp obj with
    | Ok (obj', r) => Ok (h, obj', r)
    | Err e => Err e
    end.
Proof.
  revert h. induction obj as [dp|d IH|l IH|l IH|l IH|repr] using value_ind';
    intros h.
  - simpl. by case_bool_decide.
  - rewrite assign0_dict. simpl. by destruct (assign_items old_dp new_dp d).
  - simpl.
    match goal with
    | |- match ?f h l with _ => _ end = match match ?g l with _ => _ end with _ => _ end =>
        assert (f h l = match g l with
                        | Ok (l', t, b) => Ok (h, l', t, b)
                        | Err e => Err e
                        end) as ->
    end.
    { induction IH as [|o l Ho Hl IHl]; [done|].
      rewrite Ho. destruct (assign0 old_dp new_dp o) as [[o' r]|e]; [|done].
      rewrite IHl.
      match goal with |- context [?g l] => destruct (g l) as [[[l' t] b]|e] end;
        [|done]. by destruct r. }
    match goal with |- context [?g l] => destruct (g l) as [[[l' t] b]|e] end; done.
  - simpl.
    match goal with
    | |- match ?f h l with _ => _ end = match match ?g l with _ => _ end with _ => _ end =>
        assert (f h l = match g l with
                        | Ok l' => Ok (h, l')
                        | Err e => Err e
                        end) as ->
    end.
    { induction IH as [|o l Ho Hl IHl]; [done|].
      rewrite Ho. destruct (assign0 old_dp new_dp o) as [[o' [n|]]|e]; try done.
      rewrite IHl.
      match goal with |- context [?g l] => destruct (g l) as [l'|e] end; done. }
    match goal with |- context [?g l] => destruct (g l) as [l'|e] end; done.
  - simpl.
    match goal with
    | |- match ?f h l with _ => _ end = match match ?g l with _ => _ end with _ => _ end =>
        assert (f h l = match g l with
                        | Ok (l', b) => Ok (h, l', b)
                        | Err e => Err e
                        end) as ->
    end.
    { induction IH as [|o l Ho Hl IHl]; [done|].
      rewrite Ho. destruct (assign0 old_dp new_dp o) as [[o' [n|]]|e]; try done.
      rewrite IHl.
      match goal with |- context [?g l] => destruct (g l) as [[l' b]|e] end; done. }
    match goal with |- context [?g l] => destruct (g l) as [[l' [|]]|e] end;
      try done.
    by destruct (set_remove_add old_dp new_dp l').
  - done.
Qed.

(** *** Containers of datapipes and values that are not containers *)

Lemma assign0_leaf o :
  is_leaf o = true ->
  assign0 old_dp new_dp o
  = Ok (o, if is_ o old_dp then Some (VPipe new_dp) else None).
Proof. destruct o; try done; intros _; simpl; by case_bool_decide. Qed.

Lemma assign_items_flat d :
  forallb is_leaf d.*2 = true ->
  assign_items old_dp new_dp d = Ok (replace_first_item old_dp new_dp d).
Proof.
  induction d as [|[k v] d IH]; [done|]. simpl.
  intros [Hv Hd]%andb_prop. rewrite (assign0_leaf v Hv).
  destruct (is_ v old_dp); [done|]. by rewrite IH.
Qed.

Lemma assign0_list_flat l :
  forallb is_leaf l = true ->
  assign0 old_dp new_dp (VList l) = Ok (VList (replace_first old_dp new_dp l), None).
Proof.
  intros Hl. unfold assign0 at 1. simpl is_. cbv iota. fold (assign0 old_dp new_dp).
  match goal with
  | |- match ?f l with _ => _ end = _ =>
      assert (f l = Ok (replace_first old_dp new_dp l)) as ->; [|done]
  end.
  induction l as [|o l IH]; [done|]. simpl in *.
  apply andb_prop in Hl as [Ho Hl]. rewrite (assign0_leaf o Ho).
  destruct (is_ o old_dp); [done|]. by rewrite IH.
Qed.

Lemma assign0_tuple_flat l :
  forallb is_leaf l = true ->
  assign0 old_dp new_dp (VTuple l)
  = Ok (VTuple l,
        if existsb (fun o => is_ o old_dp) l
        then Some (VTuple (replace_all old_dp new_dp l)) else None).
Proof.
  intros Hl. unfold assign0 at 1. simpl is_. cbv iota. fold (assign0 old_dp new_dp).
  match goal with
  | |- match ?f l with _ => _ end = _ =>
      assert (f l = Ok (l, replace_all old_dp new_dp l,
                        existsb (fun o => is_ o old_dp) l)) as ->; [|done]
  end.
  induction l as [|o l IH]; [done|]. simpl in *.
  apply andb_prop in Hl as [Ho Hl]. rewrite (assign0_leaf o Ho), IH by done.
  by destruct (is_ o old_dp).
Qed.

Lemma assign0_set_flat l :
  forallb is_leaf l = true ->
  assign0 old_dp new_dp (VSet l)
  = if existsb (fun o => is_ o old_dp) l
    then match set_remove_add old_dp new_dp l with
         | Ok l' => Ok (VSet l', None)
         | Err e => Err e
         end
    else Ok (VSet l, None).
Proof.
  intros Hl. unfold assign0 at 1. simpl is_. cbv iota. fold (assign0 old_dp new_dp).
  match goal with
  | |- match ?f l with _ => _ end = _ =>
      assert (f l = Ok (l, existsb (fun o => is_ o old_dp) l)) as ->;
        [|by destruct (existsb _ l)]
  end.
  induction l as [|o l IH]; [done|]. simpl in *.
  apply andb_prop in Hl as [Ho Hl]. rewrite (assign0_leaf o Ho).
  destruct (is_ o old_dp); [done|]. by rewrite IH.
Qed.

(** [replace_first] changes at most one position. *)
Lemma replace_first_one l :
  length (replace_first old_dp new_dp l) = length l
  ∧ ∃ i : nat, ∀ j : nat, j ≠ i -> replace_first old_dp new_dp l !! j = l !! j.
Proof.
  induction l as [|o l [IHlen [i IH]]]; simpl.
  - split; [done|]. by exists O.
  - destruct (is_ o old_dp); simpl.
    + split; [done|]. exists O. by intros [|j] Hj.
    + split; [by rewrite IHlen|]. exists (S i). intros [|j] Hj; [done|].
      simpl. apply IH. lia.
Qed.

Lemma replace_first_item_values d :
  (replace_first_item old_dp new_dp d).*1 = d.*1
  ∧ (replace_first_item old_dp new_dp d).*2 = replace_first old_dp new_dp d.*2.
Proof.
  induction d as [|[k v] d [IH1 IH2]]; [done|]. simpl.
  destruct (is_ v old_dp); simpl; [done|]. split; f_equal; [apply IH1|apply IH2].
Qed.

End facts.




End RewriteFacts.

(* --------------------------------------------------------------------- *)
(** ** [replace_dp]                                                       *)
(* --------------------------------------------------------------------- *)

Module ReplaceFacts.
Import GraphUtils GraphFacts RewriteFacts.

Local Abbreviation heap := (gmap nat (list (string * value))).
Local Abbreviation gitems := (list (nat * (DataPipe * DataPipeGraph))).
Local Abbreviation entry := (nat * DataPipe * list nat)%type.

Lemma graph_size_rename f :
  (∀ g, graph_size (rename f g) = graph_size g)
  ∧ (∀ l : gitems, graph_size (rename f (Graph l)) = graph_size (Graph l)).
Proof.
  apply graph_items_ind.
  - intros l IH. apply IH.
  - done.
  - intros dp_id dp sub rest IHsub IHrest. simpl in *. by rewrite IHsub, IHrest.
Qed.


Section round_trip.
Context (old_dp new_dp : DataPipe) (Hne : py_id new_dp ≠ py_id old_dp).

Local Abbreviation Fo := (subst_items old_dp new_dp).

(** *** Values *)

Lemma occurrences_pipes_in dp v :
  occurrences dp v = 0%nat ↔ ∀ c, c ∈ pipes_in v -> py_id c ≠ py_id dp.
Proof.
  induction v as [d|d IH|l IH|l IH|l IH|repr] using value_ind'; simpl.
  - case_bool_decide as Hid; split; try done.
    + intros Hall. by specialize (Hall d ltac:(left)).
    + intros _ c ->%list_elem_of_singleton. done.
  - induction IH as [|[k v] d Hv Hd IHd]; simpl; [split; [by intros _ c ?%elem_of_nil|done]|].
    rewrite Nat.eq_add_0, Hv, IHd. setoid_rewrite elem_of_app. naive_solver.
  - induction IH as [|v l Hv Hl IHl]; simpl; [split; [by intros _ c ?%elem_of_nil|done]|].
    rewrite Nat.eq_add_0, Hv, IHl. setoid_rewrite elem_of_app. naive_solver.
  - induction IH as [|v l Hv Hl IHl]; simpl; [split; [by intros _ c ?%elem_of_nil|done]|].
    rewrite Nat.eq_add_0, Hv, IHl. setoid_rewrite elem_of_app. naive_solver.
  - induction IH as [|v l Hv Hl IHl]; simpl; [split; [by intros _ c ?%elem_of_nil|done]|].
    rewrite Nat.eq_add_0, Hv, IHl. setoid_rewrite elem_of_app. naive_solver.
  - split; [by intros _ c ?%elem_of_nil|done].
Qed.

Lemma occurrences_not_is dp v : occurrences dp v = 0%nat -> is_ v dp = false.
Proof. destruct v; try done. simpl. by case_bool_decide. Qed.

Lemma occurrences_leaf dp v :
  is_leaf v = true -> occurrences dp v = if is_ v dp then 1%nat else 0%nat.
Proof. by destruct v. Qed.

(** A value without a reference to [old_dp] is left as it is. *)
Lemma assign0_absent v :
  occurrences old_dp v = 0%nat -> assign0 old_dp new_dp v = Ok (v, None).
Proof.
  induction v as [d|d IH|l IH|l IH|l IH|repr] using value_ind'; intros Hocc.
  - simpl in *. by case_bool_decide.
  - rewrite assign0_dict.
    assert (assign_items old_dp new_dp d = Ok d) as ->; [|done].
    simpl in Hocc. induction IH as [|[k v] d Hv Hd IHd]; [done|].
    simpl in *. apply Nat.eq_add_0 in Hocc as [H1 H2].
    by rewrite Hv, IHd.
  - unfold assign0 at 1. simpl is_. cbv iota. fold (assign0 old_dp new_dp).
    match goal with
    | |- match ?f l with _ => _ end = _ =>
        assert (f l = Ok (l, l, false)) as ->; [|done]
    end.
    simpl in Hocc. induction IH as [|v l Hv Hl IHl]; [done|].
    simpl in *. apply Nat.eq_add_0 in Hocc as [H1 H2].
    by rewrite Hv, IHl.
  - unfold assign0 at 1. simpl is_. cbv iota. fold (assign0 old_dp new_dp).
    match goal with
    | |- match ?f l with _ => _ end = _ =>
        assert (f l = Ok l) as ->; [|done]
    end.
    simpl in Hocc. induction IH as [|v l Hv Hl IHl]; [done|].
    simpl in *. apply Nat.eq_add_0 in Hocc as [H1 H2].
    by rewrite Hv, IHl.
  - unfold assign0 at 1. simpl is_. cbv iota. fold (assign0 old_dp new_dp).
    match goal with
    | |- match ?f l with _ => _ end = _ =>
        assert (f l = Ok (l, false)) as ->; [|done]
    end.
    simpl in Hocc. induction IH as [|v l Hv Hl IHl]; [done|].
    simpl in *. apply Nat.eq_add_0 in Hocc as [H1 H2].
    by rewrite Hv, IHl.
  - done.
Qed.

Lemma assign_items_absent d :
  (∀ kv, kv ∈ d -> occurrences old_dp kv.2 = 0%nat) ->
  assign_items old_dp new_dp d = Ok d.
Proof.
  induction d as [|[k v] d IH]; intros Hd; [done|]. simpl.
  rewrite (assign0_absent v (Hd (k, v) ltac:(left))).
  rewrite IH; [done|]. intros kv Hkv. apply Hd. by right.
Qed.

(** *** The substitution *)

Lemma subst_absent v : occurrences old_dp v = 0%nat -> subst old_dp new_dp v = v.
Proof.
  induction v as [d|d IH|l IH|l IH|l IH|repr] using value_ind'; simpl; intros Hocc.
  - by case_bool_decide.
  - f_equal. induction IH as [|[k v] d Hv Hd IHd]; [done|].
    simpl in *. apply Nat.eq_add_0 in Hocc as [H1 H2]. by rewrite Hv, IHd.
  - f_equal. induction IH as [|v l Hv Hl IHl]; [done|].
    simpl in *. apply Nat.eq_add_0 in Hocc as [H1 H2]. by rewrite Hv, IHl.
  - f_equal. induction IH as [|v l Hv Hl IHl]; [done|].
    simpl in *. apply Nat.eq_add_0 in Hocc as [H1 H2]. by rewrite Hv, IHl.
  - f_equal. induction IH as [|v l Hv Hl IHl]; [done|].
    simpl in *. apply Nat.eq_add_0 in Hocc as [H1 H2]. by rewrite Hv, IHl.
  - done.
Qed.

Lemma subst_no_old v : occurrences old_dp (subst old_dp new_dp v) = 0%nat.
Proof.
  induction v as [d|d IH|l IH|l IH|l IH|repr] using value_ind'; simpl.
  - case_bool_decide; simpl; by rewrite bool_decide_eq_false_2.
  - induction IH as [|[k v] d Hv Hd IHd]; [done|]. simpl in *. by rewrite Hv, IHd.
  - induction IH as [|v l Hv Hl IHl]; [done|]. simpl in *. by rewrite Hv, IHl.
  - induction IH as [|v l Hv Hl IHl]; [done|]. simpl in *. by rewrite Hv, IHl.
  - induction IH as [|v l Hv Hl IHl]; [done|]. simpl in *. by rewrite Hv, IHl.
  - done.
Qed.

(** The references to [new_dp] afterwards are those to [old_dp] before. *)
Lemma occurrences_subst v :
  occurrences new_dp v = 0%nat ->
  occurrences new_dp (subst old_dp new_dp v) = occurrences old_dp v.
Proof.
  induction v as [d|d IH|l IH|l IH|l IH|repr] using value_ind'; simpl; intros Hn.
  - destruct (decide (py_id d = py_id old_dp)) as [Ho|Ho].
    + rewrite !(bool_decide_eq_true_2 (py_id d = py_id old_dp)) by done. simpl.
      by rewrite bool_decide_eq_true_2.
    + rewrite !(bool_decide_eq_false_2 (py_id d = py_id old_dp)) by done. done.
  - induction IH as [|[k v] d Hv Hd IHd]; [done|].
    simpl in *. apply Nat.eq_add_0 in Hn as [H1 H2]. by rewrite Hv, IHd.
  - induction IH as [|v l Hv Hl IHl]; [done|].
    simpl in *. apply Nat.eq_add_0 in Hn as [H1 H2]. by rewrite Hv, IHl.
  - induction IH as [|v l Hv Hl IHl]; [done|].
    simpl in *. apply Nat.eq_add_0 in Hn as [H1 H2]. by rewrite Hv, IHl.
  - induction IH as [|v l Hv Hl IHl]; [done|].
    simpl in *. apply Nat.eq_add_0 in Hn as [H1 H2]. by rewrite Hv, IHl.
  - done.
Qed.

(** The datapipes a value refers to, after the substitution. *)
Lemma pipes_subst v :
  pipes_in (subst old_dp new_dp v) = map (ren old_dp new_dp) (pipes_in v).
Proof.
  induction v as [d|d IH|l IH|l IH|l IH|repr] using value_ind'; simpl.
  - unfold ren. by case_bool_decide.
  - induction IH as [|[k v] d Hv Hd IHd]; [done|].
    simpl in *. by rewrite map_app, Hv, IHd.
  - induction IH as [|v l Hv Hl IHl]; [done|]. simpl in *. by rewrite map_app, Hv, IHl.
  - induction IH as [|v l Hv Hl IHl]; [done|]. simpl in *. by rewrite map_app, Hv, IHl.
  - induction IH as [|v l Hv Hl IHl]; [done|]. simpl in *. by rewrite map_app, Hv, IHl.
  - done.
Qed.

(** Substituting back restores a value that did not refer to [new_dp]. *)
Lemma subst_back v :
  occurrences new_dp v = 0%nat ->
  (∀ c, c ∈ pipes_in v -> py_id c = py_id old_dp -> c = old_dp) ->
  subst new_dp old_dp (subst old_dp new_dp v) = v.
Proof.
  induction v as [d|d IH|l IH|l IH|l IH|repr] using value_ind'; simpl; intros Hn Hs.
  - destruct (decide (py_id d = py_id old_dp)) as [Ho|Ho].
    + rewrite (bool_decide_eq_true_2 _ Ho). simpl.
      rewrite bool_decide_eq_true_2 by done. f_equal. symmetry. apply Hs; [left|done].
    + rewrite (bool_decide_eq_false_2 _ Ho). simpl.
      by destruct (bool_decide (py_id d = py_id new_dp)).
  - f_equal. induction IH as [|[k v] d Hv Hd IHd]; [done|].
    simpl in *. apply Nat.eq_add_0 in Hn as [H1 H2].
    rewrite Hv, IHd; [done|done| | |]; try done.
    + intros c Hc. apply Hs, elem_of_app. by right.
    + intros c Hc. apply Hs, elem_of_app. by left.
  - f_equal. induction IH as [|v l Hv Hl IHl]; [done|].
    simpl in *. apply Nat.eq_add_0 in Hn as [H1 H2].
    rewrite Hv, IHl; [done|done| | |]; try done.
    + intros c Hc. apply Hs, elem_of_app. by right.
    + intros c Hc. apply Hs, elem_of_app. by left.
  - f_equal. induction IH as [|v l Hv Hl IHl]; [done|].
    simpl in *. apply Nat.eq_add_0 in Hn as [H1 H2].
    rewrite Hv, IHl; [done|done| | |]; try done.
    + intros c Hc. apply Hs, elem_of_app. by right.
    + intros c Hc. apply Hs, elem_of_app. by left.
  - f_equal. induction IH as [|v l Hv Hl IHl]; [done|].
    simpl in *. apply Nat.eq_add_0 in Hn as [H1 H2].
    rewrite Hv, IHl; [done|done| | |]; try done.
    + intros c Hc. apply Hs, elem_of_app. by right.
    + intros c Hc. apply Hs, elem_of_app. by left.
  - done.
Qed.

Lemma is_leaf_subst v : is_leaf (subst old_dp new_dp v) = is_leaf v.
Proof. destruct v; try done. simpl. by case_bool_decide. Qed.

Lemma forallb_leaf_subst l :
  forallb is_leaf (map (subst old_dp new_dp) l) = forallb is_leaf l.
Proof. induction l as [|v l IH]; [done|]. simpl. by rewrite is_leaf_subst, IH. Qed.

Lemma subst_items_values d :
  (subst_items old_dp new_dp d).*2 = map (subst old_dp new_dp) d.*2.
Proof.
  unfold subst_items. induction d as [|[k v] d IH]; [done|]. simpl. f_equal. apply IH.
Qed.

Lemma map_subst_absent l :
  list_sum (map (occurrences old_dp) l) = 0%nat -> map (subst old_dp new_dp) l = l.
Proof.
  intros Hl. pose proof (subst_absent (VList l) Hl) as Heq. simpl in Heq. congruence.
Qed.

(** *** Containers of datapipes and values that are not containers *)

Lemma replace_all_subst l :
  forallb is_leaf l = true -> replace_all old_dp new_dp l = map (subst old_dp new_dp) l.
Proof.
  unfold replace_all. induction l as [|o l IH]; [done|]. simpl.
  intros [Ho Hl]%andb_prop. f_equal; [by destruct o|by apply IH].
Qed.

Lemma replace_first_subst l :
  forallb is_leaf l = true -> (list_sum (map (occurrences old_dp) l) <= 1)%nat ->
  replace_first old_dp new_dp l = map (subst old_dp new_dp) l.
Proof.
  induction l as [|o l IH]; [done|]. simpl. intros [Ho Hl]%andb_prop.
  rewrite (occurrences_leaf old_dp o Ho). destruct (is_ o old_dp) eqn:Hio; intros Hocc.
  - rewrite map_subst_absent by lia. f_equal. destruct o; try done. simpl in *.
    by rewrite Hio.
  - rewrite IH by done. f_equal. destruct o; try done. simpl in *. by rewrite Hio.
Qed.

Lemma replace_first_item_subst d :
  forallb is_leaf d.*2 = true ->
  (list_sum (map (fun kv => occurrences old_dp kv.2) d) <= 1)%nat ->
  replace_first_item old_dp new_dp d = subst_items old_dp new_dp d.
Proof.
  induction d as [|[k o] d IH]; [done|].
  change (subst_items old_dp new_dp ((k, o) :: d))
    with ((k, subst old_dp new_dp o) :: subst_items old_dp new_dp d).
  simpl. intros [Ho Hl]%andb_prop.
  rewrite (occurrences_leaf old_dp o Ho). destruct (is_ o old_dp) eqn:Hio; intros Hocc.
  - assert (subst_items old_dp new_dp d = d) as ->.
    { assert (occurrences old_dp (VDict d) = 0%nat) as Hz by (simpl; lia).
      apply subst_absent in Hz. simpl in Hz. unfold subst_items. congruence. }
    f_equal. destruct o; try done. simpl in *. by rewrite Hio.
  - rewrite IH by done. f_equal. destruct o; try done. simpl in *. by rewrite Hio.
Qed.

Lemma existsb_occurrences l :
  forallb is_leaf l = true -> list_sum (map (occurrences old_dp) l) ≠ 0%nat ->
  existsb (fun o => is_ o old_dp) l = true.
Proof.
  induction l as [|o l IH]; [done|]. simpl. intros [Ho Hl]%andb_prop.
  rewrite (occurrences_leaf old_dp o Ho). destruct (is_ o old_dp); [done|].
  simpl. by apply IH.
Qed.

(** One call on a value held in one of the ways of [one_step] substitutes
    [new_dp] for every reference to [old_dp]: in the value returned, for a
    datapipe and a tuple, and in place for a list and a [dict]. *)
Lemma assign0_one_step v :
  occurrences old_dp v ≠ 0%nat -> one_step old_dp v = true ->
  assign0 old_dp new_dp v = Ok (v, Some (subst old_dp new_dp v))
  ∨ assign0 old_dp new_dp v = Ok (subst old_dp new_dp v, None).
Proof.
  destruct v as [c|d|l|l|l|r]; intros Hocc Hstep; try done.
  - left. simpl in *. by case_bool_decide.
  - right. simpl in Hstep. apply andb_prop in Hstep as [Hflat Hone%bool_decide_eq_true].
    rewrite assign0_dict, assign_items_flat by done.
    rewrite replace_first_item_subst; [done|done|]. simpl in Hone. lia.
  - left. simpl in Hstep.
    rewrite assign0_tuple_flat, existsb_occurrences, replace_all_subst by done. done.
  - right. simpl in Hstep. apply andb_prop in Hstep as [Hflat Hone%bool_decide_eq_true].
    rewrite assign0_list_flat by done.
    rewrite replace_first_subst; [done|done|]. simpl in Hone. lia.
Qed.

Lemma one_step_subst v :
  one_step old_dp v = true -> occurrences new_dp v = 0%nat ->
  one_step new_dp (subst old_dp new_dp v) = true.
Proof.
  intros Hstep Hn. pose proof (occurrences_subst v Hn) as Hocc.
  destruct v as [c|d|l|l|l|r]; try done.
  - simpl. by case_bool_decide.
  - cbn [one_step] in Hstep.
    apply andb_prop in Hstep as [Hflat Hone%bool_decide_eq_true].
    change (one_step new_dp (subst old_dp new_dp (VDict d)))
      with (forallb is_leaf (subst_items old_dp new_dp d).*2
            && bool_decide (occurrences new_dp (subst old_dp new_dp (VDict d)) = 1%nat)).
    rewrite Hocc, Hone, subst_items_values, forallb_leaf_subst, Hflat. done.
  - cbn [one_step] in Hstep.
    change (one_step new_dp (subst old_dp new_dp (VTuple l)))
      with (forallb is_leaf (map (subst old_dp new_dp) l)).
    by rewrite forallb_leaf_subst.
  - cbn [one_step] in Hstep.
    apply andb_prop in Hstep as [Hflat Hone%bool_decide_eq_true].
    change (one_step new_dp (subst old_dp new_dp (VList l)))
      with (forallb is_leaf (map (subst old_dp new_dp) l)
            && bool_decide (occurrences new_dp (subst old_dp new_dp (VList l)) = 1%nat)).
    rewrite Hocc, Hone, forallb_leaf_subst, Hflat. done.
Qed.

Lemma same_pipes_spec dp v :
  same_pipes dp v = true -> ∀ c, c ∈ pipes_in v -> py_id c = py_id dp -> c = dp.
Proof.
  unfold same_pipes. rewrite forallb_forall. intros Hall c Hc%list_elem_of_In.
  apply Hall in Hc. by apply bool_decide_eq_true in Hc.
Qed.

Lemma same_pipes_subst v :
  occurrences new_dp v = 0%nat -> same_pipes new_dp (subst old_dp new_dp v) = true.
Proof.
  intros Hn. unfold same_pipes. rewrite pipes_subst. apply forallb_forall.
  intros c (c0 & <- & Hc0%list_elem_of_In)%in_map_iff. apply bool_decide_eq_true.
  unfold ren. case_bool_decide; [done|]. intros Hid. exfalso.
  by apply (proj1 (occurrences_pipes_in new_dp v) Hn c0).
Qed.

(** *** The attributes of a receiver *)

Lemma no_ref_spec dp d :
  no_ref dp d = true -> ∀ kv, kv ∈ d -> occurrences dp kv.2 = 0%nat.
Proof.
  unfold no_ref. rewrite forallb_forall. intros Hall kv Hkv%list_elem_of_In.
  apply Hall in Hkv. by apply bool_decide_eq_true in Hkv.
Qed.

Lemma simple_ref_absent dp d :
  (∀ kv, kv ∈ d -> occurrences dp kv.2 = 0%nat) -> simple_ref dp d = true.
Proof.
  induction d as [|[k v] d IH]; intros Hd; [done|]. simpl.
  rewrite bool_decide_eq_true_2 by (apply (Hd (k, v)); left).
  apply IH. intros kv Hkv. apply Hd. by right.
Qed.

Lemma simple_ref_same dp d :
  simple_ref dp d = true ->
  ∀ kv, kv ∈ d -> ∀ c, c ∈ pipes_in kv.2 -> py_id c = py_id dp -> c = dp.
Proof.
  induction d as [|[k v] d IH]; [by intros _ kv ?%elem_of_nil|]. simpl.
  case_bool_decide as Hv.
  - intros Hd kv [->|Hkv]%elem_of_cons; [|by apply IH].
    simpl. intros c Hc Hid. by destruct (proj1 (occurrences_pipes_in dp v) Hv c Hc).
  - intros [[Hstep Hsame]%andb_prop Hrest]%andb_prop kv [->|Hkv]%elem_of_cons.
    + by apply same_pipes_spec.
    + intros c Hc Hid.
      by destruct (proj1 (occurrences_pipes_in dp kv.2) (no_ref_spec _ _ Hrest kv Hkv) c Hc).
Qed.

Lemma Fo_absent d :
  (∀ kv, kv ∈ d -> occurrences old_dp kv.2 = 0%nat) -> Fo d = d.
Proof.
  induction d as [|[k v] d IH]; intros Hd; [done|]. simpl.
  rewrite (subst_absent v (Hd (k, v) ltac:(left))). f_equal.
  apply IH. intros kv Hkv. apply Hd. by right.
Qed.

Lemma Fo_no_old_left d : ∀ kv, kv ∈ Fo d -> occurrences old_dp kv.2 = 0%nat.
Proof.
  intros kv (kv0 & -> & _)%list_elem_of_fmap. apply subst_no_old.
Qed.

Lemma Fo_idem d : Fo (Fo d) = Fo d.
Proof. apply Fo_absent, Fo_no_old_left. Qed.

(** One call on a receiver rewrites its attributes in full. *)
Lemma assign_items_simple d :
  simple_ref old_dp d = true -> assign_items old_dp new_dp d = Ok (Fo d).
Proof.
  induction d as [|[k v] d IH]; [done|]. simpl.
  case_bool_decide as Hv.
  - intros Hd. rewrite (assign0_absent v Hv), IH by done. by rewrite (subst_absent v Hv).
  - intros [[Hstep Hsame]%andb_prop Hrest]%andb_prop.
    pose proof (no_ref_spec _ _ Hrest) as Hd.
    fold (subst_items old_dp new_dp d). rewrite (Fo_absent d Hd).
    destruct (assign0_one_step v Hv Hstep) as [-> | ->]; [done|].
    by rewrite (assign_items_absent d Hd).
Qed.

(** Substituting back restores the attributes. *)
Lemma Fn_Fo d :
  simple_ref old_dp d = true -> no_ref new_dp d = true ->
  subst_items new_dp old_dp (Fo d) = d.
Proof.
  intros Hs Hn. pose proof (simple_ref_same _ _ Hs) as Hsame.
  pose proof (no_ref_spec _ _ Hn) as Hno. clear Hs Hn.
  induction d as [|[k v] d IH]; [done|]. simpl.
  rewrite subst_back.
  - f_equal. apply IH; intros kv Hkv; [apply Hsame|apply Hno]; by right.
  - apply (Hno (k, v)). left.
  - apply (Hsame (k, v)). left.
Qed.

(** After the replacement the attributes hold [new_dp] the way they held
    [old_dp]. *)
Lemma simple_ref_subst d :
  simple_ref old_dp d = true -> no_ref new_dp d = true ->
  simple_ref new_dp (Fo d) = true.
Proof.
  induction d as [|[k v] d IH]; [done|]. simpl.
  intros Hs [Hv%bool_decide_eq_true Hn]%andb_prop.
  rewrite (occurrences_subst v Hv).
  destruct (decide (occurrences old_dp v = 0%nat)) as [Ho|Ho].
  - rewrite (bool_decide_eq_true_2 _ Ho) in *. by apply IH.
  - rewrite (bool_decide_eq_false_2 _ Ho) in *.
    apply andb_prop in Hs as [[Hstep Hsame]%andb_prop Hrest].
    rewrite (one_step_subst v Hstep Hv), (same_pipes_subst v Hv). simpl.
    fold (subst_items old_dp new_dp d).
    by rewrite (Fo_absent d (no_ref_spec _ _ Hrest)).
Qed.

(** The datapipes the attributes refer to, after the replacement. *)
Lemma pipes_Fo d :
  flat_map (fun kv => pipes_in kv.2) (Fo d)
  = map (ren old_dp new_dp) (flat_map (fun kv : string * value => pipes_in kv.2) d).
Proof.
  induction d as [|[k v] d IH]; [done|]. simpl. by rewrite map_app, pipes_subst, <- IH.
Qed.

Lemma dedup_ren (l : list DataPipe) : ∀ seen : list nat,
  py_id new_dp ∉ seen -> (∀ c, c ∈ l -> py_id c ≠ py_id new_dp) ->
  dedup (map (fun x => if bool_decide (x = py_id old_dp) then py_id new_dp else x) seen)
    (map (ren old_dp new_dp) l)
  = map (ren old_dp new_dp) (dedup seen l).
Proof.
  induction l as [|c l IH]; intros seen Hseen Hl; [done|]. simpl.
  assert (py_id c ≠ py_id new_dp) as Hc by (apply Hl; left).
  assert (py_id (ren old_dp new_dp c)
          = if bool_decide (py_id c = py_id old_dp) then py_id new_dp else py_id c)
    as Hid by (unfold ren; by case_bool_decide).
  assert (py_id (ren old_dp new_dp c)
            ∈ map (fun x => if bool_decide (x = py_id old_dp) then py_id new_dp else x) seen
          ↔ py_id c ∈ seen) as Hin.
  { rewrite Hid. split.
    - intros (y & Hy & Hyin)%list_elem_of_fmap.
      repeat case_bool_decide; subst; try done; congruence.
    - intros Hcin. apply list_elem_of_fmap. by exists (py_id c). }
  destruct (decide (py_id c ∈ seen)) as [Hs|Hs].
  - rewrite (bool_decide_eq_true_2 _ Hs), (bool_decide_eq_true_2 _ (proj2 Hin Hs)).
    apply IH; [done|]. intros c' Hc'. apply Hl. by right.
  - rewrite (bool_decide_eq_false_2 _ Hs).
    rewrite (bool_decide_eq_false_2 _ (fun H => Hs (proj1 Hin H))).
    simpl. f_equal.
    specialize (IH (py_id c :: seen)). simpl in IH. rewrite <- Hid in IH.
    apply IH.
    + intros [?|?]%elem_of_cons; [congruence|done].
    + intros c' Hc'. apply Hl. by right.
Qed.

Lemma dedup_subseteq (l : list DataPipe) : ∀ seen c, c ∈ dedup seen l -> c ∈ l.
Proof.
  induction l as [|a l IH]; intros seen c; simpl; [done|].
  case_bool_decide.
  - intros Hc. right. by apply (IH seen).
  - intros [->|Hc]%elem_of_cons; [left|right; by apply (IH (py_id a :: seen))].
Qed.

Lemma dedup_has_id (l : list DataPipe) : ∀ seen c,
  c ∈ l -> py_id c ∈ seen ∨ ∃ c', c' ∈ dedup seen l ∧ py_id c' = py_id c.
Proof.
  induction l as [|a l IH]; intros seen c; simpl; [by intros ?%elem_of_nil|].
  intros [->|Hc]%elem_of_cons.
  - case_bool_decide; [by left|]. right. exists a. split; [left|done].
  - case_bool_decide.
    + destruct (IH seen c Hc) as [?|(c' & ? & ?)]; [by left|].
      right. by exists c'.
    + destruct (IH (py_id a :: seen) c Hc) as [[Heq|?]%elem_of_cons|(c' & ? & ?)].
      * right. exists a. split; [left|done].
      * by left.
      * right. exists c'. split; [by right|done].
Qed.

(** The predecessors of a receiver after the replacement. *)
Lemma connected_Fo (h h1 : heap) (X : DataPipe) :
  __dict__ h1 X = Fo (__dict__ h X) ->
  no_ref new_dp (__dict__ h X) = true ->
  connected h1 X = map (ren old_dp new_dp) (connected h X).
Proof.
  intros Hd Hn. unfold connected. rewrite Hd, pipes_Fo.
  apply (dedup_ren _ []); [by intros ?%elem_of_nil|].
  intros c Hc. apply list_elem_of_In, in_flat_map in Hc as (kv & Hkv%list_elem_of_In & Hc).
  apply list_elem_of_In in Hc.
  by apply (proj1 (occurrences_pipes_in new_dp kv.2) (no_ref_spec _ _ Hn kv Hkv)).
Qed.

(** A receiver that does not refer to [old_dp] keeps its attributes. *)
Lemma Fo_no_old (h : heap) (X : DataPipe) :
  (∀ c, c ∈ connected h X -> py_id c ≠ py_id old_dp) ->
  Fo (__dict__ h X) = __dict__ h X.
Proof.
  intros Hc. apply Fo_absent. intros kv Hkv.
  apply occurrences_pipes_in. intros c Hcin Hid.
  assert (c ∈ flat_map (fun kv : string * value => pipes_in kv.2) (__dict__ h X)) as Hin.
  { apply list_elem_of_In, in_flat_map. exists kv. by rewrite <- !list_elem_of_In. }
  destruct (dedup_has_id _ [] _ Hin) as [?%elem_of_nil|(c' & Hc' & Hid')]; [done|].
  apply (Hc c' Hc'). congruence.
Qed.

(** *** The heap after a walk *)

Lemma dict_alter (k : nat) (h : heap) (X : DataPipe) :
  __dict__ (alter Fo k h) X
  = if bool_decide (k = py_id X) then Fo (__dict__ h X) else __dict__ h X.
Proof.
  unfold __dict__. rewrite lookup_alter. case_bool_decide as Hk.
  - subst k. rewrite decide_True by done. by destruct (h !! py_id X).
  - by rewrite decide_False.
Qed.

(** A call on a receiver that holds [old_dp] in a simple way, if at all. *)
Lemma assign_attr_recv (h : heap) (X : DataPipe) :
  py_id X ≠ py_id old_dp ->
  simple_ref old_dp (__dict__ h X) = true ->
  _assign_attr old_dp new_dp h (VPipe X) true
  = Ok (alter Fo (py_id X) h, VPipe X, None).
Proof.
  intros HX Hd. simpl. rewrite bool_decide_eq_false_2 by done.
  rewrite alter_alt. unfold __dict__ in Hd.
  destruct (h !! py_id X) as [d|]; [|done]. simpl in Hd.
  by rewrite assign_items_simple.
Qed.

Lemma assign_all_cons (X : DataPipe) (l : list DataPipe) (h : heap) :
  assign_all old_dp new_dp (X :: l) h
  = match _assign_attr old_dp new_dp h (VPipe X) true with
    | Err e => Err e
    | Ok (h', _, _) => assign_all old_dp new_dp l h'
    end.
Proof. done. Qed.

Lemma assign_all_alter (l : list DataPipe) : ∀ h : heap,
  (∀ X, X ∈ l -> py_id X ≠ py_id old_dp) ->
  (∀ X, X ∈ l -> simple_ref old_dp (__dict__ h X) = true) ->
  assign_all old_dp new_dp l h
  = Ok (foldl (fun h X => alter Fo (py_id X) h) h l).
Proof.
  induction l as [|X l IH]; intros h Hid Hd; [done|]. rewrite assign_all_cons.
  rewrite assign_attr_recv; [|apply Hid; left|apply Hd; left].
  simpl. apply IH.
  - intros Y HY. apply Hid. by right.
  - intros Y HY. rewrite dict_alter. case_bool_decide.
    + apply simple_ref_absent, Fo_no_old_left.
    + apply Hd. by right.
Qed.

Lemma assign_all_app (l1 l2 : list DataPipe) (h : heap) :
  assign_all old_dp new_dp (l1 ++ l2) h
  = match assign_all old_dp new_dp l1 h with
    | Ok h' => assign_all old_dp new_dp l2 h'
    | Err e => Err e
    end.
Proof.
  revert h. induction l1 as [|X l1 IH]; intros h; [done|].
  change ((X :: l1) ++ l2) with (X :: (l1 ++ l2)). rewrite !assign_all_cons.
  destruct (_assign_attr old_dp new_dp h (VPipe X) true) as [[[h' o] r]|e]; [|done].
  apply IH.
Qed.

(** [_replace_dp] calls [_assign_attr] on the receivers [walk_calls] lists. *)
Lemma replace_dp_walk :
  (∀ g (h : heap) R,
     _replace_dp old_dp new_dp h R g
     = assign_all old_dp new_dp (walk_calls (py_id old_dp) R g) h)
  ∧ (∀ (l : gitems) (h : heap) R,
       _replace_dp old_dp new_dp h R (Graph l)
       = assign_all old_dp new_dp (walk_calls (py_id old_dp) R (Graph l)) h).
Proof.
  apply graph_items_ind.
  - intros l IH. apply IH.
  - done.
  - intros dp_id dp sub rest IHsub IHrest h R.
    change (walk_calls (py_id old_dp) R (Graph ((dp_id, (dp, sub)) :: rest)))
      with ((if bool_decide (dp_id = py_id old_dp) then [R]
             else walk_calls (py_id old_dp) dp sub)
            ++ walk_calls (py_id old_dp) R (Graph rest)).
    rewrite assign_all_app.
    change (_replace_dp old_dp new_dp h R (Graph ((dp_id, (dp, sub)) :: rest)))
      with (if bool_decide (dp_id = py_id old_dp)
            then match _assign_attr old_dp new_dp h (VPipe R) true with
                 | Err e => Err e
                 | Ok (h', _, _) => _replace_dp old_dp new_dp h' R (Graph rest)
                 end
            else match _replace_dp old_dp new_dp h dp sub with
                 | Err e => Err e
                 | Ok h' => _replace_dp old_dp new_dp h' R (Graph rest)
                 end).
    case_bool_decide.
    + rewrite assign_all_cons.
      destruct (_assign_attr old_dp new_dp h (VPipe R) true) as [[[h' o] r]|e];
        [|done]. apply (IHrest h' R).
    + rewrite <- IHsub.
      destruct (_replace_dp old_dp new_dp h dp sub) as [h'|e]; [|done].
      apply (IHrest h' R).
Qed.

End round_trip.

(** *** Walks and traversals *)

Lemma lookup_foldl_alter (F : list (string * value) -> list (string * value))
    (l : list DataPipe) (h : heap) (x : nat) :
  (x ∈ map py_id l -> ∀ d, h !! x = Some d -> F (F d) = F d) ->
  foldl (fun h X => alter F (py_id X) h) h l !! x
  = if bool_decide (x ∈ map py_id l) then F <$> h !! x else h !! x.
Proof.
  induction l as [|X l IH] using rev_ind; intros Hidem; [done|].
  rewrite foldl_app. simpl. rewrite lookup_alter, map_app. simpl.
  assert (foldl (fun h X => alter F (py_id X) h) h l !! x
          = if bool_decide (x ∈ map py_id l) then F <$> h !! x else h !! x) as IH'.
  { apply IH. intros Hx. apply Hidem. rewrite map_app. set_solver. }
  destruct (decide (py_id X = x)) as [Hx|Hx].
  - rewrite Hx, IH'.
    assert (x ∈ map py_id l ++ [x]) as Hin by set_solver.
    rewrite (bool_decide_eq_true_2 _ Hin).
    destruct (bool_decide (x ∈ map py_id l)); [|done].
    destruct (h !! x) as [d|] eqn:Hd; [|done]. simpl. f_equal.
    apply Hidem; [|done]. rewrite map_app. simpl. rewrite Hx. set_solver.
  - rewrite IH'.
    destruct (decide (x ∈ map py_id l)) as [Hl|Hl].
    + rewrite !bool_decide_eq_true_2; [done|set_solver|done].
    + rewrite !bool_decide_eq_false_2; [done|set_solver|done].
Qed.

Lemma size_foldl_alter (F : list (string * value) -> list (string * value))
    (l : list DataPipe) (h : heap) :
  size (foldl (fun h X => alter F (py_id X) h) h l) = size h.
Proof.
  induction l as [|X l IH] using rev_ind; [done|].
  rewrite foldl_app. simpl. rewrite alter_alt.
  destruct (_ !! py_id X) eqn:Hx; [|done].
  by rewrite map_size_insert_Some.
Qed.

Lemma walk_calls_app t R (l1 l2 : gitems) :
  walk_calls t R (Graph (l1 ++ l2))
  = walk_calls t R (Graph l1) ++ walk_calls t R (Graph l2).
Proof. simpl. apply flat_map_app. Qed.

Lemma walk_calls_items t R g : walk_calls t R (Graph (items g)) = walk_calls t R g.
Proof. by destruct g. Qed.

Lemma walk_calls_flat_map {A} t R (f : A -> DataPipeGraph) (l : list A) :
  walk_calls t R (Graph (flat_map (fun a => items (f a)) l))
  = flat_map (fun a => walk_calls t R (f a)) l.
Proof.
  induction l as [|a l IH]; [done|].
  change (flat_map (fun a => items (f a)) (a :: l))
    with (items (f a) ++ flat_map (fun a => items (f a)) l).
  rewrite walk_calls_app, IH, walk_calls_items. done.
Qed.

(** No call is made for a target that is not a key of the graph. *)
Lemma walk_calls_none t :
  (∀ g R, t ∉ map (fun e : entry => e.1.1) (graph_entries g) -> walk_calls t R g = [])
  ∧ (∀ (l : gitems) R, t ∉ map (fun e : entry => e.1.1) (items_entries l) ->
       walk_calls t R (Graph l) = []).
Proof.
  apply graph_items_ind.
  - intros l IH R. rewrite graph_entries_Graph. apply IH.
  - done.
  - intros dp_id dp sub rest IHsub IHrest R Ht. simpl in Ht.
    rewrite map_app in Ht.
    apply not_elem_of_cons in Ht as [Hne Ht].
    apply not_elem_of_app in Ht as [Hs Hr].
    change (walk_calls t R (Graph ((dp_id, (dp, sub)) :: rest)))
      with ((if bool_decide (dp_id = t) then [R] else walk_calls t dp sub)
            ++ walk_calls t R (Graph rest)).
    rewrite bool_decide_eq_false_2 by done. by rewrite IHsub, IHrest.
Qed.

(** The receivers are the given one and pipes of the graph, and in a graph
    keyed by identity none of the latter is the target. *)
Lemma walk_calls_pipes t :
  (∀ g R X, X ∈ walk_calls t R g ->
     X = R ∨ ∃ e : entry, e ∈ graph_entries g ∧ e.1.2 = X ∧ e.1.1 ≠ t)
  ∧ (∀ (l : gitems) R X, X ∈ walk_calls t R (Graph l) ->
       X = R ∨ ∃ e : entry, e ∈ items_entries l ∧ e.1.2 = X ∧ e.1.1 ≠ t).
Proof.
  apply graph_items_ind.
  - intros l IH R X. rewrite graph_entries_Graph. apply IH.
  - intros R X HX. by apply elem_of_nil in HX.
  - intros dp_id dp sub rest IHsub IHrest R X.
    change (walk_calls t R (Graph ((dp_id, (dp, sub)) :: rest)))
      with ((if bool_decide (dp_id = t) then [R] else walk_calls t dp sub)
            ++ walk_calls t R (Graph rest)).
    intros [HX|HX]%elem_of_app.
    + case_bool_decide as Hk.
      * left. by apply list_elem_of_singleton in HX.
      * right. destruct (IHsub dp X HX) as [->|(e & He & <- & Ht)].
        -- exists (dp_id, dp, (items sub).*1). simpl. split; [left|done].
        -- exists e. simpl. split; [|done]. right. apply elem_of_app. by left.
    + destruct (IHrest R X HX) as [->|(e & He & <- & Ht)]; [by left|].
      right. exists e. simpl. split; [|done]. right. apply elem_of_app. by right.
Qed.

Lemma traverse_helper_S fuel (h : heap) cache c :
  traverse_helper (S fuel) h cache c
  = if bool_decide (py_id c ∈ cache) then Graph []
    else Graph [(py_id c,
                 (c, Graph (flat_map
                              (fun item =>
                                 items (traverse_helper fuel h ({[py_id c]} ∪ cache) item))
                              (connected h c))))].
Proof. done. Qed.

Lemma walk_calls_single t R k c sub :
  walk_calls t R (Graph [(k, (c, sub))])
  = if bool_decide (k = t) then [R] else walk_calls t c sub.
Proof. simpl. by rewrite app_nil_r. Qed.

Lemma graph_entries_flat_map {A} (f : A -> DataPipeGraph) (l : list A) :
  graph_entries (Graph (flat_map (fun a => items (f a)) l))
  = flat_map (fun a => graph_entries (f a)) l.
Proof.
  induction l as [|a l IH]; [done|].
  change (flat_map (fun a => items (f a)) (a :: l))
    with (items (f a) ++ flat_map (fun a => items (f a)) l).
  change (graph_entries (Graph (items (f a) ++ flat_map (fun a => items (f a)) l)))
    with (flat_map (fun kv : nat * (DataPipe * DataPipeGraph) =>
                      (kv.1, kv.2.1, (items kv.2.2).*1) :: graph_entries kv.2.2)
            (items (f a) ++ flat_map (fun a => items (f a)) l)).
  rewrite flat_map_app. simpl. f_equal; [by destruct (f a)|apply IH].
Qed.

Lemma graph_entries_single k c sub :
  graph_entries (Graph [(k, (c, sub))])
  = (k, c, (items sub).*1) :: graph_entries sub.
Proof. simpl. by rewrite app_nil_r. Qed.

Lemma flat_map_map' {A B C} (f : A -> B) (g : B -> list C) (l : list A) :
  flat_map g (map f l) = flat_map (fun a => g (f a)) l.
Proof. induction l as [|a l IH]; [done|]. simpl. by rewrite IH. Qed.

Lemma flat_map_ext_elem {A B} (f g : A -> list B) (l : list A) :
  (∀ a, a ∈ l -> f a = g a) -> flat_map f l = flat_map g l.
Proof.
  induction l as [|a l IH]; intros H; [done|]. simpl.
  rewrite (H a) by left. f_equal. apply IH. intros b Hb. apply H. by right.
Qed.

Lemma flat_map_nil_fn {A B} (l : list A) : flat_map (fun _ : A => @nil B) l = [].
Proof. by induction l. Qed.

Lemma elem_of_flat_map {A B} (f : A -> list B) (l : list A) (b : B) :
  b ∈ flat_map f l ↔ ∃ a, a ∈ l ∧ b ∈ f a.
Proof.
  rewrite list_elem_of_In, in_flat_map. by setoid_rewrite list_elem_of_In.
Qed.

(** *** The graph of a pipe *)

Section traversal.
Context (h : heap).

(** Every item is keyed by the identity of its pipe, and no identity of the
    path above occurs below. *)
Lemma traverse_entries fuel : ∀ (cache : gset nat) (c : DataPipe) (e : entry),
  e ∈ graph_entries (traverse_helper fuel h cache c) ->
  e.1.1 = py_id e.1.2 ∧ e.1.1 ∉ cache.
Proof.
  induction fuel as [|f IH]; intros cache c e; [by intros ?%elem_of_nil|].
  rewrite traverse_helper_S. case_bool_decide as Hin; [by intros ?%elem_of_nil|].
  rewrite graph_entries_single, graph_entries_flat_map.
  intros [->|He]%elem_of_cons; [done|].
  apply elem_of_flat_map in He as (ch & Hch & He).
  destruct (IH _ _ _ He) as [Hk Hc]. split; [done|set_solver].
Qed.

Lemma connected_dom (c c' : DataPipe) : c' ∈ connected h c -> py_id c ∈ dom h.
Proof.
  unfold connected, __dict__. intros Hc. apply elem_of_dom.
  destruct (h !! py_id c); [done|]. by apply elem_of_nil in Hc.
Qed.

(** The fuel of [traverse_dps] does not run out: the pipes on a path have
    attributes and are distinct.  So the graph has every pipe that a pipe of
    it refers to, unless it is on the path already. *)
Lemma traverse_closed fuel : ∀ (cache : gset nat) (c : DataPipe),
  cache ⊆ dom h -> (size h < fuel + size cache)%nat ->
  ∀ e : entry, e ∈ graph_entries (traverse_helper fuel h cache c) ->
  ∀ c', c' ∈ connected h e.1.2 ->
  py_id c' ∈ cache
  ∨ py_id c' ∈ map (fun e : entry => e.1.1) (graph_entries (traverse_helper fuel h cache c)).
Proof.
  induction fuel as [|f IH]; intros cache c Hsub Hfuel e; [by intros ?%elem_of_nil|].
  rewrite traverse_helper_S. case_bool_decide as Hin; [by intros ?%elem_of_nil|].
  rewrite graph_entries_single, graph_entries_flat_map.
  assert (∀ c', c' ∈ connected h c ->
            {[py_id c]} ∪ cache ⊆ dom h
            ∧ (size h < f + size ({[py_id c]} ∪ cache))%nat) as Hinv.
  { intros c' Hc'%connected_dom. split; [set_solver|].
    rewrite size_union, size_singleton by set_solver. lia. }
  intros [->|He]%elem_of_cons c' Hc'.
  - destruct (Hinv c' Hc') as [Hsub' Hfuel']. simpl in Hc'.
    destruct (decide (py_id c' ∈ {[py_id c]} ∪ cache)) as [Hcin|Hcin].
    { apply elem_of_union in Hcin as [->%elem_of_singleton|Hcin]; [|by left].
      right. simpl. left. }
    right. simpl. right. apply list_elem_of_fmap.
    pose proof (subseteq_size _ _ Hsub') as Hle. rewrite size_dom in Hle.
    destruct f as [|f]; [lia|].
    eexists. split; last first.
    { apply elem_of_flat_map. exists c'. split; [done|].
      rewrite traverse_helper_S, bool_decide_eq_false_2 by done.
      rewrite graph_entries_single. left. }
    done.
  - apply elem_of_flat_map in He as (ch & Hch & He).
    destruct (Hinv ch Hch) as [Hsub' Hfuel'].
    destruct (IH _ ch Hsub' Hfuel' e He c' Hc') as [Hcin|Hkey].
    + apply elem_of_union in Hcin as [->%elem_of_singleton|Hcin]; [|by left].
      right. simpl. left.
    + right. simpl. right.
      apply list_elem_of_fmap in Hkey as (e' & -> & He').
      apply list_elem_of_fmap. exists e'. split; [done|].
      apply elem_of_flat_map. by exists ch.
Qed.

(** A pipe that is not in the graph is not referred to by a pipe of the
    graph. *)
Lemma fresh_no_ref (P new_dp : DataPipe) :
  py_id new_dp ∉ map py_id (graph_pipes (traverse_dps h P)) ->
  ∀ X, X ∈ graph_pipes (traverse_dps h P) -> no_ref new_dp (__dict__ h X) = true.
Proof.
  intros Hnew X (e & -> & He)%list_elem_of_fmap.
  apply forallb_forall. intros kv Hkv%list_elem_of_In. apply bool_decide_eq_true.
  apply occurrences_pipes_in. intros c Hc Hid.
  assert (c ∈ flat_map (fun kv : string * value => pipes_in kv.2) (__dict__ h e.1.2))
    as Hin by (apply elem_of_flat_map; by exists kv).
  destruct (dedup_has_id _ [] _ Hin) as [?%elem_of_nil|(c' & Hc' & Hid')]; [done|].
  destruct (traverse_closed (S (size h)) ∅ P ltac:(set_solver) ltac:(lia) e He c' Hc')
    as [?%elem_of_empty|Hkey]; [done|].
  apply Hnew. apply list_elem_of_fmap in Hkey as (e' & Hk & He').
  apply list_elem_of_fmap. exists e'.1.2. split.
  - rewrite <- (proj1 (traverse_entries _ _ _ _ He')). congruence.
  - apply list_elem_of_fmap. by exists e'.
Qed.

End traversal.

(** *** The second walk mirrors the first *)

Section mirror.
Context (old_dp new_dp : DataPipe) (Hne : py_id new_dp ≠ py_id old_dp).
Context (h h1 : heap).
Context (Hh1 : ∀ Y, __dict__ h1 Y = subst_items old_dp new_dp (__dict__ h Y)
                    ∨ __dict__ h1 Y = __dict__ h Y).

Lemma mirror fuel : ∀ (cache : gset nat) (c R : DataPipe),
  py_id old_dp ∉ cache -> py_id new_dp ∉ cache -> py_id c ≠ py_id new_dp ->
  (∀ Y, Y ∈ graph_pipes (traverse_helper fuel h cache c) ->
     no_ref new_dp (__dict__ h Y) = true) ->
  (∀ Y, Y ∈ walk_calls (py_id old_dp) R (traverse_helper fuel h cache c) ->
     __dict__ h1 Y = subst_items old_dp new_dp (__dict__ h Y)) ->
  walk_calls (py_id new_dp) R (traverse_helper fuel h1 cache (ren old_dp new_dp c))
  = walk_calls (py_id old_dp) R (traverse_helper fuel h cache c).
Proof.
  induction fuel as [|f IH]; intros cache c R Hco Hcn Hc Hpipes Hcalls; [done|].
  revert Hpipes Hcalls. rewrite !traverse_helper_S.
  destruct (decide (py_id c = py_id old_dp)) as [Hold|Hold].
  { intros _ _. unfold ren.
    rewrite (bool_decide_eq_true_2 (py_id c = py_id old_dp)) by done.
    rewrite (bool_decide_eq_false_2 (py_id new_dp ∈ cache)) by done.
    rewrite (bool_decide_eq_false_2 (py_id c ∈ cache)) by (by rewrite Hold).
    rewrite !walk_calls_single.
    by rewrite !bool_decide_eq_true_2. }
  unfold ren. rewrite (bool_decide_eq_false_2 (py_id c = py_id old_dp)) by done.
  destruct (decide (py_id c ∈ cache)) as [Hin|Hin].
  { by rewrite !bool_decide_eq_true_2. }
  rewrite !(bool_decide_eq_false_2 (py_id c ∈ cache)) by done.
  rewrite !walk_calls_single.
  rewrite !(bool_decide_eq_false_2 (py_id c = _)) by done.
  rewrite !walk_calls_flat_map.
  unfold graph_pipes. rewrite graph_entries_single, graph_entries_flat_map.
  intros Hpipes Hcalls.
  destruct f as [|f].
  { simpl. by rewrite !flat_map_nil_fn. }
  pose proof (Hpipes c ltac:(left)) as Hnoref.
  assert (∀ ch, ch ∈ connected h c -> py_id ch ≠ py_id new_dp) as Hch_new.
  { intros ch Hch%dedup_subseteq.
    apply elem_of_flat_map in Hch as (kv & Hkv & Hch).
    by apply (proj1 (occurrences_pipes_in new_dp kv.2) (no_ref_spec _ _ Hnoref kv Hkv)). }
  assert (__dict__ h1 c = subst_items old_dp new_dp (__dict__ h c)) as Hd1.
  { destruct (Hh1 c) as [Hd|Hd]; [done|].
    destruct (decide (Exists (fun ch => py_id ch = py_id old_dp) (connected h c)))
      as [Hex|Hex].
    - apply Exists_exists in Hex as (ch & Hch & Hid).
      apply Hcalls. apply elem_of_flat_map. exists ch. split; [done|].
      rewrite traverse_helper_S, bool_decide_eq_false_2 by (rewrite Hid; set_solver).
      rewrite walk_calls_single, bool_decide_eq_true_2 by done. left.
    - rewrite Hd. symmetry. apply (Fo_no_old old_dp new_dp h c).
      intros ch Hch Hid. apply Hex. apply Exists_exists. by exists ch. }
  rewrite (connected_Fo old_dp new_dp h h1 c Hd1 Hnoref).
  rewrite flat_map_map'. apply flat_map_ext_elem. intros ch Hch.
  apply IH.
  - set_solver.
  - set_solver.
  - by apply Hch_new.
  - intros Y HY. apply Hpipes. right. simpl.
    apply list_elem_of_fmap in HY as (e & -> & He).
    apply list_elem_of_fmap. exists e. split; [done|].
    apply elem_of_flat_map. by exists ch.
  - intros Y HY. apply Hcalls. apply elem_of_flat_map. by exists ch.
Qed.

End mirror.

Lemma dict_lookup (h : heap) (X : DataPipe) d :
  h !! py_id X = Some d -> __dict__ h X = d.
Proof. unfold __dict__. by intros ->. Qed.

(** The attributes after the calls of a walk. *)
Lemma dict_after_walk (old_dp new_dp : DataPipe) (h : heap) (l : list DataPipe) :
  py_id new_dp ≠ py_id old_dp ->
  ∀ Y, __dict__ (foldl (fun h X => alter (subst_items old_dp new_dp) (py_id X) h) h l) Y
       = if bool_decide (py_id Y ∈ map py_id l)
         then subst_items old_dp new_dp (__dict__ h Y)
         else __dict__ h Y.
Proof.
  intros Hne Y. unfold __dict__ at 1. rewrite lookup_foldl_alter.
  - case_bool_decide; [|done]. unfold __dict__. by destruct (h !! py_id Y).
  - intros _ d _. by apply Fo_idem.
Qed.



(** The zipper of the pipeline holds its source datapipes in a tuple and
    satisfies the conditions of the round trip for a pipe from outside: the
    tuple is rebuilt with [other] for [mapped_f], and back. *)
Example replace_round_trip_zipper :
  forallb (fun X => simple_ref mapped_f (__dict__ pipeline X))
    (graph_pipes (traverse_dps pipeline zipped)) = true
  ∧ ∃ h1 G1,
      replace_dp mapped_f other pipeline (traverse_dps pipeline zipped) = Ok (h1, G1)
      ∧ __dict__ h1 zipped = [("datapipes", VTuple [VPipe other; VPipe mapped_g])]
      ∧ replace_dp other mapped_f h1 G1 = Ok (pipeline, traverse_dps pipeline zipped).
Proof.
  split; [by vm_compute|].
  eexists _, _. split; [by vm_compute|]. split; by vm_compute.
Qed.

(** A tuple inside a tuple is outside these conditions, and there the round
    trip fails for a pipe from outside as well: the rebuilt outer tuple gets
    [new_dp] in the place of the inner tuple (line 190), so the zipper over
    [((mapped_f, mapped_g), source)] comes back as one over
    [(mapped_f, source)], and [mapped_g] has left the graph. *)
Example replace_round_trip_nested_tuple :
  let h := <[4%nat := [("datapipes",
                        VTuple [VTuple [VPipe mapped_f; VPipe mapped_g];
                                VPipe source])]]> pipeline in
  ∃ h1 G1 h2 G2,
    replace_dp mapped_f other h (traverse_dps h zipped) = Ok (h1, G1)
    ∧ replace_dp other mapped_f h1 G1 = Ok (h2, G2)
    ∧ __dict__ h2 zipped = [("datapipes", VTuple [VPipe mapped_f; VPipe source])]
    ∧ find_dps (traverse_dps h zipped) ShardedMapper = [mapped_g]
    ∧ find_dps G2 ShardedMapper = [].
Proof.
  eexists _, _, _, _. split; [by vm_compute|]. split; [by vm_compute|].
  split; [by vm_compute|]. split; by vm_compute.
Qed.

End ReplaceFacts.

(* --------------------------------------------------------------------- *)
(** ** More on the round-robin splitter                                   *)
(* --------------------------------------------------------------------- *)

Module RoundRobinMore.
Import RoundRobin RoundRobinFacts.

Lemma foldr_add_acc (l : list Z) (a : Z) : foldr Z.add a l = foldr Z.add 0 l + a.
Proof. induction l as [|x l IH]; simpl; [done|]. rewrite IH. lia. Qed.

Lemma sum_analytic (q r : Z) (K : nat) :
  0 <= r ->
  foldr Z.add 0
    (map (fun i : nat => q + (if bool_decide (Z.of_nat i < r) then 1 else 0)) (seq 0 K))
  = Z.of_nat K * q + Z.min (Z.of_nat K) r.
Proof.
  intros Hr. induction K as [|K IH]; [simpl; lia|].
  rewrite seq_S, map_app, foldr_app. simpl. rewrite foldr_add_acc, IH.
  case_bool_decide; lia.
Qed.

(** The lengths the branches report add up to the length of the source:
    [round_robin_demux] with [num_instances >= 1] returns that many
    children, and no item is counted twice or left out. *)
Theorem branch_lengths_add_up {A} (datapipe : list A) (N : Z) :
  1 <= N ->
  ∃ children,
    __new__ datapipe N = Some children
    ∧ length children = Z.to_nat N
    ∧ foldr Z.add 0 (map child_len children) = Z.of_nat (length datapipe).
Proof.
  intros HN. unfold __new__. rewrite bool_decide_eq_false_2 by lia.
  case_bool_decide as H1.
  - subst N. eexists. split; [done|]. split; [done|]. simpl. lia.
  - eexists. split; [done|]. split; [by rewrite length_map, length_seq|].
    rewrite map_map. simpl. rewrite enumerate_length.
    rewrite (map_ext _ (fun i : nat =>
               Z.of_nat (length datapipe) / N
               + (if bool_decide (Z.of_nat i < Z.of_nat (length datapipe) mod N)
                  then 1 else 0))).
    2:{ intros i. by rewrite get_length_analytic by lia. }
    pose proof (Z.mod_pos_bound (Z.of_nat (length datapipe)) N ltac:(lia)) as Hr.
    rewrite sum_analytic by lia. rewrite Z2Nat.id by lia.
    pose proof (Z.div_mod (Z.of_nat (length datapipe)) N ltac:(lia)). lia.
Qed.

Lemma branch_lengths_add_up_witness :
  ∃ children,
    __new__ [10; 20; 30; 40; 50; 60; 70] 3 = Some children
    ∧ length children = Z.to_nat 3
    ∧ foldr Z.add 0 (map child_len children) = Z.of_nat (length [10; 20; 30; 40; 50; 60; 70]).
Proof. apply (branch_lengths_add_up [10; 20; 30; 40; 50; 60; 70] 3). lia. Defined.

(** The split is balanced: the reported lengths never increase with the
    branch index, two of them differ by one at most, and none is negative
    for a branch index below [num_instances]. *)
Theorem branch_lengths_balanced (n N i j : Z) :
  1 <= N -> 0 <= n -> 0 <= i <= j ->
  get_length_by_instance n N j <= get_length_by_instance n N i
  ∧ get_length_by_instance n N i <= get_length_by_instance n N j + 1
  ∧ 0 <= get_length_by_instance n N j.
Proof.
  intros HN Hn Hij. rewrite !get_length_analytic by lia. unfold analytic_length.
  pose proof (Z.div_pos n N Hn ltac:(lia)).
  repeat case_bool_decide; lia.
Qed.

Lemma branch_lengths_balanced_witness :
  get_length_by_instance 7 3 2 <= get_length_by_instance 7 3 0
  ∧ get_length_by_instance 7 3 0 <= get_length_by_instance 7 3 2 + 1
  ∧ 0 <= get_length_by_instance 7 3 2.
Proof. apply (branch_lengths_balanced 7 3 0 2); lia. Defined.

Lemma enumerate_lookup {A} (l : list A) (j : nat) :
  enumerate l !! j = (fun x => (Z.of_nat j, x)) <$> l !! j.
Proof. unfold enumerate. by rewrite list_lookup_imap. Qed.

(** The index that [enumerate] adds is the position in the source; the
    classifier sends position [j] to branch [j mod num_instances], which is
    a branch index in range; and [_drop_index] takes the index off again, so
    the children carry the items of the source. *)
Theorem round_robin_routing {A} (datapipe : list A) (N : Z) (j : nat) (x : A) :
  1 <= N -> datapipe !! j = Some x ->
  enumerate datapipe !! j = Some (Z.of_nat j, x)
  ∧ _round_robin_fn N (Z.of_nat j, x) = Z.of_nat j mod N
  ∧ 0 <= _round_robin_fn N (Z.of_nat j, x) < N
  ∧ map _drop_index (enumerate datapipe) = datapipe.
Proof.
  intros HN Hx. split; [by rewrite enumerate_lookup, Hx|]. split; [done|].
  split; [simpl; apply Z.mod_pos_bound; lia|].
  clear. induction datapipe as [|y l IH] using rev_ind; [done|].
  by rewrite enumerate_snoc, map_app, IH.
Qed.

Lemma round_robin_routing_witness :
  enumerate [10; 20; 30; 40; 50] !! 3%nat = Some (Z.of_nat 3, 40)
  ∧ _round_robin_fn 2 (Z.of_nat 3, 40) = Z.of_nat 3 mod 2
  ∧ 0 <= _round_robin_fn 2 (Z.of_nat 3, 40) < 2
  ∧ map _drop_index (enumerate [10; 20; 30; 40; 50]) = [10; 20; 30; 40; 50].
Proof. apply (round_robin_routing [10; 20; 30; 40; 50] 2 3 40); [lia|done]. Defined.

End RoundRobinMore.

(* --------------------------------------------------------------------- *)
(** ** [unzip]                                                            *)
(* --------------------------------------------------------------------- *)

Module UnZipperFacts.
Import UnZipper.

Lemma elem_of_range (n i : Z) : i ∈ range n ↔ 0 <= i < n.
Proof.
  unfold range. rewrite list_elem_of_fmap. split.
  - intros (k & -> & Hk). apply list_elem_of_In, in_seq in Hk. lia.
  - intros Hi. exists (Z.to_nat i). split; [lia|].
    apply list_elem_of_In, in_seq. lia.
Qed.

Lemma length_range (n : Z) : length (range n) = Z.to_nat n.
Proof. unfold range. by rewrite length_map, length_seq. Qed.

Lemma range_lookup (n : Z) (k : nat) :
  (k < Z.to_nat n)%nat -> range n !! k = Some (Z.of_nat k).
Proof.
  intros Hk. unfold range. rewrite list_lookup_fmap.
  by rewrite lookup_seq_lt.
Qed.

Lemma NoDup_range (n : Z) : NoDup (range n).
Proof.
  unfold range. apply NoDup_fmap_2; [|apply NoDup_ListNoDup, seq_NoDup].
  intros a b. lia.
Qed.

(** The columns of the children: the indices below [sequence_length] that
    are not skipped, in increasing order and once each (indices to skip that
    are out of range do nothing).  [__new__] raises [RuntimeError] exactly
    when every column is skipped, [sequence_length <= 0] included, and
    otherwise makes one child per column, all on the same container. *)
Theorem instance_ids_spec (sequence_length : Z) (columns_to_skip : option (list Z)) :
  let ids := instance_ids sequence_length columns_to_skip in
  (∀ i, i ∈ ids
        ↔ 0 <= i < sequence_length
          ∧ ∀ skips, columns_to_skip = Some skips -> i ∉ skips)
  ∧ sublist ids (range sequence_length)
  ∧ NoDup ids
  ∧ (__new__ sequence_length columns_to_skip = None
     ↔ ∀ i, 0 <= i < sequence_length ->
            ∃ skips, columns_to_skip = Some skips ∧ i ∈ skips)
  ∧ (∀ children, __new__ sequence_length columns_to_skip = Some children ->
       map instance_id children = range (Z.of_nat (length ids))
       ∧ Forall (fun c => container_instance_ids c = ids) children).
Proof.
  intros ids.
  assert (∀ i, i ∈ ids
               ↔ 0 <= i < sequence_length
                 ∧ ∀ skips, columns_to_skip = Some skips -> i ∉ skips) as Hmem.
  { intros i. subst ids. unfold instance_ids. destruct columns_to_skip as [skips|].
    - rewrite list_elem_of_filter, elem_of_range. split.
      + intros [Hs Hi]. split; [done|]. by intros ? [= <-].
      + intros [Hi Hs]. split; [by apply Hs|done].
    - rewrite elem_of_range. split; [by intros ?|by intros [? _]]. }
  assert (sublist ids (range sequence_length)) as Hsub.
  { subst ids. unfold instance_ids. destruct columns_to_skip; [apply sublist_filter|done]. }
  split; [done|]. split; [done|].
  split; [by apply (sublist_NoDup _ _ (NoDup_range sequence_length))|].
  unfold __new__. fold ids. split; [split|].
  - case_bool_decide as Hlen; [|done]. intros _ i Hi.
    apply nil_length_inv in Hlen.
    destruct columns_to_skip as [skips|].
    + exists skips. split; [done|].
      destruct (decide (i ∈ skips)) as [|Hn]; [done|].
      assert (i ∈ ids) as Hin by (apply Hmem; split; [done|by intros ? [= <-]]).
      rewrite Hlen in Hin. by apply elem_of_nil in Hin.
    + assert (i ∈ ids) as Hin by (apply Hmem; split; [done|by intros ?]).
      rewrite Hlen in Hin. by apply elem_of_nil in Hin.
  - intros Hall. rewrite bool_decide_eq_true_2; [done|].
    destruct ids as [|i ids'] eqn:Hids; [done|]. exfalso.
    assert (i ∈ i :: ids') as Hin by left. apply Hmem in Hin as [Hi Hs].
    destruct (Hall i Hi) as (skips & Heq & Hin). by apply (Hs skips).
  - intros children. case_bool_decide; [done|]. intros [= <-].
    split; [by rewrite map_map, map_id|].
    apply Forall_forall. by intros c (i & -> & _)%list_elem_of_fmap.
Qed.

Section facts.
Context {A : Type}.

Lemma run_columns (ids : list Z) (k col : Z) (items : list (list A)) (more : nat) :
  py_getitem ids k = Some col -> 0 <= col ->
  Forall (fun s => col < Z.of_nat (length s)) items ->
  get_next_element_by_instance ids k items more
  = (take (S more) (omap (fun s => s !! Z.to_nat col) items),
     if bool_decide (length items <= more)%nat then Exhausted else Closed).
Proof.
  intros Hk Hcol. revert more. induction items as [|s items IH]; intros more Hall.
  - by rewrite bool_decide_eq_true_2 by (simpl; lia).
  - apply Forall_cons in Hall as [Hs Hall].
    cbn [get_next_element_by_instance omap list_omap]. rewrite Hk.
    unfold py_getitem at 1. rewrite bool_decide_eq_true_2 by done.
    destruct (lookup_lt_is_Some_2 s (Z.to_nat col) ltac:(lia)) as [x Hx].
    rewrite Hx. cbn [mbind option_bind]. destruct more as [|more].
    + rewrite bool_decide_eq_false_2 by (simpl; lia). by rewrite firstn_cons, take_0.
    + rewrite (IH more Hall), firstn_cons. f_equal.
      repeat case_bool_decide; simpl in *; try done; lia.
Qed.

Lemma omap_columns (i : nat) (items : list (list A)) :
  Forall (fun s => (i < length s)%nat) items ->
  length (omap (fun s => s !! i) items) = length items
  ∧ ∀ j s, items !! j = Some s -> omap (fun s => s !! i) items !! j = s !! i.
Proof.
  induction 1 as [|s0 items Hs0 Hall [IH1 IH2]]; [done|].
  destruct (lookup_lt_is_Some_2 s0 i Hs0) as [x Hx].
  cbn [omap list_omap]. rewrite Hx. cbn [mbind option_bind]. split.
  - simpl. by rewrite IH1.
  - intros [|j] s; simpl; [by intros [= <-]|apply IH2].
Qed.

End facts.

(** A child yields, for each sequence the forker hands it, the element at
    its column, in order, and raises nothing as long as every sequence has
    that column; it ends with the forker's generator, or is closed once the
    consumer has what it asked for. *)
Theorem unzip_column {A} (ids : list Z) (k col : Z) (items : list (list A)) (more : nat) :
  py_getitem ids k = Some col -> 0 <= col ->
  Forall (fun s => col < Z.of_nat (length s)) items ->
  let run := get_next_element_by_instance ids k items more in
  Forall2 (fun s x => s !! Z.to_nat col = Some x) (take (S more) items) run.1
  ∧ run.2 = if bool_decide (length items <= more)%nat then Exhausted else Closed.
Proof.
  intros Hk Hcol Hall run. subst run. rewrite (run_columns ids k col) by done.
  simpl. split; [|done]. clear Hk. revert more.
  induction items as [|s items IH]; intros more; [constructor|].
  apply Forall_cons in Hall as [Hs Hall].
  destruct (lookup_lt_is_Some_2 s (Z.to_nat col) ltac:(lia)) as [x Hx].
  simpl. rewrite Hx. simpl. constructor; [done|].
  destruct more as [|more]; [rewrite !take_0; constructor|]. by apply IH.
Qed.

Lemma unzip_column_witness :
  Forall2 (fun s x => s !! Z.to_nat 2 = Some x)
    (take 3 [[0; 10; 20]; [1; 11; 21]; [2; 12; 22]])
    (get_next_element_by_instance [0; 2] 1 [[0; 10; 20]; [1; 11; 21]; [2; 12; 22]] 2).1
  ∧ (get_next_element_by_instance [0; 2] 1 [[0; 10; 20]; [1; 11; 21]; [2; 12; 22]] 2).2
    = Closed.
Proof.
  apply (unzip_column [0; 2] 1 2 [[0; 10; 20]; [1; 11; 21]; [2; 12; 22]] 2).
  - done.
  - lia.
  - repeat constructor.
Defined.

(** A sequence that is too short for the column of the child makes the
    child raise [IndexError] when it comes to it, after the elements of the
    sequences before it have been yielded. *)
Theorem unzip_short_sequence {A} (ids : list Z) (k col : Z)
    (items1 : list (list A)) (s : list A) (items2 : list (list A)) (more : nat) :
  py_getitem ids k = Some col -> 0 <= col ->
  Forall (fun s => col < Z.of_nat (length s)) items1 ->
  Z.of_nat (length s) <= col -> (length items1 <= more)%nat ->
  let run := get_next_element_by_instance ids k (items1 ++ s :: items2) more in
  Forall2 (fun s x => s !! Z.to_nat col = Some x) items1 run.1
  ∧ run.2 = Raised IndexError.
Proof.
  intros Hk Hcol Hall Hs. revert more.
  induction items1 as [|s1 items1 IH]; intros more Hmore; simpl.
  - rewrite Hk. unfold py_getitem. rewrite bool_decide_eq_true_2 by done.
    rewrite lookup_ge_None_2 by lia. simpl. split; [constructor|done].
  - apply Forall_cons in Hall as [Hs1 Hall]. rewrite Hk.
    destruct (lookup_lt_is_Some_2 s1 (Z.to_nat col) ltac:(lia)) as [x Hx].
    assert (py_getitem s1 col = Some x) as ->
      by (unfold py_getitem; by rewrite bool_decide_eq_true_2).
    simpl in Hmore. destruct more as [|more]; [lia|].
    specialize (IH Hall more ltac:(lia)).
    destruct (get_next_element_by_instance ids k (items1 ++ s :: items2) more)
      as [ys e]. simpl in *. destruct IH as [IH1 IH2]. split; [by constructor|done].
Qed.

Lemma unzip_short_sequence_witness :
  Forall2 (fun s x => s !! Z.to_nat 2 = Some x) [[0; 10; 20]]
    (get_next_element_by_instance [0; 2] 1 ([[0; 10; 20]] ++ [1; 11] :: [[2; 12; 22]]) 5).1
  ∧ (get_next_element_by_instance [0; 2] 1 ([[0; 10; 20]] ++ [1; 11] :: [[2; 12; 22]]) 5).2
    = Raised IndexError.
Proof.
  apply (unzip_short_sequence [0; 2] 1 2 [[0; 10; 20]] [1; 11] [[2; 12; 22]] 5).
  - done.
  - lia.
  - repeat constructor.
  - simpl. lia.
  - simpl. lia.
Defined.



End UnZipperFacts.

(* --------------------------------------------------------------------- *)
(** ** More on the keyed stream joiner                                    *)
(* --------------------------------------------------------------------- *)

Module IterKeyZipperMore.
Import IterKeyZipper IterKeyZipperState IterKeyZipperFacts.

Section facts.
Context {Data Ref Key Merged : Type} `{!EqDecision Key}.
Implicit Types self : t Data Ref Key Merged.
Implicit Types buf : list (Key * Ref).
Implicit Types fr : frame Ref Key.

(** The entries the loop adds for the reference items it reads. *)
Local Abbreviation keyed self rs := (map (fun r => (ref_key_fn self r, r)) rs).

Lemma while_in_buffer self data key refs flag buf :
  key ∈ buf.*1 ->
  while_not_in_buffer self data key refs flag buf = (Frame refs flag buf, [], None).
Proof.
  intros Hk%od_contains_true. destruct refs; simpl; by rewrite Hk.
Qed.

Lemma keyed_fst self rs : (keyed self rs).*1 = map (ref_key_fn self) rs.
Proof. induction rs as [|r rs IH]; [done|]. simpl. f_equal. apply IH. Qed.

Lemma keyed_snd self rs : (keyed self rs).*2 = rs.
Proof. induction rs as [|r rs IH]; [done|]. simpl. f_equal. apply IH. Qed.

(** The loop when the buffer cannot overflow and the key is at hand: it
    reads the reference items up to the one with the key and buffers them. *)
Lemma while_no_overflow self data key refs flag buf :
  (∀ m, buffer_size self = Some m -> Z.of_nat (length buf + length refs) <= m) ->
  NoDup (buf.*1 ++ map (ref_key_fn self) refs) ->
  key ∈ buf.*1 ++ map (ref_key_fn self) refs ->
  ∃ consumed rest,
    refs = consumed ++ rest
    ∧ while_not_in_buffer self data key refs flag buf
      = (Frame rest flag (buf ++ keyed self consumed), [], None)
    ∧ key ∈ (buf ++ keyed self consumed).*1.
Proof.
  revert buf. induction refs as [|r refs IH]; intros buf Hsize Hnd Hkey.
  - exists [], []. cbn [map] in *. rewrite !app_nil_r in *.
    split; [done|]. split; [|done]. by apply while_in_buffer.
  - destruct (decide (key ∈ buf.*1)) as [Hin|Hin].
    { exists [], (r :: refs). cbn [map]. rewrite !app_nil_r.
      split; [done|]. split; [|done]. by apply while_in_buffer. }
    assert (ref_key_fn self r ∉ buf.*1) as Hr.
    { apply NoDup_app in Hnd as (_ & Hdis & _). intros Hb. apply (Hdis _ Hb). left. }
    assert (over_limit self buf = false) as Hover.
    { unfold over_limit. destruct (buffer_size self) as [m|] eqn:Hm; [|done].
      apply bool_decide_eq_false. specialize (Hsize m eq_refl). simpl in Hsize. lia. }
    destruct (IH (buf ++ [(ref_key_fn self r, r)])) as (consumed & rest & -> & Hw & Hk).
    + intros m Hm. specialize (Hsize m Hm). rewrite length_app. simpl in *. lia.
    + rewrite fmap_app. simpl. by rewrite <- app_assoc.
    + rewrite fmap_app. simpl. by rewrite <- app_assoc.
    + exists (r :: consumed), rest. split; [done|].
      simpl. apply od_contains_false in Hin as ->. apply od_contains_false in Hr as Hr'.
      rewrite Hr', Hover, od_setitem_fresh by done.
      rewrite Hw. rewrite <- !app_assoc in *. done.
Qed.

Lemma od_pop_split key buf :
  key ∈ buf.*1 ->
  ∃ b1 v b2, buf = b1 ++ (key, v) :: b2 ∧ od_pop key buf = Some (v, b1 ++ b2).
Proof.
  induction buf as [|[k v] buf IH]; [by intros ?%elem_of_nil|]. simpl.
  intros Hk. case_decide as Hkk.
  - subst k. by exists [], v, buf.
  - apply elem_of_cons in Hk as [?|Hk]; [done|].
    destruct (IH Hk) as (b1 & v' & b2 & -> & ->). by exists ((k, v) :: b1), v', b2.
Qed.

Lemma warnings_janitors (l : list (Key * Ref)) :
  warnings (map (fun kv => Janitor kv.2) l : list (event Data Ref Key Merged)) = 0%nat.
Proof. unfold warnings. induction l as [|kv l IH]; [done|]. simpl. apply IH. Qed.

Lemma warnings_app (ev1 ev2 : list (event Data Ref Key Merged)) :
  warnings (ev1 ++ ev2) = (warnings ev1 + warnings ev2)%nat.
Proof. unfold warnings. by rewrite omap_app, length_app. Qed.

(** The loop over the source when the buffer cannot overflow, the keys of
    the source are distinct and each is buffered or ahead. *)
Lemma for_source_no_overflow self src : ∀ more fr,
  (∀ m, buffer_size self = Some m ->
        Z.of_nat (length (self_buffer fr) + length (ref_it fr)) <= m) ->
  NoDup (map (key_fn self) src) ->
  NoDup ((self_buffer fr).*1 ++ map (ref_key_fn self) (ref_it fr)) ->
  (∀ d, d ∈ src -> key_fn self d ∈ (self_buffer fr).*1 ++ map (ref_key_fn self) (ref_it fr)) ->
  (∀ k v, (k, v) ∈ self_buffer fr -> k = ref_key_fn self v) ->
  let run := for_source self src more fr in
  run.2 = (if bool_decide (length src <= more)%nat then Exhausted else Closed)
  ∧ warnings run.1.2 = 0%nat
  ∧ ∃ vs,
      yielded run.1.2 = zip_with (output self) src vs
      ∧ length vs = (S more `min` length src)%nat
      ∧ Forall2 (fun d v => ref_key_fn self v = key_fn self d) (take (length vs) src) vs
      ∧ vs ++ (self_buffer run.1.1).*2 ++ ref_it run.1.1
        ≡ₚ (self_buffer fr).*2 ++ ref_it fr
      ∧ ref_it run.1.1 `suffix_of` ref_it fr.
Proof.
  induction src as [|d src IH]; intros more fr Hsize Hsrc Hnd Hkeys Hkeyed; cbv zeta.
  { rewrite bool_decide_eq_true_2 by (simpl; lia). split; [done|]. split; [done|].
    exists []. simpl. repeat split; try done; try lia; try constructor. }
  apply NoDup_cons in Hsrc as [Hd Hsrc].
  destruct (while_no_overflow self d (key_fn self d) (ref_it fr) (warn_once_flag fr)
              (self_buffer fr) Hsize Hnd (Hkeys d ltac:(left)))
    as (consumed & rest & Hrefs & Hw & Hk).
  destruct (od_pop_split _ _ Hk) as (b1 & v & b2 & HB & Hpop).
  cbn [for_source]. rewrite Hw. cbn [self_buffer ref_it warn_once_flag].
  rewrite Hpop.
  (* the key list before, and after the entry is taken out *)
  assert ((self_buffer fr).*1 ++ map (ref_key_fn self) (ref_it fr)
          ≡ₚ key_fn self d :: ((b1 ++ b2).*1 ++ map (ref_key_fn self) rest)) as Hperm.
  { rewrite Hrefs, map_app, app_assoc, <- (keyed_fst self consumed), <- fmap_app, HB.
    rewrite !fmap_app. simpl. rewrite <- !app_assoc. simpl.
    by rewrite <- Permutation_middle. }
  assert ((self_buffer fr).*2 ++ ref_it fr ≡ₚ v :: ((b1 ++ b2).*2 ++ rest)) as Hvals.
  { rewrite Hrefs, app_assoc. rewrite <- (keyed_snd self consumed) at 1.
    rewrite <- fmap_app, HB. rewrite !fmap_app. simpl. rewrite <- !app_assoc. simpl.
    by rewrite <- Permutation_middle. }
  assert (ref_key_fn self v = key_fn self d) as Hv.
  { assert ((key_fn self d, v) ∈ self_buffer fr ++ keyed self consumed) as Hin
      by (rewrite HB; set_solver).
    apply elem_of_app in Hin as [Hin|Hin]; [symmetry; by apply Hkeyed|].
    apply list_elem_of_fmap in Hin as (r & [= -> ->] & _). done. }
  rewrite Hperm in Hnd. apply NoDup_cons in Hnd as [Hfresh Hnd'].
  set (fr2 := Frame rest (warn_once_flag fr) (b1 ++ b2)).
  assert (rest `suffix_of` ref_it fr) as Hsuf by (rewrite Hrefs; by apply suffix_app_r).
  destruct more as [|more].
  - cbn [fst snd]. rewrite bool_decide_eq_false_2 by (simpl; lia).
    split; [done|]. split; [done|]. exists [v]. simpl.
    split; [by destruct src|]. split; [done|]. split; [by repeat constructor|].
    split; [by rewrite Hvals|done].
  - specialize (IH more fr2). simpl in IH.
    destruct IH as (He & Hwarn & vs & Hy & Hlen & Hall & Hcons & Hsuf').
    + intros m Hm. specialize (Hsize m Hm). rewrite Hrefs, length_app in Hsize.
      assert (length (self_buffer fr ++ keyed self consumed)
              = S (length (b1 ++ b2))) as Hl
        by (rewrite HB, !length_app; simpl; lia).
      rewrite length_app, length_map in Hl. lia.
    + done.
    + done.
    + intros d' Hd'. assert (key_fn self d' ≠ key_fn self d) as Hne.
      { intros Heq. apply Hd. rewrite <- Heq. apply list_elem_of_fmap. by exists d'. }
      pose proof (Hkeys d' ltac:(by right)) as Hin. rewrite Hperm in Hin.
      by apply elem_of_cons in Hin as [?|Hin].
    + intros k v' Hin.
      assert ((k, v') ∈ self_buffer fr ++ keyed self consumed) as Hin'
        by (rewrite HB; set_solver).
      apply elem_of_app in Hin' as [Hin'|Hin']; [by apply Hkeyed|].
      apply list_elem_of_fmap in Hin' as (r & [= -> ->] & _). done.
    + destruct (for_source self src more fr2) as [[fr3 ev'] e]. simpl in *.
      split; [rewrite He; repeat case_bool_decide; try done; lia|].
      split; [done|]. exists (v :: vs). simpl.
      split; [by rewrite Hy|]. split; [by rewrite Hlen|].
      split; [by constructor|]. split; [by rewrite Hcons, Hvals|].
      by etrans.
Qed.

Lemma find_ref_unique self (v : Ref) :
  NoDup (map (ref_key_fn self) (ref_datapipe self)) -> v ∈ ref_datapipe self ->
  find_ref self (ref_key_fn self v) = Some v.
Proof.
  unfold find_ref. induction (ref_datapipe self) as [|r rs IH]; simpl.
  - by intros _ ?%elem_of_nil.
  - intros [Hr Hnd]%NoDup_cons [->|Hv]%elem_of_cons.
    + by rewrite bool_decide_eq_true_2.
    + rewrite bool_decide_eq_false_2; [by apply IH|].
      intros Heq. apply Hr. rewrite Heq. apply list_elem_of_fmap. by exists v.
Qed.

Lemma while_hit self data (r : Ref) refs flag :
  over_limit self [] = false ->
  while_not_in_buffer self data (ref_key_fn self r) (r :: refs) flag []
  = (Frame refs flag [(ref_key_fn self r, r)], [], None).
Proof.
  intros Hover. cbn [while_not_in_buffer]. unfold od_contains at 1 2.
  rewrite !bool_decide_eq_false_2 by (simpl; set_solver). rewrite Hover.
  apply while_in_buffer. simpl. left.
Qed.

(** Aligned streams: the loop reads one reference item per source item. *)
Lemma for_source_aligned self src : ∀ (rs rest : list Ref) more flag,
  (∀ m, buffer_size self = Some m -> 0 <= m) ->
  Forall2 (fun d r => ref_key_fn self r = key_fn self d) src rs ->
  let run := for_source self src more (Frame (rs ++ rest) flag []) in
  run.1.2 = map Yield (take (S more) (zip_with (output self) src rs))
  ∧ run.2 = (if bool_decide (length src <= more)%nat then Exhausted else Closed)
  ∧ self_buffer run.1.1 = [].
Proof.
  induction src as [|d src IH]; intros rs rest more flag Hm Hall; cbv zeta.
  { by rewrite bool_decide_eq_true_2 by (simpl; lia). }
  apply Forall2_cons_inv_l in Hall as (r & rs' & Hr & Hall & ->).
  assert (over_limit self [] = false) as Hover.
  { unfold over_limit. destruct (buffer_size self) as [m|] eqn:Hbs; [|done].
    apply bool_decide_eq_false. specialize (Hm m eq_refl). simpl. lia. }
  cbn [for_source ref_it warn_once_flag self_buffer app]. rewrite <- Hr.
  rewrite (while_hit self d r (rs' ++ rest) flag Hover).
  cbn [self_buffer od_pop ref_it warn_once_flag]. rewrite decide_True by done.
  destruct more as [|more].
  - by rewrite bool_decide_eq_false_2 by (simpl; lia).
  - specialize (IH rs' rest more flag Hm Hall). cbv zeta in IH.
    destruct (for_source self src more _) as [[fr3 ev'] e].
    cbn [fst snd] in *. destruct IH as (-> & -> & ->).
    split; [done|]. split; [|done].
    destruct (decide (length src <= more)%nat) as [Hle|Hle].
    + by rewrite !bool_decide_eq_true_2 by (simpl; lia).
    + by rewrite !bool_decide_eq_false_2 by (simpl; lia).
Qed.

End facts.

(** When the reference stream has the keys of the primary stream in the
    same order, the joiner is a zip: with any buffer size that [__init__]
    accepts, a run yields the primary items merged with the reference items
    at the same positions, warns about nothing, hands nothing to the cleanup
    hook and raises nothing; reference items past the primary stream are
    not read. *)
Theorem aligned_streams_zip {Data Ref Key Merged : Type} `{!EqDecision Key}
    (self : t Data Ref Key Merged) (rs rest : list Ref) (n : nat) :
  (∀ m, buffer_size self = Some m -> 0 <= m) ->
  ref_datapipe self = rs ++ rest ->
  Forall2 (fun d r => ref_key_fn self r = key_fn self d) (source_datapipe self) rs ->
  __iter__ (reset self) (S n)
  = (reset self,
     map Yield (take (S n) (zip_with (output self) (source_datapipe self) rs)),
     if bool_decide (length (source_datapipe self) <= n)%nat then Exhausted else Closed).
Proof.
  intros Hm Hrefs Hall. unfold __iter__, try_finally. simpl. rewrite Hrefs.
  pose proof (for_source_aligned (reset self) (source_datapipe self) rs rest n true
                Hm Hall) as (Hev & He & Hbuf).
  destruct (for_source (reset self) _ n _) as [[fr ev] e]. simpl in *.
  unfold finally_clause. rewrite Hbuf, Hev, He. simpl. by rewrite app_nil_r.
Qed.

Lemma aligned_streams_zip_witness :
  __iter__ (reset (Build [("a", 100); ("b", 200)] [("a", 1); ("b", 2); ("c", 3)]
                     fst fst false (Some 1) (Some example_merge_fn) [])) 3
  = (reset (Build [("a", 100); ("b", 200)] [("a", 1); ("b", 2); ("c", 3)]
              fst fst false (Some 1) (Some example_merge_fn) []),
     map Yield (take 3 (zip_with
                          (output (Build [("a", 100); ("b", 200)]
                                     [("a", 1); ("b", 2); ("c", 3)]
                                     fst fst false (Some 1) (Some example_merge_fn) []))
                          [("a", 100); ("b", 200)] [("a", 1); ("b", 2)])),
     Exhausted).
Proof.
  apply (aligned_streams_zip
           (Build [("a", 100); ("b", 200)] [("a", 1); ("b", 2); ("c", 3)]
              fst fst false (Some 1) (Some example_merge_fn) [])
           [("a", 1); ("b", 2)] [("c", 3)] 2).
  - intros m [= <-]. lia.
  - done.
  - repeat constructor.
Defined.

(** The join is right whatever the order of the reference stream, when the
    buffer cannot overflow (no bound, or a bound not below the length of the
    reference stream), the keys on either side are distinct and every
    primary key occurs in the reference stream: a run never raises and never
    warns; each primary item is merged with the reference item of its key;
    and every reference item is merged, handed to the cleanup hook at the
    end, or still unread, none is dropped. *)
Theorem join_without_overflow {Data Ref Key Merged : Type} `{!EqDecision Key}
    (self : t Data Ref Key Merged) (n : nat) :
  (∀ m, buffer_size self = Some m -> Z.of_nat (length (ref_datapipe self)) <= m) ->
  NoDup (map (key_fn self) (source_datapipe self)) ->
  NoDup (map (ref_key_fn self) (ref_datapipe self)) ->
  (∀ d, d ∈ source_datapipe self ->
        key_fn self d ∈ map (ref_key_fn self) (ref_datapipe self)) ->
  let run := __iter__ (reset self) (S n) in
  run.2 = (if bool_decide (length (source_datapipe self) <= n)%nat
           then Exhausted else Closed)
  ∧ warnings run.1.2 = 0%nat
  ∧ ∃ vs unread,
      yielded run.1.2 = zip_with (output self) (source_datapipe self) vs
      ∧ length vs = (S n `min` length (source_datapipe self))%nat
      ∧ Forall2 (fun d v => find_ref self (key_fn self d) = Some v)
          (take (length vs) (source_datapipe self)) vs
      ∧ vs ++ released run.1.2 ++ unread ≡ₚ ref_datapipe self
      ∧ unread `suffix_of` ref_datapipe self.
Proof.
  intros Hsize Hsrc Hrefs Hkeys run. subst run. unfold __iter__.
  pose proof (try_finally_spec (reset self) (source_datapipe self) n
                (Frame (ref_datapipe self) true [])) as (_ & Hev & He).
  pose proof (for_source_released (reset self) (source_datapipe self) n
                (Frame (ref_datapipe self) true [])) as Hrel.
  pose proof (for_source_no_overflow (reset self) (source_datapipe self) n
                (Frame (ref_datapipe self) true []))
    as (He' & Hwarn & vs & Hy & Hlen & Hall & Hcons & Hsuf); simpl; try done.
  { by intros k v ?%elem_of_nil. }
  simpl in *. rewrite He, He', Hev. split; [done|].
  split.
  { by rewrite warnings_app, Hwarn, warnings_janitors. }
  exists vs, (ref_it (for_source (reset self) (source_datapipe self) n
                        (Frame (ref_datapipe self) true [])).1.1).
  rewrite yielded_app, yielded_janitors, app_nil_r.
  rewrite released_app, Hrel, released_janitors. simpl.
  split; [done|]. split; [done|]. split; [|by split].
  assert (∀ v, v ∈ vs -> v ∈ ref_datapipe self) as Hin.
  { intros v Hv. rewrite <- Hcons. set_solver. }
  clear -Hall Hin Hrefs. induction Hall as [|d v ds vs Hv Hall IH]; [constructor|].
  constructor.
  - rewrite <- Hv. apply find_ref_unique; [done|]. apply Hin. left.
  - apply IH. intros v' Hv'. apply Hin. by right.
Qed.

Lemma join_without_overflow_witness :
  let self := Build [("c", 300); ("a", 100)] [("a", 1); ("b", 2); ("c", 3); ("d", 4)]
                fst fst false None (Some example_merge_fn) [] in
  (__iter__ (reset self) 3).2 = Exhausted
  ∧ warnings (__iter__ (reset self) 3).1.2 = 0%nat
  ∧ ∃ vs unread,
      yielded (__iter__ (reset self) 3).1.2
      = zip_with (output self) (source_datapipe self) vs
      ∧ length vs = (3 `min` length (source_datapipe self))%nat
      ∧ Forall2 (fun d v => find_ref self (key_fn self d) = Some v)
          (take (length vs) (source_datapipe self)) vs
      ∧ vs ++ released (__iter__ (reset self) 3).1.2 ++ unread ≡ₚ ref_datapipe self
      ∧ unread `suffix_of` ref_datapipe self.
Proof.
  intros self.
  apply (join_without_overflow self 2).
  - intros m [=].
  - simpl. repeat constructor; set_solver.
  - simpl. repeat constructor; set_solver.
  - intros d Hd. simpl in *. set_solver.
Defined.

(** Pickling keeps the configuration and forgets the buffer: restoring the
    state [__getstate__] returns (without a hook) into any object gives the
    object that [reset] would leave, whatever was buffered. *)
Theorem setstate_getstate {Data Ref Key Merged : Type}
    (self other : t Data Ref Key Merged) :
  ∃ state,
    __getstate__ (R := unit) None self = inl state
    ∧ __setstate__ other state = reset self
    ∧ buffer (__setstate__ other state) = [].
Proof. by eexists. Qed.

(** Finalisation hands every buffered item to the cleanup hook, once, in
    the order of insertion, and empties the buffer, so a second call hands
    over nothing; after a run of [__iter__] that was started the buffer is
    empty already, so nothing is handed over twice. *)
Theorem del_releases_once {Data Ref Key Merged : Type} `{!EqDecision Key}
    (self : t Data Ref Key Merged) (n : nat) :
  released (__del__ self).2 = (buffer self).*2
  ∧ yielded (__del__ self).2 = []
  ∧ buffer (__del__ self).1 = []
  ∧ (__del__ (__del__ self).1).2 = []
  ∧ (__del__ (__iter__ self (S n)).1.1).2 = [].
Proof.
  assert (∀ s : t Data Ref Key Merged, buffer s = [] -> (__del__ s).2 = []) as Hempty.
  { intros s Hs. unfold __del__. by rewrite Hs. }
  assert (buffer (__del__ self).1 = []) as Hbuf.
  { unfold __del__. by destruct (buffer self) eqn:Hb. }
  split; [|split; [|split; [done|split]]].
  - unfold __del__. destruct (buffer self) as [|kv l] eqn:Hb; [done|].
    cbn [snd]. by rewrite <- Hb, released_janitors.
  - unfold __del__. destruct (buffer self) as [|kv l] eqn:Hb; [done|].
    cbn [snd]. by rewrite <- Hb, yielded_janitors.
  - by apply Hempty.
  - apply Hempty. simpl. apply try_finally_spec.
Qed.

End IterKeyZipperMore.

(* --------------------------------------------------------------------- *)
(** ** More on the graph utilities                                        *)
(* --------------------------------------------------------------------- *)

Module GraphMore.
Import GraphUtils GraphFacts RewriteFacts ReplaceFacts GraphRemove.

Local Abbreviation heap := (gmap nat (list (string * value))).
Local Abbreviation gitems := (list (nat * (DataPipe * DataPipeGraph))).
Local Abbreviation entry := (nat * DataPipe * list nat)%type.

(** *** The graph of a pipe and its predecessors *)

Lemma traverse_dps_items (h : heap) (X : DataPipe) :
  traverse_dps h X
  = Graph [(py_id X,
            (X, Graph (flat_map
                         (fun c => items (traverse_helper (size h) h ({[py_id X]} ∪ ∅) c))
                         (connected h X))))].
Proof.
  unfold traverse_dps. rewrite traverse_helper_S.
  by rewrite bool_decide_eq_false_2 by set_solver.
Qed.

Lemma flat_map_singletons {A B} (f : A -> list B) (l : list A) :
  (∀ a, a ∈ l -> length (f a) = 1%nat) -> length (flat_map f l) = length l.
Proof.
  induction l as [|a l IH]; intros Hl; [done|]. simpl.
  rewrite length_app, (Hl a) by left. simpl. f_equal. apply IH.
  intros b Hb. apply Hl. by right.
Qed.

(** A pipe has one item in its graph per predecessor (the pipes its
    attributes refer to, one per identity), itself apart. *)
Lemma predecessors_length (h : heap) (X : DataPipe) :
  (∀ c, c ∈ connected h X -> py_id c ≠ py_id X) ->
  ∃ sub, graph_getitem (traverse_dps h X) (py_id X) = Some (X, sub)
         ∧ length (items sub) = length (connected h X)
         ∧ (∀ S, connected h X = [S] ->
              items sub = items (traverse_helper (size h) h ({[py_id X]} ∪ ∅) S)
              ∧ ∃ subS, items sub = [(py_id S, (S, subS))]).
Proof.
  intros Hself. rewrite traverse_dps_items. eexists.
  split; [unfold graph_getitem; simpl; by rewrite bool_decide_eq_true_2|].
  assert (∀ c, c ∈ connected h X ->
            ∃ subc, traverse_helper (size h) h ({[py_id X]} ∪ ∅) c
                    = Graph [(py_id c, (c, subc))]) as Hone.
  { intros c Hc. pose proof (connected_dom h X c Hc) as Hdom.
    assert (size h ≠ 0%nat) as Hsize.
    { intros H0. apply map_size_empty_inv in H0. subst h.
      by rewrite dom_empty_L in Hdom. }
    destruct (size h) as [|n]; [done|]. rewrite traverse_helper_S.
    rewrite bool_decide_eq_false_2; [by eexists|].
    specialize (Hself c Hc). set_solver. }
  split.
  - simpl. apply flat_map_singletons. intros c Hc.
    destruct (Hone c Hc) as [subc ->]. done.
  - intros S HS. simpl. rewrite HS. simpl. rewrite app_nil_r. split; [done|].
    destruct (Hone S) as [subS ->]; [rewrite HS; left|]. by eexists.
Qed.

(** *** [_remove_dp] *)

Lemma remove_dp_cons (X : DataPipe) (h : heap) (R : DataPipe) k dp sub (rest : gitems) :
  _remove_dp X h R (Graph ((k, (dp, sub)) :: rest))
  = if bool_decide (k = py_id X) then
      match items sub with
      | [] => Err IndexError
      | (_, (src_dp, _)) :: _ =>
          match _assign_attr dp src_dp h (VPipe R) true with
          | Err e => Err e
          | Ok (h', _, _) => _remove_dp X h' R (Graph rest)
          end
      end
    else
      match _remove_dp X h dp sub with
      | Err e => Err e
      | Ok h' => _remove_dp X h' R (Graph rest)
      end.
Proof. done. Qed.

Lemma replace_dp_cons (old_dp new_dp : DataPipe) (h : heap) (R : DataPipe) k dp sub
    (rest : gitems) :
  _replace_dp old_dp new_dp h R (Graph ((k, (dp, sub)) :: rest))
  = if bool_decide (k = py_id old_dp) then
      match _assign_attr old_dp new_dp h (VPipe R) true with
      | Err e => Err e
      | Ok (h', _, _) => _replace_dp old_dp new_dp h' R (Graph rest)
      end
    else
      match _replace_dp old_dp new_dp h dp sub with
      | Err e => Err e
      | Ok h' => _replace_dp old_dp new_dp h' R (Graph rest)
      end.
Proof. done. Qed.

(** Nothing is assigned when the pipe is not a key of the graph. *)
Lemma remove_dp_absent (X : DataPipe) :
  (∀ g (h : heap) R, py_id X ∉ map (fun e : entry => e.1.1) (graph_entries g) ->
     _remove_dp X h R g = Ok h)
  ∧ (∀ (l : gitems) (h : heap) R,
       py_id X ∉ map (fun e : entry => e.1.1) (items_entries l) ->
       _remove_dp X h R (Graph l) = Ok h).
Proof.
  apply graph_items_ind.
  - intros l IH h R. rewrite graph_entries_Graph. apply IH.
  - done.
  - intros k dp sub rest IHsub IHrest h R Hk. simpl in Hk. rewrite map_app in Hk.
    apply not_elem_of_cons in Hk as [Hne Hk].
    apply not_elem_of_app in Hk as [Hs Hr].
    rewrite remove_dp_cons, bool_decide_eq_false_2 by done.
    rewrite IHsub by done. by apply IHrest.
Qed.

(** Where the graph shows [S] as the pipe that sends to [X], [_remove_dp]
    does what [_replace_dp] does to put [S] in the place of [X]. *)
Lemma remove_dp_replace (X S : DataPipe) :
  (∀ g (h : heap) R, sends_from X S g = true ->
     _remove_dp X h R g = _replace_dp X S h R g)
  ∧ (∀ (l : gitems) (h : heap) R, sends_from X S (Graph l) = true ->
       _remove_dp X h R (Graph l) = _replace_dp X S h R (Graph l)).
Proof.
  apply graph_items_ind.
  - intros l IH. apply IH.
  - done.
  - intros k dp sub rest IHsub IHrest h R Hs.
    change (sends_from X S (Graph ((k, (dp, sub)) :: rest)))
      with ((if bool_decide (k = py_id X) then
               bool_decide (dp = X)
               && match items sub with
                  | (_, (s, _)) :: _ => bool_decide (s = S)
                  | [] => false
                  end
             else sends_from X S sub)
            && sends_from X S (Graph rest)) in Hs.
    apply andb_prop in Hs as [Hhead Hrest].
    rewrite remove_dp_cons, replace_dp_cons. case_bool_decide as Hk.
    + apply andb_prop in Hhead as [->%bool_decide_eq_true Hsrc].
      destruct (items sub) as [|[k' [s sub']] l']; [done|].
      apply bool_decide_eq_true in Hsrc as ->.
      destruct (_assign_attr X S h (VPipe R) true) as [[[h' o] r]|e]; [|done].
      by apply IHrest.
    + rewrite (IHsub h dp Hhead).
      destruct (_replace_dp X S h dp sub) as [h'|e]; [|done]. by apply IHrest.
Qed.

(** [remove_dp] checks the graph it is given and the predecessors of the
    pipe before it changes anything: a graph without exactly one terminal
    pipe fails the assertion, a pipe without a predecessor is a source and
    cannot be removed, nor can a pipe with several predecessors. *)
Theorem remove_dp_checks (h : gmap nat (list (string * value))) (G : DataPipeGraph)
    (X : DataPipe) :
  (∀ c, c ∈ connected h X -> py_id c ≠ py_id X) ->
  (length (items G) ≠ 1%nat -> remove_dp h G X = Fails (Raised AssertionError))
  ∧ (length (items G) = 1%nat -> connected h X = [] ->
     remove_dp h G X = Fails RuntimeError_source)
  ∧ (length (items G) = 1%nat -> (1 < length (connected h X))%nat ->
     remove_dp h G X = Fails RuntimeError_multiple).
Proof.
  intros Hself. destruct (predecessors_length h X Hself) as (sub & Hget & Hlen & _).
  unfold remove_dp. split; [|split].
  - intros HG. by rewrite bool_decide_eq_false_2.
  - intros HG Hc. rewrite bool_decide_eq_true_2 by done. simpl. rewrite Hget.
    rewrite Hc in Hlen. by rewrite bool_decide_eq_true_2.
  - intros HG Hc. rewrite bool_decide_eq_true_2 by done. simpl. rewrite Hget.
    rewrite bool_decide_eq_false_2 by lia. by rewrite bool_decide_eq_true_2 by lia.
Qed.

Lemma remove_dp_checks_witness :
  remove_dp pipeline (traverse_dps pipeline batched) zipped = Fails RuntimeError_multiple.
Proof.
  refine (proj2 (proj2 (remove_dp_checks pipeline (traverse_dps pipeline batched) zipped _))
            _ _).
  - intros c Hc. apply list_elem_of_In in Hc. vm_compute in Hc.
    destruct Hc as [<-|[<-|[]]]; vm_compute; lia.
  - by vm_compute.
  - vm_compute. lia.
Defined.

(** Removing the terminal pipe of its own graph, when it has one
    predecessor, changes no attribute and returns the graph of the
    predecessor. *)
Theorem remove_dp_terminal (h : gmap nat (list (string * value))) (X S : DataPipe) :
  connected h X = [S] -> py_id S ≠ py_id X ->
  remove_dp h (traverse_dps h X) X = Done (h, traverse_dps h S).
Proof.
  intros Hc HS.
  destruct (predecessors_length h X) as (sub & Hget & Hlen & Hsub).
  { intros c. rewrite Hc. by intros ->%list_elem_of_singleton. }
  destruct (Hsub S Hc) as (Hitems & subS & HsubS).
  assert (length (items (traverse_dps h X)) = 1%nat) as Hone
    by (by rewrite traverse_dps_items).
  unfold remove_dp. rewrite Hget.
  rewrite (bool_decide_eq_true_2 _ Hone). simpl negb. cbv iota zeta.
  rewrite Hc in Hlen. simpl in Hlen.
  rewrite (bool_decide_eq_false_2 (length (items sub) = 0%nat)) by lia.
  rewrite (bool_decide_eq_false_2 (1 < length (items sub))%nat) by lia.
  rewrite HsubS. simpl remove_values.
  rewrite (proj1 (remove_dp_absent X)); [simpl; done|].
  intros Hin. apply list_elem_of_fmap in Hin as (e & Hk & He).
  assert (e ∈ graph_entries (traverse_helper (size h) h ({[py_id X]} ∪ ∅) S)) as He'.
  { destruct (traverse_helper (size h) h ({[py_id X]} ∪ ∅) S) as [l] eqn:HT.
    simpl in Hitems. rewrite HsubS in Hitems. subst l.
    rewrite graph_entries_single. by right. }
  destruct (traverse_entries h _ _ _ _ He') as [_ Hcache]. set_solver.
Qed.

Lemma remove_dp_terminal_witness :
  remove_dp pipeline (traverse_dps pipeline batched) batched
  = Done (pipeline, traverse_dps pipeline zipped).
Proof.
  apply (remove_dp_terminal pipeline batched zipped).
  - by vm_compute.
  - vm_compute. lia.
Defined.

(** Removing a pipe that is not the terminal pipe is replacing it by its
    predecessor: when the pipe has one predecessor [S] and the graph shows
    [S] as the first pipe below it wherever it occurs, [remove_dp] makes the
    assignments, raises the exceptions and returns the graph that
    [replace_dp] does for the pipe and [S]. *)
Theorem remove_is_replace (h : gmap nat (list (string * value))) (G : DataPipeGraph)
    (X S : DataPipe) :
  length (items G) = 1%nat -> py_id X ∉ (items G).*1 ->
  connected h X = [S] -> py_id S ≠ py_id X ->
  sends_from X S G = true ->
  remove_dp h G X = of_result (replace_dp X S h G).
Proof.
  intros HG Hkey Hc HS Hsends.
  destruct (predecessors_length h X) as (sub & Hget & Hlen & _).
  { intros c. rewrite Hc. by intros ->%list_elem_of_singleton. }
  rewrite Hc in Hlen. simpl in Hlen.
  unfold remove_dp, replace_dp. rewrite Hget.
  rewrite !bool_decide_eq_true_2 by done. simpl negb. cbv iota.
  rewrite (bool_decide_eq_false_2 (length (items sub) = 0%nat)) by lia.
  rewrite (bool_decide_eq_false_2 (1 < length (items sub))%nat) by lia.
  rewrite (bool_decide_eq_false_2 (py_id X ∈ (items G).*1)) by done.
  assert (graph_getitem G (py_id X) = None) as ->.
  { unfold graph_getitem.
    destruct (List.find _ (items G)) as [kv|] eqn:Hfind; [|done].
    apply find_some in Hfind as [Hin Hk]. apply bool_decide_eq_true in Hk.
    destruct Hkey. rewrite <- Hk. apply list_elem_of_fmap. exists kv.
    split; [done|]. by apply list_elem_of_In. }
  destruct G as [l]. simpl items in *.
  destruct l as [|[k [P subP]] [|? ?]]; try done.
  simpl remove_values. simpl replace_values.
  assert (sends_from X S subP = true) as HsP.
  { simpl in Hsends. rewrite andb_true_r in Hsends.
    rewrite bool_decide_eq_false_2 in Hsends; [done|].
    intros ->. apply Hkey. simpl. left. }
  rewrite (proj1 (remove_dp_replace X S) subP h P HsP).
  by destruct (_replace_dp X S h P subP).
Qed.

Lemma remove_is_replace_witness :
  remove_dp pipeline (traverse_dps pipeline batched) mapped_f
  = of_result (replace_dp mapped_f source pipeline (traverse_dps pipeline batched))
  ∧ ∃ h1, remove_dp pipeline (traverse_dps pipeline batched) mapped_f
          = Done (h1, traverse_dps h1 batched)
          ∧ __dict__ h1 zipped = [("datapipes", VTuple [VPipe source; VPipe mapped_g])].
Proof.
  assert (remove_dp pipeline (traverse_dps pipeline batched) mapped_f
          = of_result (replace_dp mapped_f source pipeline
                         (traverse_dps pipeline batched))) as Heq.
  { apply (remove_is_replace pipeline (traverse_dps pipeline batched) mapped_f source).
    - by vm_compute.
    - rewrite list_elem_of_In. vm_compute. intros [H|[]]. discriminate H.
    - by vm_compute.
    - vm_compute. lia.
    - by vm_compute. }
  split; [exact Heq|]. rewrite Heq.
  exists (<[4%nat := [("datapipes", VTuple [VPipe source; VPipe mapped_g])]]> pipeline).
  split; by vm_compute.
Defined.

(** Replacing a pipe that is not in the graph changes no attribute and
    returns the graph of the terminal pipe. *)
Theorem replace_dp_absent (old_dp new_dp : DataPipe)
    (h : gmap nat (list (string * value))) (k : nat) (P : DataPipe)
    (sub : DataPipeGraph) :
  py_id old_dp ∉ map (fun e : nat * DataPipe * list nat => e.1.1)
                   (graph_entries (Graph [(k, (P, sub))])) ->
  replace_dp old_dp new_dp h (Graph [(k, (P, sub))]) = Ok (h, traverse_dps h P).
Proof.
  intros Hk. rewrite graph_entries_single in Hk. simpl in Hk.
  apply not_elem_of_cons in Hk as [Hne Hk].
  unfold replace_dp. simpl items. simpl length.
  rewrite bool_decide_eq_true_2 by done. simpl negb. cbv iota.
  rewrite (bool_decide_eq_false_2 (py_id old_dp ∈ _))
    by (simpl; intros ?%list_elem_of_singleton; congruence).
  simpl items. simpl replace_values.
  rewrite (proj1 (replace_dp_walk old_dp new_dp)).
  by rewrite (proj1 (walk_calls_none (py_id old_dp))).
Qed.

Lemma replace_dp_absent_witness :
  replace_dp other source pipeline
    (Graph [(4%nat, (zipped,
              Graph [(2%nat, (mapped_f, Graph [(1%nat, (source, Graph []))]));
                     (3%nat, (mapped_g, Graph [(1%nat, (source, Graph []))]))]))])
  = Ok (pipeline, traverse_dps pipeline zipped).
Proof.
  apply replace_dp_absent. rewrite list_elem_of_In. vm_compute. intros H.
  repeat (destruct H as [H|H]; [discriminate H|]). exact H.
Defined.

End GraphMore.

(* --------------------------------------------------------------------- *)
(** ** What [replace_dp] leaves alone, and containers in containers       *)
(* --------------------------------------------------------------------- *)

Module AssignMore.
Import GraphUtils GraphFacts RewriteFacts ReplaceFacts NestedTuples.

Local Abbreviation heap := (gmap nat (list (string * value))).
Local Abbreviation gitems := (list (nat * (DataPipe * DataPipeGraph))).
Local Abbreviation entry := (nat * DataPipe * list nat)%type.

(** *** The attributes an assignment keeps *)

Lemma assign_items_names (old_dp new_dp : DataPipe) (d : list (string * value)) :
  ∀ d', assign_items old_dp new_dp d = Ok d' -> d'.*1 = d.*1.
Proof.
  induction d as [|[k v] d IH]; intros d' Hd; simpl in Hd.
  - by injection Hd as <-.
  - destruct (assign0 old_dp new_dp v) as [[v' [n|]]|e]; [| |done].
    + by injection Hd as <-.
    + destruct (assign_items old_dp new_dp d) as [rest|e]; [|done].
      injection Hd as <-. simpl. f_equal. by apply IH.
Qed.

(** A call on a receiver writes the attributes of the receiver and of no
    other pipe. *)
Lemma assign_attr_pipe_frame (old_dp new_dp : DataPipe) (h : heap) (R : DataPipe)
    (h' : heap) o r :
  _assign_attr old_dp new_dp h (VPipe R) true = Ok (h', o, r) ->
  (∀ k, map fst <$> (h' !! k) = map fst <$> (h !! k))
  ∧ (∀ k, k ≠ py_id R -> h' !! k = h !! k).
Proof.
  simpl. case_bool_decide as Hid; [intros [= <- _ _]; done|].
  destruct (h !! py_id R) as [d|] eqn:Hd; [|intros [= <- _ _]; done].
  destruct (assign_items old_dp new_dp d) as [d'|e] eqn:Hd'; [|done].
  intros [= <- _ _]. split.
  - intros k. destruct (decide (k = py_id R)) as [->|Hk].
    + rewrite lookup_insert_eq, Hd. simpl. f_equal.
      apply (assign_items_names old_dp new_dp d d' Hd').
    + by rewrite lookup_insert_ne.
  - intros k Hk. by rewrite lookup_insert_ne.
Qed.

Lemma assign_all_frame (old_dp new_dp : DataPipe) (l : list DataPipe) :
  ∀ h h' : heap, assign_all old_dp new_dp l h = Ok h' ->
    (∀ k, map fst <$> (h' !! k) = map fst <$> (h !! k))
    ∧ (∀ k, k ∉ map py_id l -> h' !! k = h !! k).
Proof.
  induction l as [|R l IH]; intros h h' Hl.
  - by injection Hl as <-.
  - rewrite assign_all_cons in Hl.
    destruct (_assign_attr old_dp new_dp h (VPipe R) true) as [[[h1 o] r]|e] eqn:HR;
      [|done].
    destruct (assign_attr_pipe_frame _ _ _ _ _ _ _ HR) as [N1 F1].
    destruct (IH h1 h' Hl) as [N2 F2]. split.
    + intros k. by rewrite N2, N1.
    + intros k Hk. simpl in Hk. apply not_elem_of_cons in Hk as [Hne Hk].
      by rewrite F2, F1.
Qed.

Lemma replace_values_frame (old_dp new_dp : DataPipe) (l : gitems) :
  ∀ h h' : heap, replace_values old_dp new_dp h l = Ok h' ->
    (∀ k, map fst <$> (h' !! k) = map fst <$> (h !! k))
    ∧ (∀ k, k ∉ map (fun e : entry => py_id e.1.2) (items_entries l) ->
         h' !! k = h !! k).
Proof.
  induction l as [|[k0 [R s]] l IH]; intros h h' Hl.
  - by injection Hl as <-.
  - simpl in Hl.
    destruct (_replace_dp old_dp new_dp h R s) as [h1|e] eqn:HR; [|done].
    rewrite (proj1 (replace_dp_walk old_dp new_dp)) in HR.
    destruct (assign_all_frame _ _ _ _ _ HR) as [N1 F1].
    destruct (IH h1 h' Hl) as [N2 F2]. split.
    + intros k. by rewrite N2, N1.
    + intros k Hk. simpl in Hk. apply not_elem_of_cons in Hk as [Hne Hk].
      rewrite map_app in Hk. apply not_elem_of_app in Hk as [Hs Hrest].
      rewrite F2 by done. apply F1.
      intros (X & -> & HX)%list_elem_of_fmap.
      destruct (proj1 (walk_calls_pipes (py_id old_dp)) s R X HX)
        as [->|(e & He & <- & _)]; [done|].
      apply Hs. apply list_elem_of_fmap. by exists e.
Qed.



(** *** Tuples in tuples, and in sets *)

Section nested.
Context (old_dp new_dp : DataPipe).

Lemma holds_tuple (l : list value) :
  holds old_dp (VTuple l) = existsb (holds old_dp) l.
Proof.
  unfold holds. simpl. induction l as [|o l IH]; [done|]. simpl.
  rewrite <- IH. repeat case_bool_decide; simpl; try done; lia.
Qed.

(** A call on a tuple of tuples changes nothing, and returns a value when
    the tuple refers to [old_dp] at some depth. *)
Lemma assign0_tuple_tree (v : value) :
  tuple_tree v = true ->
  ∃ r, assign0 old_dp new_dp v = Ok (v, r)
       ∧ (holds old_dp v = match r with Some _ => true | None => false end)
       ∧ (∀ l, v = VTuple l ->
            r = if existsb (holds old_dp) l
                then Some (VTuple (collapse old_dp new_dp l)) else None).
Proof.
  induction v as [dp|d IH|l IH|l IH|l IH|repr] using value_ind'; intros Ht;
    try done.
  - exists (if is_ (VPipe dp) old_dp then Some (VPipe new_dp) else None).
    unfold holds. simpl. case_bool_decide; simpl; done.
  - exists (if existsb (holds old_dp) l
            then Some (VTuple (collapse old_dp new_dp l)) else None).
    split; [|split].
    + unfold assign0 at 1. simpl is_. cbv iota. fold (assign0 old_dp new_dp).
      match goal with
      | |- match ?f l with _ => _ end = _ =>
          assert (f l = Ok (l, collapse old_dp new_dp l, existsb (holds old_dp) l))
            as ->; [|done]
      end.
      simpl in Ht. induction IH as [|o l Ho Hl IHl]; [done|].
      simpl in Ht. apply andb_prop in Ht as [Hto Htl].
      destruct (Ho Hto) as (r & -> & Hr & _). rewrite (IHl Htl).
      simpl. rewrite Hr. by destruct r.
    + rewrite holds_tuple. by destruct (existsb (holds old_dp) l).
    + by intros ? [= <-].
  - exists None. done.
Qed.

End nested.

(** A tuple of datapipes, of values that are not containers and of tuples
    of these at any depth is not changed; when it refers to [old_dp] the
    call returns a tuple in which every element that is [old_dp], or is a
    tuple that refers to [old_dp], is [new_dp]: the other elements of such
    an inner tuple are not kept. *)
Theorem nested_tuple_collapses (old_dp new_dp : DataPipe)
    (h : gmap nat (list (string * value))) (l : list value) :
  forallb tuple_tree l = true ->
  _assign_attr old_dp new_dp h (VTuple l) false
  = Ok (h, VTuple l,
        if existsb (holds old_dp) l
        then Some (VTuple (collapse old_dp new_dp l)) else None).
Proof.
  intros Hl. rewrite assign_attr_no_inner.
  destruct (assign0_tuple_tree old_dp new_dp (VTuple l) Hl) as (r & -> & _ & Hr).
  by rewrite (Hr l eq_refl).
Qed.

Lemma nested_tuple_collapses_witness :
  _assign_attr source other pipeline
    (VTuple [VTuple [VPipe source; VPipe mapped_f]; VPipe mapped_g]) false
  = Ok (pipeline, VTuple [VTuple [VPipe source; VPipe mapped_f]; VPipe mapped_g],
        Some (VTuple [VPipe other; VPipe mapped_g])).
Proof.
  exact (nested_tuple_collapses source other pipeline
           [VTuple [VPipe source; VPipe mapped_f]; VPipe mapped_g] eq_refl).
Defined.

(** A set that refers to [old_dp] inside a tuple, and does not have
    [old_dp] as an element, makes the call raise [KeyError]: the set is
    asked to remove [old_dp]. *)
Theorem set_of_tuples_raises (old_dp new_dp : DataPipe)
    (h : gmap nat (list (string * value))) (l : list value) :
  forallb tuple_tree l = true ->
  existsb (fun o => is_ o old_dp) l = false ->
  existsb (holds old_dp) l = true ->
  _assign_attr old_dp new_dp h (VSet l) false = Err KeyError.
Proof.
  intros Hl Hnot Hin. rewrite assign_attr_no_inner.
  assert (assign0 old_dp new_dp (VSet l) = Err KeyError) as ->; [|done].
  unfold assign0 at 1. simpl is_. cbv iota. fold (assign0 old_dp new_dp).
  match goal with
  | |- match ?f l with _ => _ end = _ =>
      assert (f l = Ok (l, true)) as ->
  end.
  { clear Hnot. induction l as [|o l IH]; [done|]. simpl in Hl, Hin.
    apply andb_prop in Hl as [Ho Hl].
    destruct (assign0_tuple_tree old_dp new_dp o Ho) as (r & -> & Hr & _).
    rewrite Hr in Hin. destruct r; [done|]. simpl in Hin. by rewrite (IH Hl Hin). }
  unfold set_remove_add. by rewrite Hnot.
Qed.

Lemma set_of_tuples_raises_witness :
  _assign_attr source other pipeline
    (VSet [VPipe mapped_g; VTuple [VPipe source; VOther "0"]]) false
  = Err KeyError.
Proof.
  exact (set_of_tuples_raises source other pipeline
           [VPipe mapped_g; VTuple [VPipe source; VOther "0"]] eq_refl eq_refl eq_refl).
Defined.

(** *** [find_dps] and [list_dps] *)

(** The pipes [find_dps] lists for a type are the pipes of that type that
    [list_dps] lists without exclusion, each once; the two lists differ in
    their order at most (depth first, breadth first). *)
Theorem find_dps_of_list_dps (h : gmap nat (list (string * value))) (G : DataPipeGraph)
    (T : pyclass) :
  wf_graph G = true ->
  find_dps G T ≡ₚ filter (fun dp => py_type dp = T) (list_dps h G ExcludeNone).
Proof.
  intros Hwf. destruct (visit_all G Hwf) as (new & Hv & Hnd & Hsub & Hall).
  rewrite find_dps_visit, Hv. simpl.
  apply andb_prop in Hwf as [Hkey Hcons].
  assert (map py_id (map (fun e : entry => e.1.2) new)
          = map (fun e : entry => e.1.1) new) as Hids.
  { rewrite map_map. apply map_ext_in. intros e He. symmetry.
    apply (keyed_by_id_spec _ Hkey). apply Hsub. by apply list_elem_of_In. }
  assert (map (fun e : entry => e.1.2) new ≡ₚ list_dps h G ExcludeNone) as ->; [|done].
  unfold list_dps. change (exclude_cache h ExcludeNone) with (∅ : gset nat).
  destruct (list_dps_from_spec ∅ G) as (H1 & _ & H3 & H4 & _).
  pose proof (list_dps_from_ids ∅ G Hkey) as Hl. simpl in Hl.
  apply NoDup_Permutation.
  - apply (NoDup_fmap_1 py_id).
    change (NoDup (map py_id (map (fun e : entry => e.1.2) new))). by rewrite Hids.
  - apply (NoDup_fmap_1 py_id).
    change (NoDup (map py_id (list_dps_from ∅ G))). by rewrite Hl.
  - intros dp. split.
    + intros (e & -> & He)%list_elem_of_fmap.
      apply list_dps_from_all; [by apply consistent_spec|by apply Hsub].
    + rewrite H1. intros (it & -> & Hit)%list_elem_of_fmap.
      destruct (H4 it Hit) as [_ [He _]].
      apply list_elem_of_fmap. exists (entry_of it). split; [done|]. by apply Hall.
Qed.

Lemma find_dps_of_list_dps_witness :
  find_dps (traverse_dps pipeline batched) Mapper
  ≡ₚ filter (fun dp => py_type dp = Mapper)
       (list_dps pipeline (traverse_dps pipeline batched) ExcludeNone).
Proof.
  apply (find_dps_of_list_dps pipeline (traverse_dps pipeline batched) Mapper).
  by vm_compute.
Defined.

(** *** Excluding the terminal pipes *)

Lemma exclude_one_mono (h : heap) (c : gset nat) (dp : DataPipe) x :
  x ∈ c -> x ∈ exclude_one h c dp.
Proof.
  intros Hx. unfold exclude_one. case_bool_decide; [done|].
  apply foldl_add_ids. by left.
Qed.

Lemma keyed_traverse_dps (h : heap) (dp : DataPipe) :
  keyed_by_id (traverse_dps h dp) = true.
Proof.
  apply forallb_forall. intros e He%list_elem_of_In. apply bool_decide_eq_true.
  by destruct (traverse_entries h _ _ _ _ He).
Qed.

(** An excluded datapipe is in the cache after its round. *)
Lemma exclude_one_self (h : heap) (c : gset nat) (dp : DataPipe) :
  py_id dp ∈ exclude_one h c dp.
Proof.
  unfold exclude_one. case_bool_decide as Hin; [done|].
  apply foldl_add_ids. right.
  rewrite (list_dps_from_ids ∅ _ (keyed_traverse_dps h dp)).
  destruct (list_dps_from_spec ∅ (traverse_dps h dp)) as (_ & _ & _ & _ & H5 & _).
  destruct (H5 (py_id dp)) as [?%elem_of_empty|Hx]; [|done|done].
  destruct (traverse_dps_top h dp) as [sub ->]. simpl. left.
Qed.

Lemma exclude_fold_has (h : heap) (dps : list DataPipe) : ∀ (c : gset nat) x,
  x ∈ c ∨ x ∈ map py_id dps -> x ∈ foldl (exclude_one h) c dps.
Proof.
  induction dps as [|dp dps IH]; intros c x; simpl.
  - intros [Hx|Hx%elem_of_nil]; done.
  - intros [Hx|[->|Hx]%elem_of_cons]; apply IH.
    + left. by apply exclude_one_mono.
    + left. apply exclude_one_self.
    + by right.
Qed.

Lemma enqueue_seen (l : gitems) : ∀ q (cache : gset nat),
  (∀ k, k ∈ l.*1 -> k ∈ cache) -> enqueue l q cache = (q, cache).
Proof.
  induction l as [|[k [dp sub]] l IH]; intros q cache Hl; [done|]. simpl.
  rewrite bool_decide_eq_true_2 by (apply Hl; left).
  apply IH. intros k' Hk'. apply Hl. by right.
Qed.

(** When every terminal pipe of the graph is excluded, [list_dps] lists
    nothing. *)
Theorem list_dps_terminal_excluded (h : gmap nat (list (string * value)))
    (G : DataPipeGraph) (ex : exclude_arg) :
  (∀ k, k ∈ (items G).*1 -> k ∈ map py_id (exclude_list ex)) ->
  list_dps h G ex = [].
Proof.
  intros Hall. unfold list_dps, list_dps_from.
  rewrite enqueue_seen.
  - by destruct (graph_size G).
  - intros k Hk. unfold exclude_cache. apply exclude_fold_has. right. by apply Hall.
Qed.

Lemma list_dps_terminal_excluded_witness :
  list_dps pipeline (traverse_dps pipeline batched) (ExcludeOne batched) = [].
Proof.
  apply list_dps_terminal_excluded. intros k Hk.
  apply list_elem_of_In in Hk. vm_compute in Hk. destruct Hk as [<-|[]].
  apply list_elem_of_In. vm_compute. by left.
Defined.

End AssignMore.
